(** * elm-watch: a shallow embedding of the hot-reload engine

    The development follows the TypeScript sources module by module:

    - [Types]            : the small shared vocabulary (compilation modes, run
                           modes, paths, output paths);
    - [Js]               : the few JavaScript / Node primitives the sources rely
                           on ([String.prototype.endsWith], [path.basename],
                           [Array.prototype.slice] with a negative start,
                           insertion-ordered [Set], [Object.fromEntries]);
    - [Run]              : command line parsing ([parseArgs]);
    - [WebSocketServer]  : the dispatch-detachable message queue;
    - [Postprocess]      : the postprocess worker and its pool;
    - [Compile]          : the compile loop of the make/hot engine and its
                           error report;
    - [Hot]              : the orchestrator ([update], [runCmd],
                           [parseWebSocketConnectRequestUrl],
                           [writeElmWatchJson]).

    Mutable JavaScript objects that are shared between several owners (an
    [OutputState] reachable from the project and from a command, a worker
    reachable from the pool and from a [kill] closure) live in an explicit
    store and are named by references. *)

From Stdlib Require Import ZArith Ascii String List Bool Lia DecimalString.
From stdpp Require Import base option list gmap strings fin_maps.

Local Open Scope string_scope.
Local Open Scope Z_scope.
Local Open Scope nat_scope.
Local Open Scope list_scope.

(** ** Shared vocabulary (Types.ts, PathHelpers.ts) *)

Module Types.

Inductive CompilationMode : Type := standard | debug | optimize.

Inductive RunMode : Type := hot | make.

(** [type CliArg = { tag: "CliArg"; theArg: string }] *)
Record CliArg : Type := mkCliArg { theArg : string }.

(** [type AbsolutePath = { tag: "AbsolutePath"; absolutePath: string }] *)
Record AbsolutePath : Type := mkAbsolutePath { absolutePath : string }.

(** [OutputPath]: a real output file, with the text the user wrote for it, or
    the null output. *)
Inductive OutputPath : Type :=
| OutputPath_ (theOutputPath : AbsolutePath) (originalString : string)
| NullOutputPath.

#[global] Instance CompilationMode_eq_dec : EqDecision CompilationMode.
Proof. solve_decision. Defined.

#[global] Instance RunMode_eq_dec : EqDecision RunMode.
Proof. solve_decision. Defined.

#[global] Instance CliArg_eq_dec : EqDecision CliArg.
Proof. solve_decision. Defined.

#[global] Instance AbsolutePath_eq_dec : EqDecision AbsolutePath.
Proof. solve_decision. Defined.

#[global] Instance OutputPath_eq_dec : EqDecision OutputPath.
Proof. solve_decision. Defined.

End Types.

(** ** JavaScript and Node primitives used by the sources *)

Module Js.

(** The characters of a string, first to last. *)
Definition chars (s : string) : list ascii := list_ascii_of_string s.

(** Whether the list [p] is an initial segment of the list [l]. *)
Fixpoint startsWithList (l p : list ascii) : bool :=
  match p, l with
  | [], _ => true
  | c :: p', d :: l' => Ascii.eqb c d && startsWithList l' p'
  | _ :: _, [] => false
  end.

(** [s.startsWith(p)] *)
Definition startsWith (s p : string) : bool :=
  startsWithList (chars s) (chars p).

(** [s.endsWith(p)]: read from the end, [s] starts with [p]. *)
Definition endsWith (s p : string) : bool :=
  startsWithList (List.rev (chars s)) (List.rev (chars p)).

(** [s.slice(k)] for a non-negative [k]. *)
Definition sliceFrom (k : nat) (s : string) : string :=
  string_of_list_ascii (drop k (chars s)).

(** [array.join(sep)] (the [join] helper of Helpers.ts). *)
Definition join (parts : list string) (sep : string) : string :=
  String.concat sep parts.

Fixpoint dropWhile {A} (p : A -> bool) (l : list A) : list A :=
  match l with
  | [] => []
  | x :: l' => if p x then dropWhile p l' else l
  end.

Fixpoint takeWhile {A} (p : A -> bool) (l : list A) : list A :=
  match l with
  | [] => []
  | x :: l' => if p x then x :: takeWhile p l' else []
  end.

Definition isSlash (c : ascii) : bool := Ascii.eqb c "/"%char.

(** [path.basename(p)] of Node's [path] module on a POSIX platform, called
    without a suffix: scanning from the end, the trailing separators are skipped, and
    the characters up to the next separator (or to the start) are the
    result. *)
Definition basename (p : string) : string :=
  let fromEnd := List.rev (chars p) in
  let component := takeWhile (fun c => negb (isSlash c))
                             (dropWhile isSlash fromEnd) in
  string_of_list_ascii (List.rev component).

(** [array.slice(-k)] for a positive integer [k]: the last [k] elements, or
    the whole array when it has fewer. *)
Definition sliceLast {A} (k : nat) (l : list A) : list A :=
  drop (length l - k) l.

(** A JavaScript [Set], as the list of its elements in insertion order. *)
Definition setAdd `{EqDecision A} (s : list A) (x : A) : list A :=
  if decide (x ∈ s) then s else s ++ [x].

(** [Array.from(new Set(xs))] *)
Definition arrayFromSet `{EqDecision A} (xs : list A) : list A :=
  fold_left setAdd xs [].

(** [Object.fromEntries(entries)]: later entries overwrite earlier ones. *)
Definition fromEntries {V} (entries : list (string * V)) : gmap string V :=
  fold_left (fun o kv => <[kv.1 := kv.2]> o) entries ∅.

(** The numbers that occur as worker caps: the integers and [Infinity]. *)
Inductive Num : Type := Finite (z : Z) | Infinity.

(** [n - cap > 0] for an integer [n]. *)
Definition excess (n : Z) (cap : Num) : option nat :=
  match cap with
  | Infinity => None
  | Finite c => if (0 <? n - c)%Z then Some (Z.to_nat (n - c)) else None
  end.

(** [n.toString()] for a non-negative integer. *)
Definition natToString (n : nat) : string :=
  NilZero.string_of_uint (Nat.to_uint n).

(** A string as JavaScript measures and slices it: its UTF-16 code units. *)
Definition Utf16 : Type := list N.

(** A literal of ASCII characters. *)
Definition utf16 (s : string) : Utf16 :=
  List.map N_of_ascii (list_ascii_of_string s).

(** [s.slice(0, end)]: a negative [end] counts from the end of [s]. *)
Definition slice0 (end_ : Z) (s : Utf16) : Utf16 :=
  if (end_ <? 0)%Z
  then take (Z.to_nat (Z.of_nat (length s) + end_)) s
  else take (Z.to_nat end_) s.

End Js.
(** ** Command line parsing ([parseArgs]) *)

Module Run.
Import Types.

Inductive ParseArgsResult : Type :=
| BadArgs (badArgs : list CliArg)
| Success (compilationMode : CompilationMode) (outputs : list string)
| DebugOptimizeClash
| DebugOptimizeForHot.

(** The four locals of [parseArgs] that the [for] loop updates. *)
Record Locals : Type := mkLocals {
  l_debug : bool;
  l_optimize : bool;
  l_badArgs : list CliArg;
  l_outputs : list string
}.

Section WithOutputNames.

(** [ElmToolingJson.isValidOutputName] lives in a module that is not part
    of the sources at hand; it is a predicate on the argument text. *)
Variable isValidOutputName : string -> bool.

(** One iteration of [for (const arg of args) switch (arg.theArg) ...]. *)
Definition loopBody (acc : Locals) (arg : CliArg) : Locals :=
  if String.eqb (theArg arg) "--debug" then
    mkLocals true (l_optimize acc) (l_badArgs acc) (l_outputs acc)
  else if String.eqb (theArg arg) "--optimize" then
    mkLocals (l_debug acc) true (l_badArgs acc) (l_outputs acc)
  else if isValidOutputName (theArg arg) then
    mkLocals (l_debug acc) (l_optimize acc) (l_badArgs acc)
             (l_outputs acc ++ [theArg arg])
  else
    mkLocals (l_debug acc) (l_optimize acc) (l_badArgs acc ++ [arg])
             (l_outputs acc).

Definition loop (args : list CliArg) : Locals :=
  fold_left loopBody args (mkLocals false false [] []).

(** What follows the [switch (runMode)] once no flag error was found. *)
Definition afterFlags (acc : Locals) : ParseArgsResult :=
  match l_badArgs acc with
  | _ :: _ => BadArgs (l_badArgs acc)
  | [] =>
      Success
        (if l_debug acc then debug
         else if l_optimize acc then optimize
         else standard)
        (l_outputs acc)
  end.

Definition parseArgs (runMode : RunMode) (args : list CliArg)
  : ParseArgsResult :=
  let acc := loop args in
  match runMode with
  | hot =>
      if l_debug acc || l_optimize acc then DebugOptimizeForHot
      else afterFlags acc
  | make =>
      if l_debug acc && l_optimize acc then DebugOptimizeClash
      else afterFlags acc
  end.

(** Vocabulary for stating what [parseArgs] does. *)

Definition isDebugFlag (a : CliArg) : bool :=
  String.eqb (theArg a) "--debug".

Definition isOptimizeFlag (a : CliArg) : bool :=
  String.eqb (theArg a) "--optimize".

(** A non-flag argument that is not a valid output name. *)
Definition isBadArg (a : CliArg) : bool :=
  negb (isDebugFlag a) && negb (isOptimizeFlag a)
  && negb (isValidOutputName (theArg a)).

(** A non-flag argument that is a valid output name. *)
Definition isOutputArg (a : CliArg) : bool :=
  negb (isDebugFlag a) && negb (isOptimizeFlag a)
  && isValidOutputName (theArg a).

End WithOutputNames.

(** The arguments contain the given flag. *)
Definition given (flag : string) (args : list CliArg) : Prop :=
  flag ∈ List.map theArg args.

#[global] Instance given_dec flag args : Decision (given flag args).
Proof. unfold given. apply _. Defined.

End Run.

(** ** The WebSocket server's detachable dispatch (WebSocketServer.ts) *)

Module WebSocketServer.

Section Server.

(** [WebSocketServerMsg]; its payload does not matter to the queue. *)
Context {Msg : Type}.

(** The value of the [dispatch] field: either the server's own
    [dispatchToQueue], or a callback installed by [setDispatch], named by
    the run that installed it. *)
Inductive Dispatch : Type :=
| dispatchToQueue
| installed (callback : nat).

(** The server object, together with the record of what every installed
    callback has been called with, oldest call first. *)
Record t : Type := mk {
  dispatch : Dispatch;
  msgQueue : list Msg;
  calls : list (nat * Msg)
}.

(** [new WebSocketServer(options)]: [msgQueue = []] and
    [this.dispatch = this.dispatchToQueue]. *)
Definition new : t := mk dispatchToQueue [] [].

(** [this.dispatch(msg)], which is what every socket event does. *)
Definition onMsg (server : t) (msg : Msg) : t :=
  match dispatch server with
  | dispatchToQueue =>
      mk (dispatch server) (msgQueue server ++ [msg]) (calls server)
  | installed callback =>
      mk (dispatch server) (msgQueue server)
         (calls server ++ [(callback, msg)])
  end.

(** [setDispatch(dispatch)]: install the callback, then call it with every
    message of [msgQueue] in order. The queue itself is left as it is. *)
Definition setDispatch (callback : nat) (server : t) : t :=
  mk (installed callback) (msgQueue server)
     (calls server ++ List.map (fun msg => (callback, msg)) (msgQueue server)).

(** [unsetDispatch()] *)
Definition unsetDispatch (server : t) : t :=
  mk dispatchToQueue (msgQueue server) (calls server).

(** Several socket events in a row. *)
Definition onMsgs (server : t) (msgs : list Msg) : t :=
  fold_left onMsg msgs server.

(** The messages a given callback has been called with, in call order. *)
Definition deliveredTo (callback : nat) (server : t) : list Msg :=
  List.map snd
    (List.filter (fun c => Nat.eqb (fst c) callback) (calls server)).

End Server.

Arguments t : clear implicits.

End WebSocketServer.

(** ** The postprocess worker and its pool (Postprocess.ts) *)

Module Postprocess.

(** A pending promise of [PostprocessWorker#postprocess], named by a number;
    a [Busy] status holds its [resolve] and [reject]. *)
Definition PromiseId : Type := nat.

(** [PostprocessWorkerStatus] *)
Inductive PostprocessWorkerStatus : Type :=
| Busy (promise : PromiseId)
| Idle
| Terminated.

#[global] Instance PostprocessWorkerStatus_eq_dec :
  EqDecision PostprocessWorkerStatus.
Proof. solve_decision. Defined.

(** The errors a postprocess promise is rejected with. *)
Inductive RejectReason : Type :=
| WORKER_TERMINATED.

(** What a worker method does to the outside, in order. *)
Inductive Effect : Type :=
| onTerminated                         (* [this.onTerminated(this)] *)
| threadTerminate                      (* [this.worker.terminate()] *)
| reject (promise : PromiseId) (reason : RejectReason).

(** [PostprocessWorker#isIdle] *)
Definition isIdle (status : PostprocessWorkerStatus) : bool :=
  match status with
  | Idle => true
  | _ => false
  end.

(** [PostprocessWorker#terminate]: the new status and the effects. *)
Definition terminate (status : PostprocessWorkerStatus)
  : PostprocessWorkerStatus * list Effect :=
  match status with
  | Idle => (Terminated, [onTerminated; threadTerminate])
  | Busy promise =>
      (Terminated,
       [onTerminated; threadTerminate; reject promise WORKER_TERMINATED])
  | Terminated => (Terminated, [])
  end.

(** Worker objects are named by references. *)
Definition WorkerRef : Type := nat.

(** The part of the program state the pool's methods read and write: the
    worker objects (those of the pool, and those that are only still
    reachable from a [kill] closure), the pool's [workers] set in insertion
    order, its [calculateMax], and the record of the effects that reached
    the outside (thread terminations and rejections), oldest first. *)
Record PostprocessWorkerPool : Type := mkPool {
  objects : gmap WorkerRef PostprocessWorkerStatus;
  workers : list WorkerRef;
  calculateMax : unit -> Js.Num;
  outside : list (WorkerRef * Effect)
}.

(** The status of a worker object; a reference to no object reads as
    [Terminated], the status on which every method does nothing. *)
Definition statusOf (pool : PostprocessWorkerPool) (w : WorkerRef)
  : PostprocessWorkerStatus :=
  default Terminated (objects pool !! w).

(** The pool's [onTerminated] callback: [this.workers.delete(worker)]. *)
Definition deleteWorker (w : WorkerRef) (ws : list WorkerRef)
  : list WorkerRef :=
  List.filter (fun w' => negb (Nat.eqb w' w)) ws.

(** One effect of worker [w], as the pool sees it. *)
Definition runEffect (w : WorkerRef) (pool : PostprocessWorkerPool)
  (e : Effect) : PostprocessWorkerPool :=
  match e with
  | onTerminated =>
      mkPool (objects pool) (deleteWorker w (workers pool))
             (calculateMax pool) (outside pool)
  | _ =>
      mkPool (objects pool) (workers pool) (calculateMax pool)
             (outside pool ++ [(w, e)])
  end.

(** [worker.terminate()] for the worker object [w]. *)
Definition terminateWorker (pool : PostprocessWorkerPool) (w : WorkerRef)
  : PostprocessWorkerPool :=
  match objects pool !! w with
  | None => pool
  | Some status =>
      let '(status', effects) := terminate status in
      fold_left (runEffect w) effects
        (mkPool (<[w := status']> (objects pool)) (workers pool)
                (calculateMax pool) (outside pool))
  end.

(** [setCalculateMax] *)
Definition setCalculateMax (f : unit -> Js.Num) (pool : PostprocessWorkerPool)
  : PostprocessWorkerPool :=
  mkPool (objects pool) (workers pool) f (outside pool).

(** The [idle] array of [limit]. *)
Definition idleWorkers (pool : PostprocessWorkerPool) : list WorkerRef :=
  List.filter (fun w => isIdle (statusOf pool w)) (workers pool).

(** The workers [limit] calls [terminate] on:
    [idle.slice(-toKill)] when [toKill > 0], none otherwise. *)
Definition toTerminate (pool : PostprocessWorkerPool) : list WorkerRef :=
  match Js.excess (Z.of_nat (length (workers pool))) (calculateMax pool tt) with
  | Some toKill => Js.sliceLast toKill (idleWorkers pool)
  | None => []
  end.

(** [PostprocessWorkerPool#limit] *)
Definition limit (pool : PostprocessWorkerPool) : PostprocessWorkerPool :=
  fold_left terminateWorker (toTerminate pool) pool.

(** [getOrCreateAvailableWorker]: the first idle worker of the set, or a new
    worker object [fresh] added at the end of the set. *)
Definition getOrCreateAvailableWorker (fresh : WorkerRef)
  (pool : PostprocessWorkerPool) : WorkerRef * PostprocessWorkerPool :=
  match idleWorkers pool with
  | existingWorker :: _ => (existingWorker, pool)
  | [] =>
      (fresh,
       mkPool (<[fresh := Idle]> (objects pool)) (workers pool ++ [fresh])
              (calculateMax pool) (outside pool))
  end.

(** The number of workers by which the pool exceeds its cap (zero when it
    does not). *)
Definition excessCount (pool : PostprocessWorkerPool) : nat :=
  default 0
    (Js.excess (Z.of_nat (length (workers pool))) (calculateMax pool tt)).

(** The effects of [PostprocessWorker#terminate] that follow its [await]. *)
Definition isReject (e : Effect) : bool :=
  match e with
  | reject _ _ => true
  | _ => false
  end.

(** [worker.terminate()] for the worker object [w], up to its [await]: the
    status is set, [onTerminated] is called and the thread is told to
    terminate. *)
Definition beginTerminate (pool : PostprocessWorkerPool) (w : WorkerRef)
  : PostprocessWorkerPool :=
  match objects pool !! w with
  | None => pool
  | Some status =>
      let '(status', effects) := terminate status in
      fold_left (runEffect w)
        (List.filter (fun e => negb (isReject e)) effects)
        (mkPool (<[w := status']> (objects pool)) (workers pool)
                (calculateMax pool) (outside pool))
  end.

(** What follows the [await] of that call, once the thread has terminated;
    [before] is the pool as it was when the call started, from which the
    call took its [reject]. *)
Definition endTerminate (before pool : PostprocessWorkerPool) (w : WorkerRef)
  : PostprocessWorkerPool :=
  match objects before !! w with
  | None => pool
  | Some status =>
      fold_left (runEffect w) (List.filter isReject (terminate status).2) pool
  end.

(** [PostprocessWorkerPool#terminate]: [Array#map] calls [terminate] on
    every worker of (a copy of) the set, in order, and each call runs up to
    its [await]; what follows the [await]s happens later, in the order
    [settled] in which the threads' terminations resolve. *)
Definition terminateAll (settled : list WorkerRef)
  (pool : PostprocessWorkerPool) : PostprocessWorkerPool :=
  fold_left (endTerminate pool) settled
    (fold_left beginTerminate (workers pool) pool).

(** The promises rejected so far, oldest first. *)
Definition rejections (pool : PostprocessWorkerPool) : list PromiseId :=
  flat_map
    (fun we =>
       match we.2 with
       | reject promise _ => [promise]
       | _ => []
       end)
    (outside pool).

(** The promises the busy workers of the set are working for, in set
    order. *)
Definition pendingPromises (pool : PostprocessWorkerPool) : list PromiseId :=
  flat_map
    (fun w =>
       match statusOf pool w with
       | Busy promise => [promise]
       | _ => []
       end)
    (workers pool).

(** The set holds distinct workers, and none of them is terminated (a
    terminated worker has left the set through [onTerminated]). *)
Definition wellFormed (pool : PostprocessWorkerPool) : Prop :=
  NoDup (workers pool)
  /\ forall w, w ∈ workers pool -> statusOf pool w <> Terminated.

(** *** One worker: requests, answers and unexpected ends *)

(** [PostprocessResult] as the worker sends it: success with the code, an
    error that has [stdout] and [stderr] fields, or an error that has none.
    [Tag] stands for the tag and the remaining fields. *)
Inductive WorkerResult (Tag : Type) : Type :=
| workerSuccess (code : string)
| errorWithStdio (tag : Tag) (stdout stderr : string)
| errorWithoutStdio (tag : Tag).

Arguments workerSuccess {Tag}.
Arguments errorWithStdio {Tag}.
Arguments errorWithoutStdio {Tag}.

(** [MessageFromWorker["result"]] *)
Inductive WorkerAnswer (Tag : Type) : Type :=
| Resolve (value : WorkerResult Tag)
| Reject (error : string).

Arguments Resolve {Tag}.
Arguments Reject {Tag}.

(** What the worker object does to the outside. *)
Inductive WorkerCall (Tag : Type) : Type :=
| terminating (e : Effect)
| postMessageStartPostprocess
| resolveWith (promise : PromiseId) (result : WorkerResult Tag)
| rejectWith (promise : PromiseId) (error : string)
| callOnIdle
| callOnUnexpectedError (error : string).

Arguments terminating {Tag}.
Arguments postMessageStartPostprocess {Tag}.
Arguments resolveWith {Tag}.
Arguments rejectWith {Tag}.
Arguments callOnIdle {Tag}.
Arguments callOnUnexpectedError {Tag}.

(** The worker object: its status and the chunks collected from the
    thread's stdout and stderr. *)
Record PostprocessWorker : Type := mkWorker {
  status : PostprocessWorkerStatus;
  stdout : list string;
  stderr : list string
}.

(** [Buffer.concat(chunks).toString("utf8")] *)
Definition concatChunks (chunks : list string) : string :=
  String.concat "" chunks.

Section Worker.
Context {Tag : Type}.

(** [new PostprocessWorker(...)] *)
Definition newWorker : PostprocessWorker := mkWorker Idle [] [].

(** The ["data"] handlers of the two streams. *)
Definition onStdout (chunk : string) (w : PostprocessWorker)
  : PostprocessWorker :=
  mkWorker (status w) (stdout w ++ [chunk]) (stderr w).

Definition onStderr (chunk : string) (w : PostprocessWorker)
  : PostprocessWorker :=
  mkWorker (status w) (stdout w) (stderr w ++ [chunk]).

(** [PostprocessWorker#postprocess]; [promise] names the promise it
    creates. [None] is the thrown error of the other two statuses. *)
Definition postprocess (promise : PromiseId) (w : PostprocessWorker)
  : option (PostprocessWorker * list (WorkerCall Tag)) :=
  match status w with
  | Idle =>
      Some (mkWorker (Busy promise) (stdout w) (stderr w),
            [postMessageStartPostprocess])
  | Busy _ | Terminated => None
  end.

(** The handlers of ["error"], ["messageerror"] and ["exit"]. *)
Definition onUnexpectedEnd (error : string) (w : PostprocessWorker)
  : PostprocessWorker * list (WorkerCall Tag) :=
  match status w with
  | Terminated => (w, [])
  | _ =>
      (mkWorker Terminated (stdout w) (stderr w),
       [terminating onTerminated; callOnUnexpectedError error])
  end.

(** The value given to [resolve]. *)
Definition received (w : PostprocessWorker) (result : WorkerResult Tag)
  : WorkerResult Tag :=
  match result with
  | workerSuccess code => workerSuccess code
  | errorWithStdio tag _ _ =>
      errorWithStdio tag (concatChunks (stdout w)) (concatChunks (stderr w))
  | errorWithoutStdio tag => errorWithoutStdio tag
  end.

(** The ["message"] handler for a [PostprocessDone] message;
    [unexpectedMessage] is the text of the error it reports when the worker
    is idle. *)
Definition onPostprocessDone (unexpectedMessage : string)
  (answer : WorkerAnswer Tag) (w : PostprocessWorker)
  : PostprocessWorker * list (WorkerCall Tag) :=
  let '(status', calls) :=
    match status w with
    | Idle =>
        ((terminate Idle).1,
         List.map terminating (terminate Idle).2
         ++ [callOnUnexpectedError unexpectedMessage])
    | Busy promise =>
        (Idle,
         [match answer with
          | Resolve result => resolveWith promise (received w result)
          | Reject error => rejectWith promise error
          end;
          callOnIdle])
    | Terminated => (Terminated, [])
    end in
  (mkWorker status' [] [], calls).

(** [PostprocessWorker#terminate] on the worker object. *)
Definition terminateThis (w : PostprocessWorker)
  : PostprocessWorker * list (WorkerCall Tag) :=
  (mkWorker (terminate (status w)).1 (stdout w) (stderr w),
   List.map terminating (terminate (status w)).2).

(** What happens to a worker. *)
Inductive WorkerEvent : Type :=
| requested (promise : PromiseId)
| wroteStdout (chunk : string)
| wroteStderr (chunk : string)
| answered (answer : WorkerAnswer Tag)
| ended (error : string)
| terminated.

(** One event; a request to a worker that is not idle throws and leaves the
    worker as it is. *)
Definition workerStep (unexpectedMessage : string)
  (acc : PostprocessWorker * list (WorkerCall Tag)) (e : WorkerEvent)
  : PostprocessWorker * list (WorkerCall Tag) :=
  let '(w, calls) := acc in
  let '(w', calls') :=
    match e with
    | requested promise =>
        match postprocess promise w with
        | Some r => r
        | None => (w, [])
        end
    | wroteStdout chunk => (onStdout chunk w, [])
    | wroteStderr chunk => (onStderr chunk w, [])
    | answered answer => onPostprocessDone unexpectedMessage answer w
    | ended error => onUnexpectedEnd error w
    | terminated => terminateThis w
    end in
  (w', calls ++ calls').

Definition workerRun (unexpectedMessage : string) (events : list WorkerEvent)
  (w : PostprocessWorker) : PostprocessWorker * list (WorkerCall Tag) :=
  fold_left (workerStep unexpectedMessage) events (w, []).

(** How often an unexpected error was reported. *)
Definition unexpectedErrors (calls : list (WorkerCall Tag)) : nat :=
  length
    (List.filter
       (fun c =>
          match c with
          | callOnUnexpectedError _ => true
          | _ => false
          end)
       calls).

(** The requests among some events, and the chunks written to the two
    streams. *)
Definition requests (events : list WorkerEvent) : list PromiseId :=
  flat_map
    (fun e => match e with requested p => [p] | _ => [] end) events.

Definition stdoutChunks (events : list WorkerEvent) : list string :=
  flat_map
    (fun e => match e with wroteStdout c => [c] | _ => [] end) events.

Definition stderrChunks (events : list WorkerEvent) : list string :=
  flat_map
    (fun e => match e with wroteStderr c => [c] | _ => [] end) events.

Definition isAnswer (e : WorkerEvent) : bool :=
  match e with
  | answered _ => true
  | _ => false
  end.

(** How often the promise was settled (resolved or rejected). *)
Definition settlements (promise : PromiseId) (calls : list (WorkerCall Tag))
  : nat :=
  length
    (List.filter
       (fun c =>
          match c with
          | resolveWith p _ | rejectWith p _
          | terminating (reject p _) => Nat.eqb p promise
          | _ => false
          end)
       calls).

End Worker.

(** *** Spawned postprocess commands *)

(** Modelled from the spec: [SpawnResult] and [ExitReason] are declared in
    Spawn.ts, which is not among the sources. The result of a spawn is one
    of: command not found, any other pre-exec failure, the pipe to the child
    closed early, or an exit with a reason (exit code, signal, unknown) and
    the two buffers. [Command] and [Err] stand for the command and error
    values handed on. *)
Inductive ExitReason : Type :=
| ExitCode (exitCode : Z)
| Signal (signal : string)
| Unknown.

Inductive SpawnResult (Command Err : Type) : Type :=
| CommandNotFoundError (command : Command)
| OtherSpawnError (error : Err) (command : Command)
| StdinWriteError (error : Err) (command : Command)
| Exit (exitReason : ExitReason) (stdout stderr : string) (command : Command).

Arguments CommandNotFoundError {Command Err}.
Arguments OtherSpawnError {Command Err}.
Arguments StdinWriteError {Command Err}.
Arguments Exit {Command Err}.

(** [PostprocessResult], for a spawned command. *)
Inductive SpawnedResult (Command Err : Type) : Type :=
| spawnedSuccess (code : string)
| spawnedCommandNotFoundError (command : Command)
| spawnedOtherSpawnError (error : Err) (command : Command)
| PostprocessStdinWriteError (error : Err) (command : Command)
| PostprocessNonZeroExit (exitReason : ExitReason) (stdout stderr : string)
                         (command : Command).

Arguments spawnedSuccess {Command Err}.
Arguments spawnedCommandNotFoundError {Command Err}.
Arguments spawnedOtherSpawnError {Command Err}.
Arguments PostprocessStdinWriteError {Command Err}.
Arguments PostprocessNonZeroExit {Command Err}.

(** [handleSpawnResult] of [runPostprocess]; [command] is the command that
    [runPostprocess] built. *)
Definition handleSpawnResult {Command Err} (command : Command)
  (spawnResult : SpawnResult Command Err) : SpawnedResult Command Err :=
  match spawnResult with
  | CommandNotFoundError c => spawnedCommandNotFoundError c
  | OtherSpawnError e c => spawnedOtherSpawnError e c
  | StdinWriteError e c => PostprocessStdinWriteError e c
  | Exit exitReason out err _ =>
      match exitReason with
      | ExitCode 0 => spawnedSuccess out
      | _ => PostprocessNonZeroExit exitReason out err command
      end
  end.

(** The [elm-watch-node] command name. *)
Definition ELM_WATCH_NODE : string := "elm-watch-node".

(** What [runPostprocess] starts: a request to a worker of the pool, or a
    spawned command with the code on its stdin. *)
Inductive Started : Type :=
| inWorker (userArgs extraArgs : list string) (code : string)
| spawned (command : string) (args : list string) (stdin : string).

(** [runPostprocess], up to what it starts. [postprocessArray] is non-empty
    by its type; with an empty one [postprocessArray[0]] is [undefined],
    which is not the worker's name and not a string either: [None]. *)
Definition runPostprocess (targetName compilationMode runMode : string)
  (postprocessArray : list string) (code : string) : option Started :=
  match postprocessArray with
  | [] => None
  | commandName :: userArgs =>
      let extraArgs := [targetName; compilationMode; runMode] in
      if String.eqb commandName ELM_WATCH_NODE
      then Some (inWorker userArgs extraArgs code)
      else Some (spawned commandName (userArgs ++ extraArgs) code)
  end.

(** *** The worker script (PostprocessWorker.ts) *)

(** What the default export of the user's script does when called. *)
Inductive Returned : Type :=
| threw (error : string)
| returnedString (s : string)
| returnedOther (repr : string).

(** What importing the script gives: an exception, or a module whose default
    export is a function or something else. *)
Inductive Imported : Type :=
| importFailed (error : string)
| defaultIsFunction (f : list string -> Returned)
| defaultIsNot (typeofDefault : string) (repr : string).

(** [PostprocessResult<string>] as [elmWatchNode] builds it. *)
Inductive NodeResult : Type :=
| nodeSuccess (code : string)
| ElmWatchNodeMissingScript
| ElmWatchNodeImportError (scriptPath : string) (error : string)
| ElmWatchNodeDefaultExportNotFunction (scriptPath : string)
    (imported : string) (typeofDefault : string)
| ElmWatchNodeRunError (scriptPath : string) (args : list string)
                       (error : string)
| ElmWatchNodeBadReturnValue (scriptPath : string) (args : list string)
                             (returnValue : string).

(** [elmWatchNode]; [resolve] is [absolutePathFromString(cwd, _)] and
    [import_] is what [import()] does with the resolved path. *)
Definition elmWatchNode (resolve : string -> string)
  (import_ : string -> Imported)
  (userArgs extraArgs : list string) (code : string) : NodeResult :=
  match userArgs with
  | [] => ElmWatchNodeMissingScript
  | script :: rest =>
      let scriptPath := resolve script in
      match import_ scriptPath with
      | importFailed error => ElmWatchNodeImportError scriptPath error
      | defaultIsNot typeofDefault repr =>
          ElmWatchNodeDefaultExportNotFunction scriptPath repr typeofDefault
      | defaultIsFunction f =>
          let args := [code] ++ rest ++ extraArgs in
          match f args with
          | threw error => ElmWatchNodeRunError scriptPath args error
          | returnedOther repr =>
              ElmWatchNodeBadReturnValue scriptPath args repr
          | returnedString s => nodeSuccess s
          end
      end
  end.

(** [w] is none of [ks]. *)
Definition noneOf (ks : list WorkerRef) (w : WorkerRef) : bool :=
  forallb (fun k => negb (Nat.eqb w k)) ks.

(** Two pools to try [limit] on: one with an idle, a busy and two more idle
    workers under a cap of two, one with two busy workers under a cap of
    one. *)
Definition mixedPool : PostprocessWorkerPool :=
  mkPool (<[4 := Idle]> (<[3 := Idle]> (<[2 := Busy 7]>
            (<[1 := Idle]> ∅))))
         [1; 2; 3; 4] (fun _ => Js.Finite 2) [].

Definition busyPool : PostprocessWorkerPool :=
  mkPool (<[2 := Busy 8]> (<[1 := Busy 7]> ∅))
         [1; 2] (fun _ => Js.Finite 1) [].

End Postprocess.

(** ** The compile engine: the compile loop and its error report
       (Compile.ts, the version with [compile]) *)

Module Compile.
Import Types.

(** An error template is a function from the terminal width to text. *)
Definition ErrorTemplate : Type := Z -> string.

(** The statuses whose only role in [compile] is to be turned into one error
    template by a function of [Errors]. *)
Inductive ErrorTag : Type :=
| ElmNotFoundError
| CommandNotFoundError
| OtherSpawnError
| UnexpectedElmMakeOutput
| PostprocessNonZeroExit
| ElmWatchNodeMissingScript
| ElmWatchNodeImportError
| ElmWatchNodeDefaultExportNotFunction
| ElmWatchNodeRunError
| ElmWatchNodeResultDecodeError
| StdoutDecodeError
| ElmMakeJsonParseError.

Section WithPayloads.

(** The fields carried by error statuses, by compile errors and by the
    errors found while resolving [elm.json] files are declared in modules
    that are not among the sources; [compile] only hands them on. *)
Context {Payload Problem ElmJsonsError : Type}.

(** One entry of [ElmMakeError.CompileErrors]: a file and its problems. *)
Record CompileError : Type := mkCompileError {
  path : string;
  problems : list Problem
}.

(** [OutputStatus] *)
Inductive OutputStatus : Type :=
| NotWrittenToDisk
| ElmMake
| Postprocess
| Success
| Failed (tag : ErrorTag) (payload : Payload)
| ElmMakeError_GeneralError (payload : Payload)
| ElmMakeError_CompileErrors (errors : list CompileError).

(** [OutputState] *)
Record OutputState : Type := mkOutputState {
  inputs : list string;
  mode : CompilationMode;
  postprocess : option (list string);
  dirty : bool;
  status : OutputStatus
}.

(** [OutputState] objects are shared between [state.elmJsons], the
    [toCompile] array and whoever marks outputs as dirty; they are named by
    references into a store. Every reference of [elmJsons] names an object
    of the store; on a reference that names none (which JavaScript cannot
    express) the functions below leave everything as it is. *)
Definition Ref : Type := nat.

Record State : Type := mkState {
  elmToolingJsonPath : string;
  elmJsons : list (string * list (OutputPath * Ref));
  elmJsonsErrors : list (OutputPath * ElmJsonsError);
  hasRunInstall : bool;
  fullRestartRequested : bool;
  outputStates : gmap Ref OutputState
}.

Definition setOutputStates (st : State) (os : gmap Ref OutputState) : State :=
  mkState (elmToolingJsonPath st) (elmJsons st) (elmJsonsErrors st)
          (hasRunInstall st) (fullRestartRequested st) os.

Definition setStatus (s : OutputStatus) (o : OutputState) : OutputState :=
  mkOutputState (inputs o) (mode o) (postprocess o) (dirty o) s.

Definition setDirty (d : bool) (o : OutputState) : OutputState :=
  mkOutputState (inputs o) (mode o) (postprocess o) d (status o).

(** [outputState.dirty] through a reference. *)
Definition isDirty (st : State) (r : Ref) : bool :=
  match outputStates st !! r with
  | Some o => dirty o
  | None => false
  end.

(** [someOutputIsDirty] *)
Definition someOutputIsDirty (st : State) : bool :=
  existsb
    (fun '(_, outputs) => existsb (fun '(_, r) => isDirty st r) outputs)
    (elmJsons st).

(** The [toCompile] array: [elmJsonsArray.flatMap(...)]. *)
Definition toCompile (st : State) : list (string * OutputPath * Ref) :=
  flat_map
    (fun '(elmJsonPath, outputs) =>
       List.map (fun '(outputPath, r) => (elmJsonPath, outputPath, r)) outputs)
    (elmJsons st).

(** *** The compile loop *)

(** Where the asynchronous callback of one [toCompile] entry stands: it has
    returned (or was never entered in this round), or it is suspended at one
    of its two [await]s. *)
Inductive Task : Type :=
| Returned
| AwaitElmMake
| AwaitPostprocess.

#[global] Instance Task_eq_dec : EqDecision Task.
Proof. solve_decision. Defined.

(** A call of [updateStatusLine(outputPath, status, index)]. *)
Record StatusLine : Type := mkStatusLine {
  sl_outputPath : OutputPath;
  sl_status : OutputStatus;
  sl_index : option nat
}.

(** A call that starts a compiler or a postprocess command, with the
    arguments it is given. *)
Inductive Call : Type :=
| callElmMake (elmJsonPath : string) (mode : CompilationMode)
              (inputs : list string) (output : OutputPath)
| callPostprocess (elmToolingJsonPath : string) (mode : CompilationMode)
                  (output : OutputPath) (postprocessArray : list string).

(** The loop: the shared state, one task per [toCompile] entry, the status
    lines written so far and the calls made so far, oldest first. *)
Record Loop : Type := mkLoop {
  state : State;
  tasks : list Task;
  statusLines : list StatusLine;
  calls : list Call
}.

(** The callback of a dirty output before it calls the compiler:
    [outputState.status = { tag: "ElmMake" }], [outputState.dirty = false]
    and the status line. *)
Definition pickUp (entry : string * OutputPath * Ref) (l : Loop) : Loop :=
  let '(_, outputPath, r) := entry in
  match outputStates (state l) !! r with
  | None => l
  | Some o =>
      let o' := setDirty false (setStatus ElmMake o) in
      mkLoop (setOutputStates (state l) (<[r := o']> (outputStates (state l))))
             (tasks l)
             (statusLines l ++ [mkStatusLine outputPath ElmMake None])
             (calls l)
  end.

(** The call of [SpawnElm.make] that follows, up to the [await]. *)
Definition startElmMake (index : nat) (entry : string * OutputPath * Ref)
  (l : Loop) : Loop :=
  let '(elmJsonPath, outputPath, r) := entry in
  match outputStates (state l) !! r with
  | None => l
  | Some o =>
      mkLoop (state l) (<[index := AwaitElmMake]> (tasks l)) (statusLines l)
             (calls l ++ [callElmMake elmJsonPath (mode o) (inputs o)
                                      outputPath])
  end.

(** The callback from its start to its first [await]. *)
Definition enter (index : nat) (entry : string * OutputPath * Ref)
  (l : Loop) : Loop :=
  let '(_, _, r) := entry in
  match outputStates (state l) !! r with
  | None => l
  | Some o =>
      if negb (dirty o) then l
      else startElmMake index entry (pickUp entry l)
  end.

(** [toCompile.map(async ...)]: every callback runs up to its first [await],
    in array order. *)
Definition enterAll (l : Loop) : Loop :=
  fold_left (fun l' '(index, entry) => enter index entry l')
            (imap (fun index entry => (index, entry)) (toCompile (state l)))
            (mkLoop (state l)
                    (List.map (fun _ => Returned) (toCompile (state l)))
                    (statusLines l) (calls l)).

(** The callback from the first [await] (with the result of [elm make]) to
    the second one or to its end. *)
Definition afterElmMake (index : nat) (entry : string * OutputPath * Ref)
  (elmMakeResult : OutputStatus) (l : Loop) : Loop :=
  let '(_, outputPath, r) := entry in
  match outputStates (state l) !! r with
  | None => l
  | Some o =>
      if fullRestartRequested (state l) || dirty o then
        mkLoop (state l) (<[index := Returned]> (tasks l)) (statusLines l)
               (calls l)
      else
        match elmMakeResult, postprocess o with
        | Success, Some postprocessArray =>
            let o' := setStatus Postprocess o in
            mkLoop (setOutputStates (state l)
                      (<[r := o']> (outputStates (state l))))
                   (<[index := AwaitPostprocess]> (tasks l))
                   (statusLines l ++
                    [mkStatusLine outputPath Postprocess (Some index)])
                   (calls l ++
                    [callPostprocess (elmToolingJsonPath (state l)) (mode o)
                                     outputPath postprocessArray])
        | _, _ =>
            let o' := setStatus elmMakeResult o in
            mkLoop (setOutputStates (state l)
                      (<[r := o']> (outputStates (state l))))
                   (<[index := Returned]> (tasks l))
                   (statusLines l ++
                    [mkStatusLine outputPath elmMakeResult (Some index)])
                   (calls l)
        end
  end.

(** The callback from the second [await] (with the result of [postprocess])
    to its end: [outputState.status = await postprocess(...)] comes first,
    the test of [fullRestartRequested] and [dirty] after it. *)
Definition afterPostprocess (index : nat) (entry : string * OutputPath * Ref)
  (postprocessResult : OutputStatus) (l : Loop) : Loop :=
  let '(_, outputPath, r) := entry in
  match outputStates (state l) !! r with
  | None => l
  | Some o =>
      let o' := setStatus postprocessResult o in
      let st' := setOutputStates (state l)
                   (<[r := o']> (outputStates (state l))) in
      if fullRestartRequested (state l) || dirty o then
        mkLoop st' (<[index := Returned]> (tasks l)) (statusLines l) (calls l)
      else
        mkLoop st' (<[index := Returned]> (tasks l))
               (statusLines l ++
                [mkStatusLine outputPath postprocessResult (Some index)])
               (calls l)
  end.

(** What can happen while the loop runs: a compiler or a postprocess
    finishes, or somebody else (the watcher) marks an output as dirty or asks
    for a full restart. *)
Inductive Event : Type :=
| ElmMakeDone (index : nat) (elmMakeResult : OutputStatus)
| PostprocessDone (index : nat) (postprocessResult : OutputStatus)
| MarkedDirty (r : Ref)
| FullRestartRequested.

Definition markDirty (r : Ref) (st : State) : State :=
  setOutputStates st (alter (setDirty true) r (outputStates st)).

Definition requestFullRestart (st : State) : State :=
  mkState (elmToolingJsonPath st) (elmJsons st) (elmJsonsErrors st)
          (hasRunInstall st) true (outputStates st).

(** One event; [None] when the event cannot happen (no such task is
    waiting for it). *)
Definition step (l : Loop) (e : Event) : option Loop :=
  match e with
  | ElmMakeDone index result =>
      match tasks l !! index, toCompile (state l) !! index with
      | Some AwaitElmMake, Some entry => Some (afterElmMake index entry result l)
      | _, _ => None
      end
  | PostprocessDone index result =>
      match tasks l !! index, toCompile (state l) !! index with
      | Some AwaitPostprocess, Some entry =>
          Some (afterPostprocess index entry result l)
      | _, _ => None
      end
  | MarkedDirty r =>
      Some (mkLoop (markDirty r (state l)) (tasks l) (statusLines l)
                   (calls l))
  | FullRestartRequested =>
      Some (mkLoop (requestFullRestart (state l)) (tasks l) (statusLines l)
                   (calls l))
  end.

(** [Promise.all] has resolved: every callback has returned. *)
Definition allReturned (l : Loop) : bool :=
  forallb (fun t => bool_decide (t = Returned)) (tasks l).

(** The [while (someOutputIsDirty(state))] test, made at the start and each
    time a round has resolved: another round, or the end of the loop. *)
Inductive Continuation : Type :=
| NextRound (l : Loop)
| LoopDone (l : Loop).

Definition whileTest (l : Loop) : Continuation :=
  if someOutputIsDirty (state l) then NextRound (enterAll l) else LoopDone l.

(** The end of a round: nothing happens before every callback has
    returned; then the [while] test is made. *)
Definition afterRound (l : Loop) : option Continuation :=
  if allReturned l then Some (whileTest l) else None.

(** Several events in a row. *)
Fixpoint run (l : Loop) (events : list Event) : option Loop :=
  match events with
  | [] => Some l
  | e :: events' =>
      match step l e with
      | Some l' => run l' events'
      | None => None
      end
  end.

(** *** The report after the loop *)

(** The functions of [Errors] and [ElmMakeError] that [extractErrors]
    calls, and [bold] of [Helpers]. *)
Class ErrorsModule : Type := {
  elmJsonsErrorTemplate : OutputPath -> ElmJsonsError -> ErrorTemplate;
  stuckInProgressState : OutputPath -> string -> ErrorTemplate;
  statusErrorTemplate :
    string -> string -> OutputPath -> ErrorTag -> Payload -> ErrorTemplate;
  renderGeneralError : OutputPath -> string -> Payload -> ErrorTemplate;
  renderProblem : string -> Problem -> ErrorTemplate;
  bold : string -> string
}.

Context `{ErrorsModule}.

(** The templates of one output, by its status. *)
Definition statusErrors (st : State) (elmJsonPath : string)
  (outputPath : OutputPath) (s : OutputStatus) : list ErrorTemplate :=
  match s with
  | NotWrittenToDisk => []
  | ElmMake => [stuckInProgressState outputPath "elm make"]
  | Postprocess => [stuckInProgressState outputPath "postprocess"]
  | Success => []
  | Failed tag payload =>
      [statusErrorTemplate (elmToolingJsonPath st) elmJsonPath outputPath
                           tag payload]
  | ElmMakeError_GeneralError payload =>
      [renderGeneralError outputPath elmJsonPath payload]
  | ElmMakeError_CompileErrors errors =>
      flat_map
        (fun error => List.map (renderProblem (path error)) (problems error))
        errors
  end.

(** [extractErrors] *)
Definition extractErrors (st : State) : list ErrorTemplate :=
  List.map (fun '(outputPath, error) => elmJsonsErrorTemplate outputPath error)
           (elmJsonsErrors st)
  ++ flat_map
       (fun '(elmJsonPath, outputs) =>
          flat_map
            (fun '(outputPath, r) =>
               match outputStates st !! r with
               | Some o => statusErrors st elmJsonPath outputPath (status o)
               | None => []
               end)
            outputs)
       (elmJsons st).

(** The texts of the report: [Array.from(new Set(errors.map(template =>
    template(stderrColumns))))]. *)
Definition errorStrings (stderrColumns : Z) (errors : list ErrorTemplate)
  : list string :=
  Js.arrayFromSet (List.map (fun template => template stderrColumns) errors).

(** The last line of the report. *)
Definition errorsFoundLine (fancy : bool) (n : nat) : string :=
  ((if fancy then "🚨 " else "") ++ bold (Js.natToString n) ++ " error"
   ++ (if Nat.eqb n 1 then "" else "s") ++ " found")%string.

(** [compile] after the loop: the lines written with [logger.error] and the
    returned exit code. *)
Definition report (fancy : bool) (stderrColumns : Z) (st : State)
  : list string * Z :=
  if fullRestartRequested st then ([], 0%Z)
  else
    match extractErrors st with
    | [] => ([], 0%Z)
    | errors =>
        let texts := errorStrings stderrColumns errors in
        ([""; Js.join texts (String "010" (String "010" "")); "";
          errorsFoundLine fancy (length texts)],
         1%Z)
    end.

End WithPayloads.

Arguments OutputStatus : clear implicits.
Arguments OutputState : clear implicits.
Arguments CompileError : clear implicits.
Arguments State : clear implicits.
Arguments Loop : clear implicits.
Arguments StatusLine : clear implicits.
Arguments Event : clear implicits.
Arguments Continuation : clear implicits.
Arguments ErrorsModule : clear implicits.

(** *** The status line *)

(** The characters outside ASCII that the status line uses, as code units:
    U+2705, U+23F3, U+1F6A8 (a surrogate pair) and U+2026. *)
Definition checkMark : Js.Utf16 := [9989%N].
Definition hourglass : Js.Utf16 := [9203%N].
Definition policeLight : Js.Utf16 := [55357%N; 57000%N].
Definition ellipsis : Js.Utf16 := [8230%N].

(** The [truncate] closure of [statusLine]. *)
Definition truncate (maxWidth : Z) (fancy : bool) (string : Js.Utf16)
  : Js.Utf16 :=
  let length_ :=
    if fancy then (Z.of_nat (length string) + 1)%Z
    else Z.of_nat (length string) in
  if (length_ <=? maxWidth)%Z then string
  else if fancy then Js.slice0 (maxWidth - 2) string ++ ellipsis
  else Js.slice0 (maxWidth - 3) string ++ Js.utf16 "...".

(** The three kinds of status that [statusLine] tells apart: the tags
    [NotWrittenToDisk] and [Success]; [ElmMake]; [Postprocess]; and every
    other tag, [ElmJsonsErrors] among them. *)
Inductive StatusKind : Type :=
| kindSuccess
| kindElmMake
| kindPostprocess
| kindError.

(** [statusLine]; [output] is [outputPathToOriginalString(outputPath)]. *)
Definition statusLine (output : Js.Utf16) (kind : StatusKind) (maxWidth : Z)
  (fancy : bool) : Js.Utf16 :=
  match kind with
  | kindSuccess =>
      truncate maxWidth fancy
        (if fancy then checkMark ++ Js.utf16 " " ++ output
         else output ++ Js.utf16 ": success")
  | kindElmMake =>
      truncate maxWidth fancy
        ((if fancy then hourglass ++ Js.utf16 " " else [])
         ++ output ++ Js.utf16 ": elm make")
  | kindPostprocess =>
      truncate maxWidth fancy
        ((if fancy then hourglass ++ Js.utf16 " " else [])
         ++ output ++ Js.utf16 ": postprocess")
  | kindError =>
      truncate maxWidth fancy
        (if fancy then policeLight ++ Js.utf16 " " ++ output
         else output ++ Js.utf16 ": error")
  end.

(** The terminal columns of a status line as [truncate] counts them: one
    per code unit, and one more for the emoji of a fancy line. *)
Definition columns (fancy : bool) (line : Js.Utf16) : Z :=
  if fancy then (Z.of_nat (length line) + 1)%Z else Z.of_nat (length line).

(** *** Installing the dependencies *)

(** The result of [SpawnElm.install], by what [compile] does with it: the
    tags [ElmJsonError] and [Success], and the five tags that end
    [compile], each with the error template that the function of [Errors]
    of that name makes of it. *)
Inductive InstallResult : Type :=
| ElmJsonError
| InstallSuccess (elmInstallOutput : string)
| InstallFailed (error : ErrorTemplate).

(** What the first part of [compile] does to the outside. *)
Inductive InstallEffect : Type :=
| spawnElmInstall (elmJsonPath : string)
| loggerError (line : string)
| loggerErrorTemplate (error : ErrorTemplate)
| moveCursorUpAndClearLine.

Section Install.

Context {Payload Problem ElmJsonsError : Type}.

(** [fancy] and [isInteractive] of [compile]. For the [index]th
    [elm.json], [answer index] tells whether the timer of the loading
    message fired before [elm] answered, and what it answered. *)
Variables (fancy isInteractive : bool).
Variable answer : nat -> bool * InstallResult.

Definition dependenciesMessage (total index : nat) : string :=
  ("Dependencies"
   ++ if Nat.eqb index 0 then ""
      else " (" ++ Js.natToString (index + 1) ++ "/"
           ++ Js.natToString total ++ ")")%string.

(** The body of the [for] loop, from [index] on; [true] when [onError]
    ended [compile]. *)
Fixpoint installLoop (total index : nat) (elmJsonPaths : list string)
  : list InstallEffect * bool :=
  match elmJsonPaths with
  | [] => ([], false)
  | elmJsonPath :: rest =>
      let message := dependenciesMessage total index in
      let loadingMessage :=
        (if fancy then "⏳ " ++ message else message ++ ": in progress")
        %string in
      let '(didWriteLoadingMessage, result) := answer index in
      let started :=
        [spawnElmInstall elmJsonPath]
        ++ (if didWriteLoadingMessage then [loggerError loadingMessage]
            else []) in
      let clearLoadingMessage :=
        if didWriteLoadingMessage && isInteractive
        then [moveCursorUpAndClearLine] else [] in
      match result with
      | ElmJsonError =>
          let '(later, failed) := installLoop total (S index) rest in
          (started
           ++ (if didWriteLoadingMessage
               then clearLoadingMessage
                    ++ [loggerError
                          (if fancy then "⛔️ " ++ message
                           else message ++ ": skipped")%string]
               else [])
           ++ later,
           failed)
      | InstallSuccess elmInstallOutput =>
          let gotOutput := negb (String.eqb elmInstallOutput "") in
          let '(later, failed) := installLoop total (S index) rest in
          (started
           ++ (if didWriteLoadingMessage || gotOutput
               then clearLoadingMessage
                    ++ [loggerError
                          (if fancy then "✅ " ++ message
                           else message ++ ": success")%string]
               else [])
           ++ (if gotOutput then [loggerError elmInstallOutput] else [])
           ++ later,
           failed)
      | InstallFailed error =>
          (started ++ clearLoadingMessage
           ++ [loggerError
                 (if fancy then "🚨 " ++ message
                  else message ++ ": error")%string;
               loggerError "";
               loggerErrorTemplate error],
           true)
      end
  end.

(** [compile] up to the computation of [toCompile]: the state, what was
    done, and the exit code if [compile] returns here. *)
Definition installAll (st : State Payload Problem ElmJsonsError)
  : State Payload Problem ElmJsonsError * list InstallEffect * option Z :=
  if hasRunInstall st then (st, [], None)
  else
    let elmJsonPaths := List.map fst (elmJsons st) in
    let '(effects, failed) :=
      installLoop (length elmJsonPaths) 0 elmJsonPaths in
    if failed then (st, effects, Some 1%Z)
    else
      (mkState (elmToolingJsonPath st) (elmJsons st) (elmJsonsErrors st)
               true (fullRestartRequested st) (outputStates st),
       effects,
       if fullRestartRequested st then Some 0%Z else None).

End Install.



(** *** The whole of [compile] *)

Section CompileRun.

Context {Payload Problem ElmJsonsError : Type}.
Context `{!ErrorsModule Payload Problem ElmJsonsError}.

(** The [while] loop. Each element of [rounds] holds what happens during one
    round, in order; a round ends when every callback has returned. [None]
    when the loop is still waiting after these rounds (or an event cannot
    happen). *)
Fixpoint loopRounds (rounds : list (list (Event Payload Problem)))
  (l : Loop Payload Problem ElmJsonsError) {struct rounds}
  : option (Loop Payload Problem ElmJsonsError) :=
  match whileTest l with
  | LoopDone l' => Some l'
  | NextRound entered =>
      match rounds with
      | [] => None
      | events :: rest =>
          match run entered events with
          | Some l' => if allReturned l' then loopRounds rest l' else None
          | None => None
          end
      end
  end.

(** What a run of [compile] leaves: the state, what the installation did,
    the outputs for which an [ElmJsonsErrors] status line was written, the
    status lines and calls of the loop, the lines of the error report and
    the returned exit code. *)
Record CompileResult : Type := mkCompileResult {
  finalState : State Payload Problem ElmJsonsError;
  installEffects : list InstallEffect;
  elmJsonsErrorsLines : list OutputPath;
  loopStatusLines : list (StatusLine Payload Problem);
  callsMade : list Call;
  errorLines : list string;
  exitCode : Z
}.

(** [compile]; [None] when it does not return with these rounds. *)
Definition compile (fancy isInteractive : bool) (stderrColumns : Z)
  (answer : nat -> bool * InstallResult)
  (rounds : list (list (Event Payload Problem)))
  (st : State Payload Problem ElmJsonsError) : option CompileResult :=
  let '(st1, effects, returned) := installAll fancy isInteractive answer st in
  match returned with
  | Some code => Some (mkCompileResult st1 effects [] [] [] [] code)
  | None =>
      match
        loopRounds rounds
          (mkLoop st1 (List.map (fun _ => Returned) (toCompile st1)) [] [])
      with
      | None => None
      | Some l =>
          let '(lines, code) := report fancy stderrColumns (state l) in
          Some (mkCompileResult (state l) effects
                  (List.map fst (elmJsonsErrors st1)) (statusLines l)
                  (calls l) lines code)
      end
  end.

(** The installation of the dependencies ended [compile]. *)
Definition installFailed (fancy isInteractive : bool)
  (answer : nat -> bool * InstallResult)
  (st : State Payload Problem ElmJsonsError) : bool :=
  let elmJsonPaths := List.map fst (elmJsons st) in
  negb (hasRunInstall st)
  && (installLoop fancy isInteractive answer
        (length elmJsonPaths) 0 elmJsonPaths).2.

End CompileRun.

Arguments CompileResult : clear implicits.

(** A project with one output that has a postprocess command, dirty as
    every output is when [compile] starts. *)
Definition mainJs : OutputPath :=
  OutputPath_ (mkAbsolutePath "/project/build/main.js") "build/main.js".

Definition oneOutput : State unit unit unit :=
  mkState "/project/elm-tooling.json"
    [("/project/elm.json", [(mainJs, 1)])] [] true false
    (<[1 := mkOutputState ["src/Main.elm"] standard
                  (Some ["elm-watch-node"; "postprocess.js"]) true
                  NotWrittenToDisk]> ∅).

Definition beforeLoop : Loop unit unit unit :=
  mkLoop oneOutput [Returned] [] [].

(** Stand-ins for the functions of [Errors] and [ElmMakeError], with
    texts as problems. *)
#[global] Instance exampleErrors : ErrorsModule unit string unit := {|
  elmJsonsErrorTemplate := fun _ _ _ => "elm.json error";
  stuckInProgressState := fun _ what _ => ("stuck in " ++ what)%string;
  statusErrorTemplate := fun _ _ _ _ _ _ => "status error";
  renderGeneralError := fun _ _ _ _ => "general error";
  renderProblem := fun path problem _ => (path ++ ": " ++ problem)%string;
  bold := fun s => s
|}.

(** A project with two outputs made of the same module, dirty as every
    output is when [compile] starts. *)
Definition secondJs : OutputPath :=
  OutputPath_ (mkAbsolutePath "/project/build/second.js") "build/second.js".

Definition twoOutputs : State unit string unit :=
  mkState "/project/elm-tooling.json"
    [("/project/elm.json", [(mainJs, 1); (secondJs, 2)])] [] true false
    (<[2 := mkOutputState ["src/Main.elm"] standard None true
                  NotWrittenToDisk]>
       (<[1 := mkOutputState ["src/Main.elm"] standard None true
                     NotWrittenToDisk]> ∅)).

(** The same project before its dependencies were installed. *)
Definition notInstalled : State unit string unit :=
  mkState (elmToolingJsonPath twoOutputs) (elmJsons twoOutputs)
          (elmJsonsErrors twoOutputs) false false (outputStates twoOutputs).

End Compile.

(** ** The first compile engine: compile everything once and summarize
       (src/Compile.ts, the version with [summarize]) *)

Module CompileSummary.
Import Types.

Section WithImports.

(** A problem of a compile error is declared in ElmMakeError.ts, which is
    not among the sources; so are [ElmMakeError.renderProblem] and
    [outputPathToString] (types.ts of this version). *)
Context {Problem : Type}.
Variable renderProblem : string -> Problem -> string.
Variable outputPathToString : OutputPath -> string.

Record CompileError : Type := mkCompileError {
  path : string;
  problems : list Problem
}.

(** [outputState.status], by the tags [summarize] tells apart. *)
Inductive OutputStatus : Type :=
| NotWrittenToDisk
| Success
| ElmNotFoundError
| OtherSpawnError
| UnexpectedOutput
| JsonParseError
| DecodeError
| ElmMakeError_GeneralError
| ElmMakeError_CompileErrors (errors : list CompileError).

Record OutputState : Type := mkOutputState {
  mode : CompilationMode;
  inputs : list string;
  status : OutputStatus
}.

(** [State]: of an error of [elmJsonsErrors] only the output path is read. *)
Record State : Type := mkState {
  elmJsonsErrors : list OutputPath;
  elmJsons : list (string * list (OutputPath * OutputState))
}.

Record Summary : Type := mkSummary {
  succeeded : list OutputPath;
  failed : list OutputPath;
  messages : list string;
  compileErrors : list string
}.

Definition fail (outputPath : OutputPath) (summary : Summary) : Summary :=
  mkSummary (succeeded summary) (failed summary ++ [outputPath])
            (messages summary ++ ["TODO"]) (compileErrors summary).

(** The body of the inner loop of [summarize]. *)
Definition summarizeOutput (summary : Summary)
  (output : OutputPath * OutputState) : Summary :=
  let '(outputPath, outputState) := output in
  match status outputState with
  | NotWrittenToDisk => summary
  | Success =>
      mkSummary (succeeded summary ++ [outputPath]) (failed summary)
                (messages summary) (compileErrors summary)
  | ElmNotFoundError | OtherSpawnError | UnexpectedOutput | JsonParseError
  | DecodeError | ElmMakeError_GeneralError => fail outputPath summary
  | ElmMakeError_CompileErrors errors =>
      mkSummary (succeeded summary) (failed summary ++ [outputPath])
                (messages summary)
                (fold_left
                   (fun set error =>
                      fold_left
                        (fun set problem =>
                           Js.setAdd set (renderProblem (path error) problem))
                        (problems error) set)
                   errors (compileErrors summary))
  end.

(** [summarize] *)
Definition summarize (state : State) : Summary :=
  fold_left
    (fun summary '(_, outputs) => fold_left summarizeOutput outputs summary)
    (elmJsons state)
    (fold_left (fun summary outputPath => fail outputPath summary)
               (elmJsonsErrors state) (mkSummary [] [] [] [])).

(** [printOutputPaths] *)
Definition printOutputPaths (label : string) (paths : list OutputPath)
  : list string :=
  match paths with
  | [] => []
  | _ => label :: List.map outputPathToString paths
  end.

(** [run]: [make] is what [SpawnElm.make] resolves to for an output. Every
    status is assigned before [summarize] reads any. The result is the
    state, the text given to [logger.log] and the exit code. *)
Definition run
  (make : string -> OutputPath -> OutputState -> OutputStatus)
  (state : State) : State * string * Z :=
  let state' :=
    mkState (elmJsonsErrors state)
      (List.map
         (fun '(elmJsonPath, outputs) =>
            (elmJsonPath,
             List.map
               (fun '(outputPath, outputState) =>
                  (outputPath,
                   mkOutputState (mode outputState) (inputs outputState)
                     (make elmJsonPath outputPath outputState)))
               outputs))
         (elmJsons state)) in
  let summary := summarize state' in
  (state',
   Js.join
     (messages summary ++ compileErrors summary
      ++ printOutputPaths "Succeeded:" (succeeded summary)
      ++ printOutputPaths "Failed:" (failed summary))
     (String "010" (String "010" (String "010" ""))),
   match failed summary with
   | [] => 0%Z
   | _ => 1%Z
   end).

(** What the compiler answers for the outputs of a state, in the order of
    the two loops. *)
Definition answersOf
  (make : string -> OutputPath -> OutputState -> OutputStatus)
  (state : State) : list (OutputPath * OutputStatus) :=
  flat_map
    (fun '(elmJsonPath, outputs) =>
       List.map
         (fun '(outputPath, outputState) =>
            (outputPath, make elmJsonPath outputPath outputState))
         outputs)
    (elmJsons state).

(** The outputs of a state, in the order of the two loops. *)
Definition outputsOf (state : State) : list (OutputPath * OutputState) :=
  flat_map snd (elmJsons state).

Definition isSuccess (output : OutputPath * OutputState) : bool :=
  match status output.2 with
  | Success => true
  | _ => false
  end.

Definition isFailed (output : OutputPath * OutputState) : bool :=
  match status output.2 with
  | NotWrittenToDisk | Success => false
  | _ => true
  end.

Definition hasCompileErrors (output : OutputPath * OutputState) : bool :=
  match status output.2 with
  | ElmMakeError_CompileErrors _ => true
  | _ => false
  end.

End WithImports.

End CompileSummary.
(** ** The hot orchestrator (Hot.ts) *)

Module Hot.
Import Types.

(** *** Data *)

(** A [Date], as the number [getTime()] returns. *)
Definition Date : Type := Z.
Bind Scope Z_scope with Date.

(** A [WebSocket] object; two are compared with [===]. *)
Definition WebSocket : Type := nat.

Inductive WatcherEventName : Type := added | changed | removed.

Record WatcherEvent : Type := mkWatcherEvent {
  we_date : Date;
  we_eventName : WatcherEventName;
  we_file : AbsolutePath
}.

Record WebSocketConnectedEvent : Type := mkWebSocketConnectedEvent {
  wc_date : Date;
  wc_outputPath : OutputPath
}.

(** [WatcherEvent | WebSocketConnectedEvent] *)
Inductive AnyEvent : Type :=
| ofWatcher (event : WatcherEvent)
| ofWebSocketConnected (event : WebSocketConnectedEvent).

(** [WebSocketToClientMessage]: the only message is [StatusChanged]. *)
Inductive ClientStatus : Type :=
| SuccessfullyCompiled
| Busy
| CompileError
| ClientError (message : string).

Inductive WebSocketToClientMessage : Type :=
| StatusChanged (status : ClientStatus).

(** [WebSocketToServerMessage] *)
Inductive WebSocketToServerMessage : Type :=
| ChangeCompilationMode (compilationMode : CompilationMode).

(** [WebSocket.Data]: a text frame, or one of the binary forms. *)
Inductive Data : Type :=
| text (data : string)
| binary.

(** The decoded query of a connect URL. *)
Record WebSocketConnectedParams : Type := mkParams {
  elmWatchVersion : string;
  output : string;
  compiledTimestamp : Z
}.

(** An [OutputState] object is shared by the project, by [MarkAsDirty]
    commands and by the results of URL parsing: it is named by a reference
    into the project's store. *)
Definition OutputRef : Type := nat.

(** [{ outputPath, outputState }] *)
Record FlatOutput : Type := mkFlatOutput {
  fo_outputPath : OutputPath;
  fo_outputState : OutputRef
}.

Inductive OutputPathOrError : Type :=
| aPath (outputPath : OutputPath)
| OutputPathError.

Record WebSocketConnection : Type := mkConnection {
  webSocket : WebSocket;
  c_outputPath : OutputPathOrError;
  priority : Z
}.

Inductive InstallDependenciesResult : Type :=
| InstallError
| InstallSuccess.

Inductive CompileMode : Type :=
| AfterIdle
| AfterInstallDependencies
| ContinueCompilation.

(** The text of an [Error]. *)
Definition Error : Type := string.

(** [Compile.ErrorTemplate] *)
Definition ErrorTemplate : Type := Z -> string.

Section WithImports.

(** Types declared in modules that are not among the sources: input paths
    (Types.ts), the error statuses of an output and the actions computed by
    [Compile.getOutputActions] (Compile.ts, Project.ts), decoder errors
    (tiny-decoders). *)
Context {InputPath OutputError OutputAction DecoderError : Type}.

(** [UncheckedInputPath]: [hot] reads its [theUncheckedInputPath]. *)
Record UncheckedInputPath : Type := mkUnchecked {
  theUncheckedInputPath : AbsolutePath
}.

(** The errors of [project.elmJsonsErrors], with the fields [hot] reads. *)
Inductive ElmJsonsError : Type :=
| DuplicateInputs (duplicates : list (list InputPath * AbsolutePath))
| ElmJsonNotFound (elmJsonNotFound : list InputPath)
                  (foundElmJsonPaths : list InputPath)
| InputsFailedToResolve (inputsFailedToResolve : list UncheckedInputPath)
| InputsNotFound (inputsNotFound : list UncheckedInputPath)
| NonUniqueElmJsonPaths (nonUniqueElmJsonPaths : list InputPath).

(** [OutputState["status"]], by the tags [hot] distinguishes; every other
    tag is an error status. *)
Inductive OutputStatus : Type :=
| Success (compiledTimestamp : Z)
| NotWrittenToDisk
| ElmMakeTypecheckOnly
| ElmMake
| Postprocess
| Interrupted
| QueuedForElmMake
| QueuedForPostprocess
| anError (error : OutputError).

Record OutputState : Type := mkOutputState {
  inputs : list InputPath;
  compilationMode : CompilationMode;
  allRelatedElmFilePaths : gset string;
  dirty : bool;
  status : OutputStatus
}.

(** [Project]. The two hash maps of [elmJsons] are kept as lists in
    iteration order; [outputStates] is the store of the [OutputState]
    objects. *)
Record Project : Type := mkProject {
  watchRoot : AbsolutePath;
  elmToolingJsonPath : AbsolutePath;
  elmWatchJsonPath : AbsolutePath;
  disabledOutputs : list OutputPath;
  elmJsonsErrors : list (OutputPath * ElmJsonsError);
  elmJsons : list (AbsolutePath * list (OutputPath * OutputRef));
  outputStates : gmap OutputRef OutputState
}.

Inductive Msg : Type :=
| WebSocketClosed (webSocket : WebSocket)
| WebSocketConnected (date : Date) (webSocket : WebSocket)
                     (urlString : string)
| WebSocketMessageReceived (webSocket : WebSocket) (data : Data)
| CompilationPartDone (date : Date)
                      (prioritizedOutputs : list (OutputPath * Z))
| GotWatcherEvent (date : Date) (eventName : WatcherEventName)
                  (absolutePathString : string)
| InstallDependenciesDone (installResult : InstallDependenciesResult)
| SleepBeforeNextActionDone (date : Date).

Inductive NextAction : Type :=
| Compile (events : list AnyEvent)
| NoAction
| PrintNonInterestingEvents (events : list WatcherEvent)
| Restart (eventsWithMessages : list (WatcherEvent * string)).

Inductive HotState : Type :=
| Compiling (start : Date) (events : list AnyEvent)
| Dependencies (start : Date) (events : list AnyEvent)
| Idle
| Restarting (events : list AnyEvent).

Record Model : Type := mkModel {
  nextAction : NextAction;
  hotState : HotState
}.

Inductive Cmd : Type :=
| cmdChangeCompilationMode (webSocket : WebSocket)
                           (compilationMode : CompilationMode)
| cmdClearScreen
| cmdCompileAllOutputsAsNeeded (mode : CompileMode) (includeInterrupted : bool)
| cmdHandleElmWatchJsonWriteError
| cmdInstallDependencies
| cmdLogInfoMessageWithTimeline (message : string) (events : list AnyEvent)
| cmdMarkAsDirty (outputs : list FlatOutput)
| cmdNoCmd
| cmdPrintCompileErrors (errors : list ErrorTemplate)
| cmdRestart (restartReasons : list AnyEvent)
| cmdRunOnIdle
| cmdSleepBeforeNextAction
| cmdThrow (error : Error)
| cmdWebSocketAdd (webSocketConnection : WebSocketConnection)
| cmdWebSocketRemove (webSocket : WebSocket)
| cmdWebSocketSend (webSocket : WebSocket) (message : WebSocketToClientMessage)
| cmdWebSocketSendToOutput (outputPath : OutputPath)
                           (message : WebSocketToClientMessage).

(** The result of [Compile.getOutputActions]. *)
Record OutputActions : Type := mkOutputActions {
  actions : list OutputAction;
  total : nat;
  numExecuting : nat;
  numInterrupted : nat
}.

(** What [hot] imports from modules that are not among the sources, and
    from libraries. *)
Class Imports : Type := {
  (* Types.ts *)
  equalsInputPath : AbsolutePath -> InputPath -> bool;
  nullOutputName : string;
  (* Compile.ts *)
  getOutputActions :
    Project -> bool -> list (OutputPath * Z) -> OutputActions;
  extractErrors : Project -> list ErrorTemplate;
  (* Errors.ts *)
  webSocketBadUrl : string -> string -> string;
  webSocketParamsDecodeError : DecoderError -> string -> string;
  webSocketWrongVersion : string -> string -> string;
  webSocketOutputNotFound :
    string -> list OutputPath -> list OutputPath -> string;
  webSocketOutputDisabled :
    string -> list OutputPath -> list OutputPath -> string;
  webSocketUnsupportedDataType : string;
  webSocketDecodeError : DecoderError -> string;
  elmWatchJsonWriteError : AbsolutePath -> Error -> ErrorTemplate;
  (* Helpers.ts *)
  bold : string -> string;
  dim : string -> string;
  formatTime : Date -> string;
  (* Number.prototype.toString *)
  numberToString : Z -> string;
  (* path.basename of Node, which is that of the platform *)
  path_basename : string -> string;
  (* URLSearchParams, Object.fromEntries and the tiny-decoders decoder
     [WebSocketConnectedParams], applied to the query text *)
  decodeWebSocketConnectedParams :
    string -> DecoderError + WebSocketConnectedParams;
  (* JSON.parse and the tiny-decoders decoder [WebSocketToServerMessage] *)
  decodeWebSocketToServerMessage :
    string -> DecoderError + WebSocketToServerMessage
}.

Context `{Imports}.

(** *** Helpers of Types.ts and Project.ts *)

(** Modelled from the spec: [outputPathToOriginalString] (Types.ts) is not
    among the sources. An output path is "either a real absolute file path
    with an original user-written form, or a null sink"; the function gives
    the user-written form, and for the null sink a fixed name. *)
Definition outputPathToOriginalString (outputPath : OutputPath) : string :=
  match outputPath with
  | OutputPath_ _ originalString => originalString
  | NullOutputPath => nullOutputName
  end.

(** Modelled from the spec: [getFlatOutputs] (Project.ts) is not among the
    sources. The project holds "an ordered mapping from each
    project-manifest path to a mapping from OutputPath to OutputState"; the
    flat outputs are its outputs in that order. *)
Definition getFlatOutputs (project : Project) : list FlatOutput :=
  flat_map
    (fun '(_, outputs) =>
       List.map (fun '(outputPath, r) => mkFlatOutput outputPath r) outputs)
    (elmJsons project).

(** *** Messages to the user *)

Definition eventNameText (eventName : WatcherEventName) : string :=
  match eventName with
  | added => "added"
  | changed => "changed"
  | removed => "removed"
  end.

Definition restartBecauseJsonFileChangedMessage (changedFile : string)
  (eventName : WatcherEventName) : string :=
  ("An " ++ bold changedFile ++ " file " ++ eventNameText eventName ++ ".")
  %string.

Definition restartBecauseRelatedToElmJsonsErrorsMessage
  (eventName : WatcherEventName) : string :=
  ("A problematic input Elm file was " ++ eventNameText eventName ++ ".")
  %string.

Definition restartBecauseInputWasRemovedMessage : string :=
  "An input Elm file was removed.".

Definition newline : string := String "010" "".

Definition restartingMessage (events : list (WatcherEvent * string))
  : string :=
  Js.join (Js.arrayFromSet (List.map snd events) ++ ["Restarting!"]) newline.

Definition compileFinishedMessage (duration : Z) : string :=
  ("Compilation finished in " ++ bold (numberToString duration) ++ " ms.")
  %string.

Definition notInterestingElmFileChangedMessage (events : list WatcherEvent)
  (disabled : list OutputPath) : string :=
  let what1 := if Nat.eqb (length events) 1 then "file is" else "files are" in
  let what2 := if Nat.ltb 0 (length disabled)
               then "any of the enabled outputs" else "any output" in
  ("FYI: The above Elm " ++ what1 ++ " not imported by " ++ what2
   ++ ". Nothing to do!")%string.

(** *** Watcher events *)

Definition makeWatcherEvent (eventName : WatcherEventName)
  (absolutePathString : string) (date : Date) : WatcherEvent :=
  mkWatcherEvent date eventName (mkAbsolutePath absolutePathString).

Definition makeRestartNextAction (message : string) (event : WatcherEvent)
  (nextAction : NextAction) (project : Project) : NextAction * list Cmd :=
  (Restart
     match nextAction with
     | Restart eventsWithMessages => eventsWithMessages ++ [(event, message)]
     | _ => [(event, message)]
     end,
   [cmdMarkAsDirty (getFlatOutputs project)]).

Definition samePath (a b : AbsolutePath) : bool :=
  String.eqb (absolutePath a) (absolutePath b).

Definition isRelatedToElmJsonsErrors (elmFile : AbsolutePath)
  (errors : list (OutputPath * ElmJsonsError)) : bool :=
  existsb
    (fun '(_, error) =>
       match error with
       | DuplicateInputs duplicates =>
           existsb
             (fun '(inputs, resolved) =>
                samePath resolved elmFile
                || existsb (equalsInputPath elmFile) inputs)
             duplicates
       | ElmJsonNotFound elmJsonNotFound foundElmJsonPaths =>
           existsb (equalsInputPath elmFile) elmJsonNotFound
           || existsb (equalsInputPath elmFile) foundElmJsonPaths
       | InputsFailedToResolve inputsFailedToResolve =>
           existsb (fun i => samePath (theUncheckedInputPath i) elmFile)
                   inputsFailedToResolve
       | InputsNotFound inputsNotFound =>
           existsb (fun i => samePath (theUncheckedInputPath i) elmFile)
                   inputsNotFound
       | NonUniqueElmJsonPaths nonUniqueElmJsonPaths =>
           existsb (equalsInputPath elmFile) nonUniqueElmJsonPaths
       end)
    errors.

(** The two nested [for] loops of [onElmFileWatcherEvent]: either a removed
    file is an input of some output ([None]: the function returns from inside
    the loop), or the loop ends with the array [dirtyOutputs]. An output
    whose state object is missing from the store has no inputs and no
    related files. *)
Fixpoint collectDirtyOutputs (project : Project) (event : WatcherEvent)
  (flat : list FlatOutput) (dirtyOutputs : list FlatOutput)
  : option (list FlatOutput) :=
  match flat with
  | [] => Some dirtyOutputs
  | fo :: flat' =>
      let '(ins, related) :=
        match outputStates project !! fo_outputState fo with
        | Some o => (inputs o, allRelatedElmFilePaths o)
        | None => ([], ∅)
        end in
      if match we_eventName event with
         | removed => existsb (equalsInputPath (we_file event)) ins
         | _ => false
         end
      then None
      else
        collectDirtyOutputs project event flat'
          (if bool_decide (absolutePath (we_file event) ∈ related)
           then dirtyOutputs ++ [fo] else dirtyOutputs)
  end.

Definition onElmFileWatcherEvent (project : Project) (event : WatcherEvent)
  (nextAction : NextAction) : option (NextAction * list Cmd) :=
  if isRelatedToElmJsonsErrors (we_file event) (elmJsonsErrors project) then
    Some (makeRestartNextAction
            (restartBecauseRelatedToElmJsonsErrorsMessage (we_eventName event))
            event nextAction project)
  else
    match collectDirtyOutputs project event (getFlatOutputs project) [] with
    | None =>
        Some (makeRestartNextAction restartBecauseInputWasRemovedMessage
                event nextAction project)
    | Some ((_ :: _) as dirtyOutputs) =>
        let cmd := cmdMarkAsDirty dirtyOutputs in
        match nextAction with
        | Restart _ => Some (nextAction, [cmd])
        | Compile events => Some (Compile (events ++ [ofWatcher event]), [cmd])
        | NoAction | PrintNonInterestingEvents _ =>
            Some (Compile [ofWatcher event], [cmd])
        end
    | Some [] =>
        match nextAction with
        | Restart _ | Compile _ => Some (nextAction, [])
        | NoAction => Some (PrintNonInterestingEvents [event], [])
        | PrintNonInterestingEvents events =>
            Some (PrintNonInterestingEvents (events ++ [event]), [])
        end
    end.

(** [onWatcherEvent]; [None] is [undefined]. *)
Definition onWatcherEvent (now : Date) (project : Project)
  (eventName : WatcherEventName) (absolutePathString : string)
  (nextAction : NextAction) : option (NextAction * list Cmd) :=
  if Js.endsWith absolutePathString ".elm" then
    onElmFileWatcherEvent project
      (makeWatcherEvent eventName absolutePathString now) nextAction
  else
    let basename := path_basename absolutePathString in
    if String.eqb basename "elm-tooling.json" then
      match eventName with
      | added =>
          Some (makeRestartNextAction
                  (restartBecauseJsonFileChangedMessage basename eventName)
                  (makeWatcherEvent eventName absolutePathString now)
                  nextAction project)
      | changed | removed =>
          if String.eqb absolutePathString
               (absolutePath (elmToolingJsonPath project))
          then
            Some (makeRestartNextAction
                    (restartBecauseJsonFileChangedMessage basename eventName)
                    (makeWatcherEvent eventName absolutePathString now)
                    nextAction project)
          else None
      end
    else if String.eqb basename "elm.json" then
      match eventName with
      | added =>
          Some (makeRestartNextAction
                  (restartBecauseJsonFileChangedMessage basename eventName)
                  (makeWatcherEvent eventName absolutePathString now)
                  nextAction project)
      | changed | removed =>
          if existsb
               (fun '(elmJsonPath, _) =>
                  String.eqb absolutePathString (absolutePath elmJsonPath))
               (elmJsons project)
          then
            Some (makeRestartNextAction
                    (restartBecauseJsonFileChangedMessage basename eventName)
                    (makeWatcherEvent eventName absolutePathString now)
                    nextAction project)
          else None
      end
    else None.

(** *** The next action *)

Definition runCompile (model : Model) (events : list AnyEvent) (start : Date)
  : Model * list Cmd :=
  match hotState model with
  | Idle =>
      (mkModel (nextAction model) (Compiling start events),
       [cmdCompileAllOutputsAsNeeded AfterIdle true])
  | Compiling start0 events0 =>
      (mkModel (nextAction model) (Compiling start0 (events0 ++ events)),
       [cmdCompileAllOutputsAsNeeded ContinueCompilation true])
  | Dependencies start0 events0 =>
      (mkModel (nextAction model) (Dependencies start0 (events0 ++ events)),
       [])
  | Restarting _ => (model, [])
  end.

Definition runNextAction (start : Date) (project : Project) (model : Model)
  : Model * list Cmd :=
  match nextAction model with
  | NoAction => (model, [])
  | Restart eventsWithMessages =>
      let events := List.map (fun em => ofWatcher (fst em)) eventsWithMessages in
      match hotState model with
      | Idle =>
          (mkModel (nextAction model) (Restarting events),
           [cmdClearScreen; cmdRestart events])
      | Dependencies _ _ | Compiling _ _ =>
          (mkModel (nextAction model) (Restarting events),
           [cmdClearScreen;
            cmdLogInfoMessageWithTimeline (restartingMessage eventsWithMessages)
                                          events])
      | Restarting _ => (model, [])
      end
  | Compile events => runCompile model events start
  | PrintNonInterestingEvents events =>
      match hotState model with
      | Idle =>
          (model,
           [cmdLogInfoMessageWithTimeline
              (notInterestingElmFileChangedMessage events
                 (disabledOutputs project))
              (List.map ofWatcher events);
            cmdRunOnIdle])
      | Compiling _ _ | Dependencies _ _ | Restarting _ => (model, [])
      end
  end.

(** *** WebSocket connections *)

Inductive ParseWebSocketConnectRequestUrlResult : Type :=
| BadUrl (expectedStart actualUrlString : string)
| OutputDisabled (output : string)
                 (enabledOutputs disabledOutputs : list OutputPath)
| OutputNotFound (output : string)
                 (enabledOutputs disabledOutputs : list OutputPath)
| ParamsDecodeError (error : DecoderError) (actualUrlString : string)
| WrongVersion (expectedVersion actualVersion : string)
| ParseSuccess (outputPath : OutputPath) (outputState : OutputRef)
               (compiledTimestamp : Z).

(** The version token as it stands in the source; the build replaces it. *)
Definition VERSION : string := "%VERSION%".

Definition parseWebSocketConnectRequestUrl (project : Project)
  (urlString : string) : ParseWebSocketConnectRequestUrlResult :=
  if negb (Js.startsWith urlString "/?") then BadUrl "/?" urlString
  else
    match decodeWebSocketConnectedParams (Js.sliceFrom 2 urlString) with
    | inl error => ParamsDecodeError error urlString
    | inr webSocketConnectedParams =>
        if negb (String.eqb (elmWatchVersion webSocketConnectedParams) VERSION)
        then WrongVersion VERSION (elmWatchVersion webSocketConnectedParams)
        else
          let flatOutputs := getFlatOutputs project in
          let output := output webSocketConnectedParams in
          match
            List.find
              (fun fo =>
                 String.eqb (outputPathToOriginalString (fo_outputPath fo))
                            output)
              flatOutputs
          with
          | None =>
              let enabledOutputs := List.map fo_outputPath flatOutputs in
              let disabledOutputs := disabledOutputs project in
              match
                List.find
                  (fun outputPath =>
                     String.eqb (outputPathToOriginalString outputPath) output)
                  disabledOutputs
              with
              | None => OutputNotFound output enabledOutputs disabledOutputs
              | Some _ => OutputDisabled output enabledOutputs disabledOutputs
              end
          | Some match_ =>
              ParseSuccess (fo_outputPath match_) (fo_outputState match_)
                           (compiledTimestamp webSocketConnectedParams)
          end
    end.

Inductive ParseWebSocketToServerMessageResult : Type :=
| DecodeError (error : DecoderError)
| UnsupportedDataType
| MessageSuccess (message : WebSocketToServerMessage).

Definition parseWebSocketToServerMessage (data : Data)
  : ParseWebSocketToServerMessageResult :=
  match data with
  | binary => UnsupportedDataType
  | text s =>
      match decodeWebSocketToServerMessage s with
      | inr message => MessageSuccess message
      | inl error => DecodeError error
      end
  end.

Definition sendToOutput (outputPath : OutputPath) (status : ClientStatus)
  : Cmd :=
  cmdWebSocketSendToOutput outputPath (StatusChanged status).

Definition onWebSocketConnectedRecompileNeeded
  (event : WebSocketConnectedEvent) (model : Model) (outputPath : OutputPath)
  (outputState : OutputRef) : Model * list Cmd :=
  match nextAction model with
  | Restart _ => (model, [sendToOutput outputPath Busy])
  | Compile events =>
      (mkModel (Compile (events ++ [ofWebSocketConnected event]))
               (hotState model),
       [cmdMarkAsDirty [mkFlatOutput outputPath outputState]])
  | NoAction | PrintNonInterestingEvents _ =>
      (mkModel (Compile [ofWebSocketConnected event]) (hotState model),
       [cmdMarkAsDirty [mkFlatOutput outputPath outputState]])
  end.

(** [onWebSocketConnected]; it reads [outputState.status], here [status]. *)
Definition onWebSocketConnected (now : Date) (model : Model)
  (outputPath : OutputPath) (outputState : OutputRef) (status : OutputStatus)
  (compiledTimestamp : Z) : Model * list Cmd :=
  let event := mkWebSocketConnectedEvent now outputPath in
  match hotState model with
  | Restarting _ => (model, [sendToOutput outputPath Busy])
  | Dependencies start events =>
      (mkModel (nextAction model)
               (Dependencies start (events ++ [ofWebSocketConnected event])),
       [sendToOutput outputPath Busy])
  | Idle | Compiling _ _ =>
      match status with
      | Success compiled =>
          if Z.eqb compiled compiledTimestamp
          then (model, [sendToOutput outputPath SuccessfullyCompiled])
          else onWebSocketConnectedRecompileNeeded event model outputPath
                 outputState
      | NotWrittenToDisk | ElmMakeTypecheckOnly =>
          onWebSocketConnectedRecompileNeeded event model outputPath
            outputState
      | ElmMake | Postprocess | Interrupted | QueuedForElmMake
      | QueuedForPostprocess =>
          match hotState model with
          | Compiling start events =>
              (mkModel (nextAction model)
                 (Compiling start (events ++ [ofWebSocketConnected event])),
               [sendToOutput outputPath Busy])
          | _ =>
              onWebSocketConnectedRecompileNeeded event model outputPath
                outputState
          end
      | anError _ => (model, [sendToOutput outputPath CompileError])
      end
  end.

Definition onWebSocketToServerMessage (model : Model) (webSocket : WebSocket)
  (message : WebSocketToServerMessage) : Model * list Cmd :=
  match message with
  | ChangeCompilationMode compilationMode =>
      (model, [cmdChangeCompilationMode webSocket compilationMode])
  end.

(** *** [update]

    [update(project)] closes over the project object, whose output states
    change while the program runs: [update] is given the project as it is
    when the message is handled. Where it reads [outputState.status] through
    a reference that names no object of the store (which JavaScript cannot
    express) it adds no command of its own. *)

Definition hotStateTag (hotState : HotState) : string :=
  match hotState with
  | Compiling _ _ => "Compiling"
  | Dependencies _ _ => "Dependencies"
  | Idle => "Idle"
  | Restarting _ => "Restarting"
  end.

(** The [onError] closure of the [WebSocketConnected] case. *)
Definition onConnectError (model : Model) (date : Date) (webSocket : WebSocket)
  (errorMessage : string) : Model * list Cmd :=
  (model,
   [cmdWebSocketAdd (mkConnection webSocket OutputPathError date);
    cmdWebSocketSend webSocket (StatusChanged (ClientError errorMessage))]).

(** The [onError] closure of the [WebSocketMessageReceived] case. *)
Definition onMessageError (model : Model) (webSocket : WebSocket)
  (errorMessage : string) : Model * list Cmd :=
  (model,
   [cmdWebSocketSend webSocket (StatusChanged (ClientError errorMessage))]).

(** The text sent to the client for each failed parse of a connect URL. *)
Definition connectErrorMessage
  (result : ParseWebSocketConnectRequestUrlResult) : option string :=
  match result with
  | ParseSuccess _ _ _ => None
  | BadUrl expectedStart actualUrlString =>
      Some (webSocketBadUrl expectedStart actualUrlString)
  | ParamsDecodeError error actualUrlString =>
      Some (webSocketParamsDecodeError error actualUrlString)
  | WrongVersion expectedVersion actualVersion =>
      Some (webSocketWrongVersion expectedVersion actualVersion)
  | OutputNotFound output enabledOutputs disabledOutputs =>
      Some (webSocketOutputNotFound output enabledOutputs disabledOutputs)
  | OutputDisabled output enabledOutputs disabledOutputs =>
      Some (webSocketOutputDisabled output enabledOutputs disabledOutputs)
  end.

(** The output path is the one written as [name]. *)
Definition named (name : string) (outputPath : OutputPath) : Prop :=
  outputPathToOriginalString outputPath = name.

Definition update (project : Project) (msg : Msg) (model : Model)
  : Model * list Cmd :=
  match msg with
  | GotWatcherEvent date eventName absolutePathString =>
      match
        onWatcherEvent date project eventName absolutePathString
                       (nextAction model)
      with
      | None => (model, [])
      | Some (updatedNextAction, cmds) =>
          (mkModel updatedNextAction (hotState model),
           cmds ++ [cmdSleepBeforeNextAction])
      end

  | SleepBeforeNextActionDone date =>
      let '(nextModel, cmds) := runNextAction date project model in
      (mkModel NoAction (hotState nextModel), cmds)

  | CompilationPartDone date prioritizedOutputs =>
      let includeInterrupted :=
        match nextAction model with
        | Compile _ => false
        | _ => true
        end in
      let outputActions :=
        getOutputActions project includeInterrupted prioritizedOutputs in
      match hotState model with
      | Dependencies _ _ | Idle =>
          (model,
           [cmdThrow ("HotState became " ++ hotStateTag (hotState model)
                      ++ " while compiling!")%string])
      | Compiling start events =>
          let duration := (date - start)%Z in
          let errors := extractErrors project in
          let cmd := cmdNoCmd in
          if Nat.ltb 0 (length (actions outputActions)) then
            (model,
             [cmdCompileAllOutputsAsNeeded ContinueCompilation
                                           includeInterrupted])
          else if Nat.ltb 0 (numExecuting outputActions)
                  || Nat.ltb 0 (numInterrupted outputActions) then
            (model, [cmd])
          else
            (mkModel (nextAction model) Idle,
             [cmd;
              match errors with
              | _ :: _ => cmdPrintCompileErrors errors
              | [] => cmdNoCmd
              end;
              cmdHandleElmWatchJsonWriteError;
              cmdLogInfoMessageWithTimeline (compileFinishedMessage duration)
                                            events;
              cmdRunOnIdle])
      | Restarting events =>
          if Nat.eqb (numExecuting outputActions) 0
          then (model, [cmdRestart events])
          else (model, [])
      end

  | InstallDependenciesDone installResult =>
      match hotState model with
      | Dependencies start events =>
          match installResult with
          | InstallError => (mkModel (nextAction model) Idle, [cmdRunOnIdle])
          | InstallSuccess =>
              (mkModel (nextAction model) (Compiling start events),
               [cmdCompileAllOutputsAsNeeded AfterInstallDependencies true])
          end
      | Restarting events => (model, [cmdRestart events])
      | Idle | Compiling _ _ =>
          (model,
           [cmdThrow ("HotState became " ++ hotStateTag (hotState model)
                      ++ " while installing dependencies!")%string])
      end

  | WebSocketConnected date webSocket urlString =>
      let onError := onConnectError model date webSocket in
      match parseWebSocketConnectRequestUrl project urlString with
      | ParseSuccess outputPath outputState compiledTimestamp =>
          let '(nextModel, cmds) :=
            match outputStates project !! outputState with
            | Some o =>
                onWebSocketConnected date model outputPath outputState
                                     (status o) compiledTimestamp
            | None => (model, [])
            end in
          (nextModel,
           [cmdWebSocketAdd (mkConnection webSocket (aPath outputPath) date)]
           ++ cmds ++ [cmdSleepBeforeNextAction])
      | BadUrl expectedStart actualUrlString =>
          onError (webSocketBadUrl expectedStart actualUrlString)
      | ParamsDecodeError error actualUrlString =>
          onError (webSocketParamsDecodeError error actualUrlString)
      | WrongVersion expectedVersion actualVersion =>
          onError (webSocketWrongVersion expectedVersion actualVersion)
      | OutputNotFound output enabledOutputs disabledOutputs =>
          onError (webSocketOutputNotFound output enabledOutputs
                                           disabledOutputs)
      | OutputDisabled output enabledOutputs disabledOutputs =>
          onError (webSocketOutputDisabled output enabledOutputs
                                           disabledOutputs)
      end

  | WebSocketMessageReceived webSocket data =>
      match parseWebSocketToServerMessage data with
      | MessageSuccess message =>
          onWebSocketToServerMessage model webSocket message
      | UnsupportedDataType =>
          onMessageError model webSocket webSocketUnsupportedDataType
      | DecodeError error =>
          onMessageError model webSocket (webSocketDecodeError error)
      end

  | WebSocketClosed webSocket => (model, [cmdWebSocketRemove webSocket])
  end.

(** *** The mutable part of a run and the commands *)

(** The server object of WebSocketServer.ts with its port. *)
Record Server : Type := mkServer {
  thePort : Z;
  queue : WebSocketServer.t Msg
}.

Record WebSocketState : Type := mkWebSocketState {
  ws_webSocketServer : Server;
  ws_webSocketConnections : list WebSocketConnection
}.

Inductive HotRunResult : Type :=
| ExitOnIdle
| RestartRun (restartReasons : list AnyEvent)
             (webSocketState : option WebSocketState).

(** [ElmWatchJsonWritable]: [{ port, outputs: { [original]: { compilationMode
    } } }]. *)
Record ElmWatchJsonWritable : Type := mkJson {
  json_port : Z;
  json_outputs : gmap string CompilationMode
}.

(** [Mutable]; the watcher object itself has no state that [hot] reads. *)
Record Mutable : Type := mkMutable {
  webSocketServer : Server;
  webSocketConnections : list WebSocketConnection;
  project : Project;
  lastInfoMessage : option string;
  watcherTimeoutId : option nat;
  m_elmWatchJsonWriteError : option Error
}.

Inductive OnIdleResponse : Type := KeepGoing | Stop.

(** What a command does to the outside, in order. Effects that only start
    something ([handleOutputAction], [installDependencies], [resolveWhen...])
    complete later. *)
Inductive Effect : Type :=
| loggerClearScreen
| loggerError (line : string)
| loggerErrorTemplate (template : ErrorTemplate)
| moveCursorUpAndClearScreenDown (lines : nat)
| printStatusLinesForElmJsonsErrors
| printSpaceForOutputs (total : nat)
| printErrors (errors : list ErrorTemplate)
| webSocketSend (webSocket : WebSocket) (message : WebSocketToClientMessage)
| dispatchMsg (msg : Msg)
| handleOutputAction (action : OutputAction)
| installDependencies
| clearTimeout (id : nat)
| setTimeout (id : nat) (ms : nat)
| startWatcher (root : AbsolutePath)
| scheduleSetDispatch
| mkdirAndWriteFile (file : AbsolutePath) (json : ElmWatchJsonWritable)
| resolveWhenClosed (watcher : bool) (server : bool) (result : HotRunResult)
| rejectPromise (error : Error).

(** What a command reads from the outside: whether stderr is a terminal,
    what [getNow()] and [onIdle()] return, the error thrown by the file
    system when the state file is written (if any), and the identifier the
    next [setTimeout] returns. *)
Record World : Type := mkWorld {
  isTTY : bool;
  now : Date;
  onIdle : option OnIdleResponse;
  fsError : option Error;
  nextTimeoutId : nat
}.

Definition setProject (mutable : Mutable) (p : Project) : Mutable :=
  mkMutable (webSocketServer mutable) (webSocketConnections mutable) p
            (lastInfoMessage mutable) (watcherTimeoutId mutable)
            (m_elmWatchJsonWriteError mutable).

Definition setOutputStates (p : Project) (os : gmap OutputRef OutputState)
  : Project :=
  mkProject (watchRoot p) (elmToolingJsonPath p) (elmWatchJsonPath p)
            (disabledOutputs p) (elmJsonsErrors p) (elmJsons p) os.

(** The entries given to [Object.fromEntries] in [writeElmWatchJson]. An
    output whose state object is missing from the store gives no entry. *)
Definition outputEntries (p : Project) : list (string * CompilationMode) :=
  flat_map
    (fun fo =>
       match outputStates p !! fo_outputState fo with
       | Some o =>
           match compilationMode o with
           | standard => []
           | mode => [(outputPathToOriginalString (fo_outputPath fo), mode)]
           end
       | None => []
       end)
    (getFlatOutputs p).

(** The [json] constant of [writeElmWatchJson]. *)
Definition elmWatchJson (mutable : Mutable) : ElmWatchJsonWritable :=
  mkJson (thePort (webSocketServer mutable))
         (Js.fromEntries (outputEntries (project mutable))).

(** [writeElmWatchJson] *)
Definition writeElmWatchJson (world : World) (mutable : Mutable)
  : Mutable * list Effect :=
  (mkMutable (webSocketServer mutable) (webSocketConnections mutable)
             (project mutable) (lastInfoMessage mutable)
             (watcherTimeoutId mutable) (fsError world),
   [mkdirAndWriteFile (elmWatchJsonPath (project mutable))
                      (elmWatchJson mutable)]).

Definition webSocketConnectionIsForOutputPath
  (webSocketConnection : WebSocketConnection) (outputPath : OutputPath)
  : bool :=
  match c_outputPath webSocketConnection with
  | OutputPathError => false
  | aPath (OutputPath_ theirs _) =>
      match outputPath with
      | OutputPath_ ours _ => samePath theirs ours
      | NullOutputPath => false
      end
  | aPath NullOutputPath =>
      match outputPath with
      | OutputPath_ _ _ => false
      | NullOutputPath => true
      end
  end.

(** [webSocketSendToOutput]: the sends it makes. *)
Definition webSocketSendToOutput (outputPath : OutputPath)
  (message : WebSocketToClientMessage)
  (connections : list WebSocketConnection) : list Effect :=
  List.map (fun c => webSocketSend (webSocket c) message)
    (List.filter (fun c => webSocketConnectionIsForOutputPath c outputPath)
                 connections).

(** A [HashMap<OutputPath, number>] as its entries in insertion order. *)
Fixpoint hashMapSet (key : OutputPath) (value : Z)
  (entries : list (OutputPath * Z)) : list (OutputPath * Z) :=
  match entries with
  | [] => [(key, value)]
  | (k, v) :: rest =>
      if decide (k = key) then (k, value) :: rest
      else (k, v) :: hashMapSet key value rest
  end.

Definition hashMapGet (key : OutputPath) (entries : list (OutputPath * Z))
  : option Z :=
  snd <$> List.find (fun kv => bool_decide (fst kv = key)) entries.

Definition makePrioritizedOutputs (connections : list WebSocketConnection)
  : list (OutputPath * Z) :=
  fold_left
    (fun map c =>
       match c_outputPath c with
       | OutputPathError => map
       | aPath outputPath =>
           let previous := default 0%Z (hashMapGet outputPath map) in
           hashMapSet outputPath (Z.max (priority c) previous) map
       end)
    connections [].

Definition printEvent (event : AnyEvent) : string :=
  match event with
  | ofWatcher e =>
      (formatTime (we_date e) ++ " " ++ eventNameText (we_eventName e) ++ " "
       ++ absolutePath (we_file e))%string
  | ofWebSocketConnected e =>
      (formatTime (wc_date e)
       ++ " web socket connected needing compilation of "
       ++ outputPathToOriginalString (wc_outputPath e))%string
  end.

Definition printNumMoreEvents (numMoreEvents : Z) : option string :=
  if (numMoreEvents <=? 0)%Z then None
  else if (numMoreEvents =? 1)%Z then Some "(1 more event)"
  else Some ("(" ++ numberToString numMoreEvents ++ " more events)")%string.

Definition printTimeline (events : list AnyEvent) : option string :=
  match events with
  | [] => None
  | first :: rest =>
      let numMoreEvents := (Z.of_nat (length events) - 2)%Z in
      Some (dim (Js.join
                   ([printEvent first]
                    ++ option_list (printNumMoreEvents numMoreEvents)
                    ++ match rest with
                       | [] => []
                       | _ => [printEvent (List.last rest first)]
                       end)
                   newline))
  end.

Definition infoMessageWithTimeline (date : Date) (message : string)
  (events : list AnyEvent) : string :=
  Js.join
    ([""] ++ option_list (printTimeline events)
     ++ [(bold (formatTime date) ++ " " ++ message)%string])
    newline.

(** [s.split("\n").length] *)
Definition lineCount (s : string) : nat :=
  S (length (List.filter (Ascii.eqb "010"%char) (list_ascii_of_string s))).

(** [outputState.dirty = true] *)
Definition makeDirty (o : OutputState) : OutputState :=
  mkOutputState (inputs o) (compilationMode o) (allRelatedElmFilePaths o)
                true (status o).

(** One step of the [MarkAsDirty] loop. *)
Definition markOneAsDirty (acc : Mutable * list Effect) (fo : FlatOutput)
  : Mutable * list Effect :=
  let '(mutable, effects) := acc in
  (setProject mutable
     (setOutputStates (project mutable)
        (alter makeDirty (fo_outputState fo)
               (outputStates (project mutable)))),
   effects
   ++ webSocketSendToOutput (fo_outputPath fo) (StatusChanged Busy)
        (webSocketConnections mutable)).

(** One step of the inner loop of [ChangeCompilationMode]. *)
Definition changeOne (mode : CompilationMode) (c : WebSocketConnection)
  (acc : Mutable * list Effect) (fo : FlatOutput) : Mutable * list Effect :=
  let '(mutable, effects) := acc in
  if webSocketConnectionIsForOutputPath c (fo_outputPath fo) then
    (setProject mutable
       (setOutputStates (project mutable)
          (alter (fun o => mkOutputState (inputs o) mode
                             (allRelatedElmFilePaths o) true (status o))
                 (fo_outputState fo) (outputStates (project mutable)))),
     effects ++ [webSocketSend (webSocket c) (StatusChanged Busy)])
  else acc.

(** Whether the restart reasons name a changed [elm-tooling.json]. *)
Definition elmToolingJsonChanged (restartReasons : list AnyEvent) : bool :=
  existsb
    (fun event =>
       match event with
       | ofWatcher e =>
           String.eqb (path_basename (absolutePath (we_file e)))
                      "elm-tooling.json"
       | ofWebSocketConnected _ => false
       end)
    restartReasons.

Definition unsetDispatch (server : Server) : Server :=
  mkServer (thePort server) (WebSocketServer.unsetDispatch (queue server)).

(** [runCmd] *)
Definition runCmd (world : World) (cmd : Cmd) (mutable : Mutable)
  : Mutable * list Effect :=
  match cmd with
  | cmdChangeCompilationMode socket mode =>
      let flatOutputs := getFlatOutputs (project mutable) in
      fold_left
        (fun acc c =>
           if Nat.eqb (webSocket c) socket
           then fold_left (changeOne mode c) flatOutputs acc
           else acc)
        (webSocketConnections mutable) (mutable, [])

  | cmdClearScreen =>
      (mkMutable (webSocketServer mutable) (webSocketConnections mutable)
                 (project mutable) None (watcherTimeoutId mutable)
                 (m_elmWatchJsonWriteError mutable),
       [loggerClearScreen])

  | cmdCompileAllOutputsAsNeeded mode includeInterrupted =>
      let outputActions :=
        getOutputActions (project mutable) includeInterrupted
          (makePrioritizedOutputs (webSocketConnections mutable)) in
      let '(mutable1, printed) :=
        match mode with
        | AfterInstallDependencies =>
            (mutable,
             [printStatusLinesForElmJsonsErrors;
              printSpaceForOutputs (total outputActions)])
        | AfterIdle =>
            (mkMutable (webSocketServer mutable)
                       (webSocketConnections mutable) (project mutable) None
                       (watcherTimeoutId mutable)
                       (m_elmWatchJsonWriteError mutable),
             [loggerClearScreen; printStatusLinesForElmJsonsErrors;
              printSpaceForOutputs (total outputActions)])
        | ContinueCompilation => (mutable, [])
        end in
      (mutable1,
       printed ++
       match actions outputActions with
       | _ :: _ => List.map handleOutputAction (actions outputActions)
       | [] =>
           if Nat.eqb (numExecuting outputActions) 0 then
             [dispatchMsg
                (CompilationPartDone (now world)
                   (makePrioritizedOutputs (webSocketConnections mutable)))]
           else []
       end)

  | cmdHandleElmWatchJsonWriteError =>
      match m_elmWatchJsonWriteError mutable with
      | None => (mutable, [])
      | Some _ =>
          let '(mutable1, written) := writeElmWatchJson world mutable in
          match m_elmWatchJsonWriteError mutable1 with
          | None => (mutable1, written)
          | Some error =>
              (mutable1,
               written ++
               [loggerError "";
                loggerErrorTemplate
                  (elmWatchJsonWriteError
                     (elmWatchJsonPath (project mutable1)) error)])
          end
      end

  | cmdInstallDependencies => (mutable, [installDependencies])

  | cmdLogInfoMessageWithTimeline message events =>
      let fullMessage := infoMessageWithTimeline (now world) message events in
      (mkMutable (webSocketServer mutable) (webSocketConnections mutable)
                 (project mutable) (Some fullMessage)
                 (watcherTimeoutId mutable)
                 (m_elmWatchJsonWriteError mutable),
       match lastInfoMessage mutable with
       | Some last =>
           if isTTY world then [moveCursorUpAndClearScreenDown (lineCount last)]
           else []
       | None => []
       end ++ [loggerError fullMessage])

  | cmdMarkAsDirty outputs => fold_left markOneAsDirty outputs (mutable, [])

  | cmdNoCmd => (mutable, [])

  | cmdPrintCompileErrors errors => (mutable, [printErrors errors])

  | cmdRestart restartReasons =>
      let changed := elmToolingJsonChanged restartReasons in
      let mutable1 :=
        mkMutable (unsetDispatch (webSocketServer mutable))
                  (webSocketConnections mutable) (project mutable)
                  (lastInfoMessage mutable) (watcherTimeoutId mutable)
                  (m_elmWatchJsonWriteError mutable) in
      (mutable1,
       [resolveWhenClosed true changed
          (RestartRun restartReasons
             (if changed then None
              else Some (mkWebSocketState (webSocketServer mutable1)
                           (webSocketConnections mutable1))))])

  | cmdRunOnIdle =>
      match onIdle world with
      | Some Stop => (mutable, [resolveWhenClosed true false ExitOnIdle])
      | Some KeepGoing | None => (mutable, [])
      end

  | cmdSleepBeforeNextAction =>
      (mkMutable (webSocketServer mutable) (webSocketConnections mutable)
                 (project mutable) (lastInfoMessage mutable)
                 (Some (nextTimeoutId world))
                 (m_elmWatchJsonWriteError mutable),
       match watcherTimeoutId mutable with
       | Some id => [clearTimeout id]
       | None => []
       end ++ [setTimeout (nextTimeoutId world) 10])

  | cmdThrow error => (mutable, [rejectPromise error])

  | cmdWebSocketAdd webSocketConnection =>
      (mkMutable (webSocketServer mutable)
                 (webSocketConnections mutable ++ [webSocketConnection])
                 (project mutable) (lastInfoMessage mutable)
                 (watcherTimeoutId mutable) (m_elmWatchJsonWriteError mutable),
       [])

  | cmdWebSocketRemove socket =>
      (mkMutable (webSocketServer mutable)
                 (List.filter (fun c => negb (Nat.eqb (webSocket c) socket))
                              (webSocketConnections mutable))
                 (project mutable) (lastInfoMessage mutable)
                 (watcherTimeoutId mutable) (m_elmWatchJsonWriteError mutable),
       [])

  | cmdWebSocketSend socket message => (mutable, [webSocketSend socket message])

  | cmdWebSocketSendToOutput outputPath message =>
      (mutable,
       webSocketSendToOutput outputPath message (webSocketConnections mutable))
  end.

(** Several commands, in order. *)
Definition runCmds (world : World) (cmds : list Cmd) (mutable : Mutable)
  : Mutable * list Effect :=
  fold_left
    (fun acc cmd =>
       let '(mutable', effects') := runCmd world cmd (fst acc) in
       (mutable', snd acc ++ effects'))
    cmds (mutable, []).

(** The writes of the state file among some effects. *)
Definition writesOf (effects : list Effect)
  : list (AbsolutePath * ElmWatchJsonWritable) :=
  flat_map
    (fun e =>
       match e with
       | mkdirAndWriteFile file json => [(file, json)]
       | _ => []
       end)
    effects.

(** [initMutable]: [freshServer] is what [new WebSocketServer(...)] gives;
    it is used only when no WebSocket state is handed over. *)
Definition initMutable (world : World) (freshServer : Server)
  (webSocketState : option WebSocketState) (project : Project)
  : Mutable * list Effect :=
  let '(server, connections) :=
    match webSocketState with
    | Some s => (ws_webSocketServer s, ws_webSocketConnections s)
    | None => (freshServer, [])
    end in
  let mutable := mkMutable server connections project None None None in
  let '(mutable1, written) := writeElmWatchJson world mutable in
  (mutable1,
   [startWatcher (watchRoot project); scheduleSetDispatch] ++ written).

(** [init] *)
Definition init (now : Date) (restartReasons : list AnyEvent)
  : Model * list Cmd :=
  (mkModel NoAction (Dependencies now restartReasons),
   [cmdClearScreen; cmdInstallDependencies]).


(** *** Reading aids for the orchestrator *)

(** The order in which watcher events let one next action replace another:
    a restart is never given up for a compilation, nor a compilation for a
    note about uninteresting files. *)
Definition urgency (nextAction : NextAction) : nat :=
  match nextAction with
  | NoAction => 0
  | PrintNonInterestingEvents _ => 1
  | Compile _ => 2
  | Restart _ => 3
  end.

(** The callback that [SleepBeforeNextAction] gives to [setTimeout]. *)
Definition onSleepDone (world : World) (mutable : Mutable)
  : Mutable * list Effect :=
  (mkMutable (webSocketServer mutable) (webSocketConnections mutable)
             (project mutable) (lastInfoMessage mutable) None
             (m_elmWatchJsonWriteError mutable),
   [dispatchMsg (SleepBeforeNextActionDone (now world))]).

(** The timers that are set and not cleared after some effects, given those
    that were before. *)
Definition pendingTimers (effects : list Effect) (pending : list nat)
  : list nat :=
  fold_left
    (fun pending e =>
       match e with
       | setTimeout id _ => pending ++ [id]
       | clearTimeout id =>
           List.filter (fun other => negb (Nat.eqb other id)) pending
       | _ => pending
       end)
    effects pending.

(** What happens to the mutable part between two messages: a command is
    run, or the pending timer fires. *)
Inductive Happening : Type :=
| ranCmd (world : World) (cmd : Cmd)
| timerFired (world : World).

(** The mutable part and the pending timers after a happening; with no
    timer pending none can fire. *)
Definition happen (acc : Mutable * list nat) (h : Happening)
  : Mutable * list nat :=
  match h with
  | ranCmd world cmd =>
      ((runCmd world cmd acc.1).1,
       pendingTimers (runCmd world cmd acc.1).2 acc.2)
  | timerFired world =>
      match acc.2 with
      | [] => acc
      | _ :: rest => ((onSleepDone world acc.1).1, rest)
      end
  end.

(** The connections whose output is [outputPath], as
    [makePrioritizedOutputs] tells them apart. *)
Definition connectionsOf (outputPath : OutputPath)
  (connections : list WebSocketConnection) : list WebSocketConnection :=
  List.filter
    (fun c =>
       match c_outputPath c with
       | aPath theirs => bool_decide (theirs = outputPath)
       | OutputPathError => false
       end)
    connections.
End WithImports.

Arguments UncheckedInputPath : clear implicits.
Arguments ElmJsonsError : clear implicits.
Arguments OutputStatus : clear implicits.
Arguments OutputState : clear implicits.
Arguments Project : clear implicits.
Arguments OutputActions : clear implicits.
Arguments Imports : clear implicits.
Arguments ParseWebSocketConnectRequestUrlResult : clear implicits.
Arguments ParseWebSocketToServerMessageResult : clear implicits.
Arguments Mutable : clear implicits.
Arguments Effect : clear implicits.

End Hot.

(** ** A small project to run the orchestrator on *)

Module HotExample.
Import Types Hot.

(** The example runs on a POSIX platform. *)

(** The decoder of the query. [Object.fromEntries(new URLSearchParams(...))]
    holds strings only, and [WebSocketConnectedParams] decodes
    [compiledTimestamp] with [Decode.number], which tiny-decoders gives only
    for a value of type number: the decoder fails on every query. *)
Definition decodeQuery (query : string) : unit + WebSocketConnectedParams :=
  inl tt.

#[global] Instance imports : Imports unit unit unit unit := {|
  equalsInputPath := fun _ _ => false;
  nullOutputName := "/dev/null";
  getOutputActions := fun _ _ _ => mkOutputActions [] 2 0 0;
  extractErrors := fun _ => [];
  webSocketBadUrl := fun expected actual =>
    ("expected " ++ expected ++ " but got " ++ actual)%string;
  webSocketParamsDecodeError := fun _ actual =>
    ("bad parameters in " ++ actual)%string;
  webSocketWrongVersion := fun expected actual =>
    ("expected version " ++ expected ++ " but got " ++ actual)%string;
  webSocketOutputNotFound := fun output _ _ =>
    ("no such output: " ++ output)%string;
  webSocketOutputDisabled := fun output _ _ =>
    ("disabled output: " ++ output)%string;
  webSocketUnsupportedDataType := "unsupported data type";
  webSocketDecodeError := fun _ => "bad message";
  elmWatchJsonWriteError := fun _ error _ => error;
  bold := fun s => s;
  dim := fun s => s;
  formatTime := fun _ => "00:00:00";
  numberToString := fun z => Js.natToString (Z.to_nat z);
  path_basename := Js.basename;
  decodeWebSocketConnectedParams := decodeQuery;
  decodeWebSocketToServerMessage := fun _ => inl tt
|}.

Definition mainJs : OutputPath :=
  OutputPath_ (mkAbsolutePath "/project/build/main.js") "build/main.js".

Definition debugJs : OutputPath :=
  OutputPath_ (mkAbsolutePath "/project/build/debug.js") "build/debug.js".

Definition adminJs : OutputPath :=
  OutputPath_ (mkAbsolutePath "/project/build/admin.js") "build/admin.js".

Definition project : Project unit unit :=
  mkProject
    (mkAbsolutePath "/project")
    (mkAbsolutePath "/project/elm-tooling.json")
    (mkAbsolutePath "/project/elm-stuff/elm-watch.json")
    [adminJs]
    []
    [(mkAbsolutePath "/project/elm.json", [(mainJs, 1); (debugJs, 2)])]
    (<[2 := mkOutputState [tt] debug {["/project/src/Debug.elm"]} false
              (Success 7)]>
       (<[1 := mkOutputState [tt] standard {["/project/src/Main.elm"]} false
                 (Success 7)]> ∅)).

Definition compiling : Model := mkModel NoAction (Compiling 0 []).

Definition server : Server := mkServer 50000 WebSocketServer.new.

Definition mutable : Mutable unit unit :=
  mkMutable server [mkConnection 9 (aPath mainJs) 3] project None None None.

Definition world : World := mkWorld true 20 None None 1.

End HotExample.

(** * Properties *)

(** ** Command line parsing *)

Section ParseArgsFacts.
Import Types Run.

Variable isValidOutputName : string -> bool.

Lemma loopBody_fold (args : list CliArg) (acc : Locals) :
  fold_left (loopBody isValidOutputName) args acc =
  mkLocals (l_debug acc || existsb isDebugFlag args)
           (l_optimize acc || existsb isOptimizeFlag args)
           (l_badArgs acc ++ List.filter (isBadArg isValidOutputName) args)
           (l_outputs acc ++ List.map theArg (List.filter (isOutputArg isValidOutputName) args)).
Proof.
  revert acc.
  induction args as [|a args IH]; intros [d o b os]; cbn [fold_left].
  - cbn. by rewrite !orb_false_r, !app_nil_r.
  - rewrite IH. unfold loopBody, isBadArg, isOutputArg, isDebugFlag,
      isOptimizeFlag. cbn [l_debug l_optimize l_badArgs l_outputs existsb
      List.filter].
    destruct (String.eqb_spec (theArg a) "--debug") as [Hd|Hd].
    + cbn. rewrite Hd. cbn. by rewrite orb_true_r.
    + destruct (String.eqb_spec (theArg a) "--optimize") as [Ho|Ho].
      * cbn. by rewrite orb_true_r.
      * destruct (isValidOutputName (theArg a)); cbn;
          by rewrite <- ?app_assoc.
Qed.

Lemma loop_spec (args : list CliArg) :
  loop isValidOutputName args =
  mkLocals (existsb isDebugFlag args) (existsb isOptimizeFlag args)
           (List.filter (isBadArg isValidOutputName) args)
           (List.map theArg (List.filter (isOutputArg isValidOutputName) args)).
Proof. unfold loop. by rewrite loopBody_fold. Qed.

Lemma existsb_flag (flag : string) (args : list CliArg) :
  existsb (fun a => String.eqb (theArg a) flag) args = true
  <-> given flag args.
Proof.
  unfold given. rewrite list_elem_of_In, existsb_exists, in_map_iff. split.
  - intros (a & Ha & He). apply String.eqb_eq in He. eauto.
  - intros (a & He & Ha). exists a. split; [done|]. by apply String.eqb_eq.
Qed.

Lemma filter_isBadArg_nil (args : list CliArg) :
  List.filter (isBadArg isValidOutputName) args = [] <->
  Forall (fun a => isBadArg isValidOutputName a = false) args.
Proof.
  induction args as [|a args IH]; cbn.
  - split; [constructor | done].
  - destruct (isBadArg isValidOutputName a) eqn:E.
    + split; [done | intros H; inversion H; congruence].
    + rewrite IH. split; [by constructor | intros H; by inversion H].
Qed.

(** C5. For every argument list: in run mode [make], [parseArgs] answers
    [DebugOptimizeClash] exactly when both [--debug] and [--optimize] are
    given (and never [DebugOptimizeForHot]); in run mode [hot] it answers
    [DebugOptimizeForHot] exactly when one of them is (and never
    [DebugOptimizeClash]). In either mode it answers [BadArgs] exactly when
    the mode's flag error does not apply and some non-flag argument is not a
    valid output name, and then carries the (non-empty) list of those
    arguments in order; and it answers [Success] exactly when neither the
    flag error nor a bad argument is there, with the valid names in order
    and with mode [debug] if [--debug] was given, [optimize] if [--optimize]
    was given, [standard] if neither was. *)
Theorem parseArgs_cases (args : list CliArg) :
  let flagError (runMode : RunMode) : Prop :=
    match runMode with
    | make => given "--debug" args /\ given "--optimize" args
    | hot => given "--debug" args \/ given "--optimize" args
    end in
  (parseArgs isValidOutputName make args = DebugOptimizeClash
     <-> given "--debug" args /\ given "--optimize" args)
  /\ (parseArgs isValidOutputName hot args = DebugOptimizeForHot
     <-> given "--debug" args \/ given "--optimize" args)
  /\ parseArgs isValidOutputName make args <> DebugOptimizeForHot
  /\ parseArgs isValidOutputName hot args <> DebugOptimizeClash
  /\ (forall runMode badArgs,
        parseArgs isValidOutputName runMode args = BadArgs badArgs
        <-> ~ flagError runMode
            /\ Exists (fun a => isBadArg isValidOutputName a = true) args
            /\ badArgs = List.filter (isBadArg isValidOutputName) args)
  /\ (forall runMode badArgs,
        parseArgs isValidOutputName runMode args = BadArgs badArgs ->
        badArgs <> [])
  /\ (forall runMode compilationMode outputs,
        parseArgs isValidOutputName runMode args
        = Success compilationMode outputs
        <-> ~ flagError runMode
            /\ Forall (fun a => isBadArg isValidOutputName a = false) args
            /\ compilationMode
               = (if decide (given "--debug" args) then debug
                  else if decide (given "--optimize" args) then optimize
                  else standard)
            /\ outputs
               = List.map theArg
                   (List.filter (isOutputArg isValidOutputName) args)).
Proof.
  assert (Hd : existsb isDebugFlag args = true <-> given "--debug" args)
    by apply existsb_flag.
  assert (Ho : existsb isOptimizeFlag args = true <-> given "--optimize" args)
    by apply existsb_flag.
  assert (Hmode : (if decide (given "--debug" args) then debug
                   else if decide (given "--optimize" args) then optimize
                   else standard)
                  = (if existsb isDebugFlag args then debug
                     else if existsb isOptimizeFlag args then optimize
                     else standard)).
  { destruct (existsb isDebugFlag args) eqn:Ed.
    - rewrite decide_True; [done | by apply Hd].
    - rewrite decide_False; [| intros H; apply Hd in H; done].
      destruct (existsb isOptimizeFlag args) eqn:Eo.
      + rewrite decide_True; [done | by apply Ho].
      + rewrite decide_False; [done | intros H; apply Ho in H; done]. }
  assert (Hbad : Exists (fun a => isBadArg isValidOutputName a = true) args
                 <-> List.filter (isBadArg isValidOutputName) args <> []).
  { rewrite Exists_exists. split.
    - intros (a & Ha & Hb) Hnil. apply filter_isBadArg_nil in Hnil.
      rewrite Forall_forall in Hnil. specialize (Hnil a Ha). congruence.
    - destruct (List.filter (isBadArg isValidOutputName) args) as [|b bs]
        eqn:Hf; [done|]. intros _. exists b.
      assert (Hin : In b (List.filter (isBadArg isValidOutputName) args))
        by (rewrite Hf; by left).
      apply filter_In in Hin as [Hin Hb]. split; [|done].
      by apply list_elem_of_In. }
  assert (Hgood : Forall (fun a => isBadArg isValidOutputName a = false) args
                  <-> List.filter (isBadArg isValidOutputName) args = []).
  { split; [apply filter_isBadArg_nil|]. intros Hnil.
    apply Forall_forall. intros a Ha.
    destruct (isBadArg isValidOutputName a) eqn:Hb; [|done].
    exfalso. apply Hbad; [|done]. apply Exists_exists. eauto. }
  cbn zeta. rewrite Hmode.
  unfold parseArgs. rewrite loop_spec. cbn [l_debug l_optimize].
  unfold afterFlags. cbn [l_debug l_optimize l_badArgs l_outputs].
  clear Hmode.
  assert (Gd : if existsb isDebugFlag args then given "--debug" args
               else ~ given "--debug" args).
  { destruct (existsb isDebugFlag args); [by apply Hd|].
    intros H. by apply Hd in H. }
  assert (Go : if existsb isOptimizeFlag args then given "--optimize" args
               else ~ given "--optimize" args).
  { destruct (existsb isOptimizeFlag args); [by apply Ho|].
    intros H. by apply Ho in H. }
  assert (Gb : match List.filter (isBadArg isValidOutputName) args with
               | [] => Forall (fun a => isBadArg isValidOutputName a = false)
                         args
                       /\ ~ Exists
                             (fun a => isBadArg isValidOutputName a = true)
                             args
               | _ => Exists (fun a => isBadArg isValidOutputName a = true)
                        args
                      /\ ~ Forall
                            (fun a => isBadArg isValidOutputName a = false)
                            args
               end).
  { destruct (List.filter (isBadArg isValidOutputName) args) as [|b bs].
    - split; [by apply Hgood|]. intros H. by apply Hbad in H.
    - split; [by apply Hbad|]. intros H. by apply Hgood in H. }
  clear Hd Ho Hbad Hgood.
  destruct (existsb isDebugFlag args), (existsb isOptimizeFlag args);
    destruct (List.filter (isBadArg isValidOutputName) args) as [|b bs];
    destruct Gb as [Gb1 Gb2]; cbn [andb orb];
    (split; [split; [try done; tauto | try done; tauto]|]);
    (split; [split; [try done; tauto | try done; tauto]|]);
    (split; [done|]); (split; [done|]);
    (split; [intros [] badArgs; (split; [try done; intros [= <-]; tauto
                                       | try tauto; intros (? & ? & ->); done])|]);
    (split; [intros [] badArgs; try done; intros [= <-]; done|]);
    intros [] compilationMode outputs;
    (split; [try done; intros [= <- <-]; tauto
            | try tauto; intros (? & ? & -> & ->); done]).
Qed.

End ParseArgsFacts.

(** ** The WebSocket server's queue *)

Section WebSocketServerFacts.
Import WebSocketServer.

Context {Msg : Type}.
Implicit Types (server : WebSocketServer.t Msg) (msgs : list Msg).

Lemma onMsgs_queued (queue : list Msg) (called : list (nat * Msg)) msgs :
  onMsgs (mk dispatchToQueue queue called) msgs =
  mk dispatchToQueue (queue ++ msgs) called.
Proof.
  revert queue. induction msgs as [|m msgs IH]; intros queue.
  - cbn. by rewrite app_nil_r.
  - unfold onMsgs in *. cbn [fold_left]. unfold onMsg at 2. cbn.
    rewrite IH. by rewrite <- app_assoc.
Qed.

Lemma onMsgs_installed (queue : list Msg) (called : list (nat * Msg)) msgs
  (callback : nat) :
  onMsgs (mk (installed callback) queue called) msgs =
  mk (installed callback) queue
     (called ++ List.map (fun m => (callback, m)) msgs).
Proof.
  revert called. induction msgs as [|m msgs IH]; intros called.
  - cbn. by rewrite app_nil_r.
  - unfold onMsgs in *. cbn [fold_left]. unfold onMsg at 2. cbn.
    rewrite IH. by rewrite <- app_assoc.
Qed.

(** No operation of the server ever removes a message from the queue. *)
Lemma msgQueue_grows server :
  (forall msg, exists more, msgQueue (onMsg server msg) = msgQueue server ++ more)
  /\ (forall callback, msgQueue (setDispatch callback server) = msgQueue server)
  /\ msgQueue (unsetDispatch server) = msgQueue server.
Proof.
  split; [|done]. intros msg. unfold onMsg.
  destruct (dispatch server); cbn; [by eexists | exists []; by rewrite app_nil_r].
Qed.

Lemma deliveredTo_app (called more : list (nat * Msg)) (callback : nat)
  (dispatch : Dispatch) (queue : list Msg) :
  deliveredTo callback (mk dispatch queue (called ++ more))
  = deliveredTo callback (mk dispatch queue called)
    ++ deliveredTo callback (mk dispatch queue more).
Proof. unfold deliveredTo. cbn. by rewrite List.filter_app, map_app. Qed.

Lemma deliveredTo_same (msgs : list Msg) (callback : nat)
  (dispatch : Dispatch) (queue : list Msg) :
  deliveredTo callback
    (mk dispatch queue (List.map (fun m => (callback, m)) msgs))
  = msgs.
Proof.
  unfold deliveredTo. cbn. induction msgs as [|m msgs IH]; [done|].
  cbn. rewrite Nat.eqb_refl. cbn. by rewrite IH.
Qed.

Lemma deliveredTo_other (msgs : list Msg) (callback other : nat)
  (dispatch : Dispatch) (queue : list Msg) :
  other <> callback ->
  deliveredTo callback (mk dispatch queue (List.map (fun m => (other, m)) msgs))
  = [].
Proof.
  intros Hne. unfold deliveredTo. cbn. induction msgs as [|m msgs IH]; [done|].
  cbn. by apply Nat.eqb_neq in Hne as ->.
Qed.

(** C9. [setDispatch] calls the newly installed callback with the queued
    messages in arrival order and leaves the queue as it was. So along a
    restart (messages [early] arrive before the first [setDispatch], [direct]
    while the first callback is installed, [between] after [unsetDispatch];
    then the second callback is installed) the second callback is called
    with every message of [early] again, followed by those of [between]. *)
Theorem setDispatch_redelivers_after_restart
  (early direct between : list Msg) (first second : nat) :
  (forall server callback,
      msgQueue (setDispatch callback server) = msgQueue server
      /\ calls (setDispatch callback server) =
         calls server ++ List.map (fun m => (callback, m)) (msgQueue server))
  /\ let firstRun := setDispatch first (onMsgs new early) in
     let stopped := unsetDispatch (onMsgs firstRun direct) in
     let secondRun := setDispatch second (onMsgs stopped between) in
     calls firstRun = List.map (fun m => (first, m)) early
     /\ msgQueue firstRun = early
     /\ msgQueue secondRun = early ++ between
     /\ calls secondRun =
        List.map (fun m => (first, m)) (early ++ direct)
        ++ List.map (fun m => (second, m)) (early ++ between)
     /\ (first <> second ->
         deliveredTo first secondRun = early ++ direct
         /\ deliveredTo second secondRun = early ++ between).
Proof.
  split; [done|].
  assert (E1 : setDispatch first (onMsgs new early) =
               mk (installed first) early
                  (List.map (fun m => (first, m)) early)).
  { unfold new. by rewrite onMsgs_queued. }
  assert (E2 : unsetDispatch
                 (onMsgs (mk (installed first) early
                             (List.map (fun m => (first, m)) early)) direct) =
               mk dispatchToQueue early
                  (List.map (fun m => (first, m)) (early ++ direct))).
  { rewrite onMsgs_installed. by rewrite map_app. }
  cbn zeta. rewrite E1, E2, onMsgs_queued.
  unfold setDispatch. cbn [msgQueue calls].
  split; [done|]. split; [done|]. split; [done|]. split; [done|].
  intros Hne. rewrite !deliveredTo_app, !deliveredTo_same.
  rewrite !deliveredTo_other by done.
  by rewrite app_nil_r.
Qed.

End WebSocketServerFacts.

(** ** The postprocess worker and its pool *)

Section PostprocessFacts.
Import Postprocess.

Implicit Types (pool : PostprocessWorkerPool) (w : WorkerRef).

Lemma terminateWorker_Idle pool w :
  objects pool !! w = Some Idle ->
  terminateWorker pool w =
  mkPool (<[w := Terminated]> (objects pool)) (deleteWorker w (workers pool))
         (calculateMax pool) (outside pool ++ [(w, threadTerminate)]).
Proof. intros H. unfold terminateWorker. by rewrite H. Qed.

Lemma terminateWorker_Busy pool w promise :
  objects pool !! w = Some (Busy promise) ->
  terminateWorker pool w =
  mkPool (<[w := Terminated]> (objects pool)) (deleteWorker w (workers pool))
         (calculateMax pool)
         (outside pool ++ [(w, threadTerminate);
                           (w, reject promise WORKER_TERMINATED)]).
Proof.
  intros H. unfold terminateWorker. rewrite H. cbn. by rewrite <- app_assoc.
Qed.

Lemma terminateWorker_Terminated pool w :
  statusOf pool w = Terminated -> terminateWorker pool w = pool.
Proof.
  unfold statusOf, terminateWorker. destruct (objects pool !! w) as [s|] eqn:E;
    cbn; [|done]. intros ->. cbn. destruct pool; cbn in *.
  f_equal. by apply insert_id.
Qed.

Lemma statusOf_terminateWorker pool w :
  statusOf (terminateWorker pool w) w = Terminated.
Proof.
  unfold statusOf at 1. unfold terminateWorker.
  destruct (objects pool !! w) as [[p| |]|] eqn:E; cbn;
    rewrite ?lookup_insert_eq, ?E; done.
Qed.

Lemma elem_of_deleteWorker w w' (ws : list WorkerRef) :
  w' ∈ deleteWorker w ws <-> w' ∈ ws /\ w' <> w.
Proof.
  unfold deleteWorker. rewrite !list_elem_of_In, filter_In.
  rewrite negb_true_iff, Nat.eqb_neq. done.
Qed.

(** C10. [terminate] on an [Idle] or [Busy] worker makes it [Terminated]
    and calls [onTerminated], which removes the worker from the pool (and no
    other worker); on a [Busy] worker the pending promise is moreover
    rejected with [WORKER_TERMINATED], on an [Idle] one nothing is rejected;
    on a [Terminated] worker nothing happens at all. Hence a second
    [terminate] changes nothing. *)
Theorem terminate_transitions :
  (forall status,
      status <> Terminated ->
      (terminate status).1 = Terminated
      /\ onTerminated ∈ (terminate status).2)
  /\ (forall promise,
         (terminate (Busy promise)).2 =
         [onTerminated; threadTerminate; reject promise WORKER_TERMINATED])
  /\ (terminate Idle).2 = [onTerminated; threadTerminate]
  /\ terminate Terminated = (Terminated, [])
  /\ (forall pool w status,
         objects pool !! w = Some status ->
         status <> Terminated ->
         let pool' := terminateWorker pool w in
         statusOf pool' w = Terminated
         /\ (forall w', w' ∈ workers pool' <-> w' ∈ workers pool /\ w' <> w)
         /\ (forall w', w' <> w -> statusOf pool' w' = statusOf pool w')
         /\ outside pool' =
            outside pool ++
            (w, threadTerminate) ::
            match status with
            | Busy promise => [(w, reject promise WORKER_TERMINATED)]
            | _ => []
            end)
  /\ (forall pool w,
         statusOf pool w = Terminated -> terminateWorker pool w = pool)
  /\ (forall pool w,
         terminateWorker (terminateWorker pool w) w = terminateWorker pool w).
Proof.
  split; [|split; [|split; [|split; [|split; [|split]]]]]; try done.
  - intros status Hs. destruct status; cbn; try done;
      (split; [done | apply list_elem_of_here]).
  - intros pool w status Hobj Hs pool'. subst pool'.
    assert (E : terminateWorker pool w =
                mkPool (<[w := Terminated]> (objects pool))
                  (deleteWorker w (workers pool)) (calculateMax pool)
                  (outside pool ++
                   (w, threadTerminate) ::
                   match status with
                   | Busy promise => [(w, reject promise WORKER_TERMINATED)]
                   | _ => []
                   end)).
    { destruct status as [p| |]; [| |done].
      - by apply terminateWorker_Busy.
      - by apply terminateWorker_Idle. }
    rewrite E. unfold statusOf. cbn. split; [|split; [|split]].
    + by rewrite lookup_insert_eq.
    + intros w'. apply elem_of_deleteWorker.
    + intros w' Hne. by rewrite lookup_insert_ne.
    + done.
  - apply terminateWorker_Terminated.
  - intros pool w. apply terminateWorker_Terminated, statusOf_terminateWorker.
Qed.

(** *** [limit] *)

Lemma noneOf_spec ks w : noneOf ks w = true <-> w ∉ ks.
Proof.
  unfold noneOf. rewrite forallb_forall. split.
  - intros H Hin. apply list_elem_of_In in Hin. specialize (H _ Hin).
    apply negb_true_iff, Nat.eqb_neq in H. done.
  - intros H k Hk. apply negb_true_iff, Nat.eqb_neq. intros ->.
    apply H. by apply list_elem_of_In.
Qed.

Lemma filter_filter_and {A} (p q : A -> bool) (l : list A) :
  List.filter q (List.filter p l) = List.filter (fun x => p x && q x) l.
Proof.
  induction l as [|x l IH]; [done|]. cbn.
  destruct (p x); cbn; [destruct (q x)|]; by rewrite IH.
Qed.

Lemma filter_ext_elem {A} (p q : A -> bool) (l : list A) :
  (forall x, x ∈ l -> p x = q x) -> List.filter p l = List.filter q l.
Proof.
  intros H. apply List.filter_ext_in. intros x Hx. apply H.
  by apply list_elem_of_In.
Qed.

(** Terminating idle workers one after the other. *)
Lemma terminate_idle_workers (ks : list WorkerRef) pool :
  NoDup ks ->
  Forall (fun w => objects pool !! w = Some Idle) ks ->
  let pool' := fold_left terminateWorker ks pool in
  workers pool' = List.filter (noneOf ks) (workers pool)
  /\ (forall w, objects pool' !! w =
                if decide (w ∈ ks) then Some Terminated else objects pool !! w)
  /\ calculateMax pool' = calculateMax pool
  /\ outside pool' =
     outside pool ++ List.map (fun w => (w, threadTerminate)) ks.
Proof.
  revert pool. induction ks as [|k ks IH]; intros pool Hnd Hidle; cbn zeta.
  - cbn. repeat split.
    + symmetry. apply forallb_filter_id. by apply forallb_forall.
    + by rewrite app_nil_r.
  - apply NoDup_cons in Hnd as [Hk Hnd].
    apply Forall_cons in Hidle as [Hkidle Hidle].
    cbn [fold_left]. rewrite terminateWorker_Idle by done.
    set (pool1 := mkPool _ _ _ _).
    destruct (IH pool1 Hnd) as (Hw & Ho & Hc & Hout).
    { rewrite Forall_forall in Hidle |- *. intros w Hw. subst pool1. cbn.
      rewrite lookup_insert_ne; [by apply Hidle | by intros ->]. }
    rewrite Hw, Hc, Hout. subst pool1. cbn [workers objects outside calculateMax].
    split; [|split; [|split]].
    + unfold deleteWorker. rewrite filter_filter_and.
      apply filter_ext_elem. intros w _. cbn. done.
    + intros w. rewrite Ho. cbn.
      destruct (decide (w ∈ ks)) as [Hin|Hin].
      * rewrite decide_True; [done | by apply list_elem_of_further].
      * destruct (decide (w = k)) as [->|Hne].
        -- rewrite lookup_insert_eq, decide_True; [done | apply list_elem_of_here].
        -- rewrite lookup_insert_ne by done.
           rewrite decide_False; [done|].
           intros [?|?]%elem_of_cons; done.
    + done.
    + cbn. by rewrite <- app_assoc.
Qed.

Lemma filter_nothing {A} (p : A -> bool) (l : list A) :
  (forall x, x ∈ l -> p x = false) -> List.filter p l = [].
Proof.
  induction l as [|x l IH]; intros H; [done|]. cbn.
  rewrite (H x) by apply list_elem_of_here. apply IH.
  intros y Hy. apply H. by apply list_elem_of_further.
Qed.

Lemma noneOf_false ks w : w ∈ ks -> noneOf ks w = false.
Proof.
  intros H. destruct (noneOf ks w) eqn:E; [|done].
  apply noneOf_spec in E. done.
Qed.

Lemma filter_noneOf_drop (l : list WorkerRef) (n : nat) :
  NoDup l -> List.filter (noneOf (drop n l)) l = take n l.
Proof.
  revert n. induction l as [|x l IH]; intros n Hnd; [by destruct n|].
  apply NoDup_cons in Hnd as [Hx Hnd]. destruct n as [|n].
  - rewrite drop_0, take_0. apply filter_nothing.
    intros y Hy. by apply noneOf_false.
  - cbn [drop take List.filter].
    assert (Hkeep : noneOf (drop n l) x = true).
    { apply noneOf_spec. intros Hin. apply Hx.
      eapply subseteq_drop. exact Hin. }
    rewrite Hkeep. f_equal. by apply IH.
Qed.

Lemma NoDup_filter_bool {A} (p : A -> bool) (l : list A) :
  NoDup l -> NoDup (List.filter p l).
Proof.
  induction 1 as [|x l Hx Hnd IH]; cbn; [constructor|].
  destruct (p x); [|done]. constructor; [|done].
  rewrite list_elem_of_In, filter_In, <- list_elem_of_In. tauto.
Qed.

Lemma sliceLast_length {A} (k : nat) (l : list A) :
  length (Js.sliceLast k l) = Nat.min k (length l).
Proof. unfold Js.sliceLast. rewrite length_drop. lia. Qed.

Lemma toTerminate_sliceLast pool :
  toTerminate pool = Js.sliceLast (excessCount pool) (idleWorkers pool).
Proof.
  unfold toTerminate, excessCount.
  destruct (Js.excess _ _); cbn; [done|].
  unfold Js.sliceLast. rewrite Nat.sub_0_r. by rewrite drop_all.
Qed.

(** C4 (as the code has it). On a pool whose [workers] set holds distinct
    workers, [limit] calls [terminate] only on workers that are [Idle]; with
    [excess] the number of workers (idle and busy together) beyond the cap,
    zero if there is none, the workers it terminates are the last [excess]
    of the idle workers in insertion order, or all idle workers when there
    are fewer than [excess] of them; so the idle workers that stay are the
    oldest ones, every other worker keeps its status, and the terminated
    ones leave the pool. *)
Theorem limit_terminates_newest_idle pool :
  NoDup (workers pool) ->
  let killed := toTerminate pool in
  Forall (fun w => statusOf pool w = Idle) killed
  /\ killed = Js.sliceLast (excessCount pool) (idleWorkers pool)
  /\ length killed = Nat.min (excessCount pool) (length (idleWorkers pool))
  /\ idleWorkers pool = idleWorkers (limit pool) ++ killed
  /\ workers (limit pool) = List.filter (noneOf killed) (workers pool)
  /\ (forall w, statusOf (limit pool) w =
                if decide (w ∈ killed) then Terminated else statusOf pool w).
Proof.
  intros Hnd killed.
  assert (Hidle_nd : NoDup (idleWorkers pool))
    by (by apply NoDup_filter_bool).
  assert (Hkilled : killed = Js.sliceLast (excessCount pool) (idleWorkers pool))
    by apply toTerminate_sliceLast.
  assert (Hsub : forall w, w ∈ killed -> w ∈ idleWorkers pool).
  { intros w. rewrite Hkilled. unfold Js.sliceLast. apply subseteq_drop. }
  assert (Hobj : Forall (fun w => objects pool !! w = Some Idle) killed).
  { apply Forall_forall. intros w Hw. apply Hsub in Hw.
    unfold idleWorkers in Hw. apply list_elem_of_In, filter_In in Hw as [_ Hw].
    unfold statusOf in Hw. destruct (objects pool !! w) as [[]|]; done. }
  assert (Hk_nd : NoDup killed).
  { rewrite Hkilled. unfold Js.sliceLast.
    rewrite <- (take_drop (length (idleWorkers pool) - excessCount pool)
                  (idleWorkers pool)) in Hidle_nd.
    by apply NoDup_app in Hidle_nd as (_ & _ & ?). }
  assert (Hlim : fold_left terminateWorker killed pool = limit pool) by done.
  pose proof (terminate_idle_workers killed pool Hk_nd Hobj) as Hfold.
  cbn zeta in Hfold. rewrite Hlim in Hfold.
  destruct Hfold as (Hw & Ho & Hc & _).
  assert (Hstatus : forall w, statusOf (limit pool) w =
                     if decide (w ∈ killed) then Terminated else statusOf pool w).
  { intros w. unfold statusOf. rewrite Ho. by destruct (decide (w ∈ killed)). }
  split; [|split; [|split; [|split; [|split]]]]; try done.
  - eapply Forall_impl; [exact Hobj|]. intros w E. unfold statusOf. by rewrite E.
  - rewrite Hkilled. apply sliceLast_length.
  - unfold idleWorkers at 2. rewrite Hw, filter_filter_and.
    rewrite (filter_ext_elem _
               (fun w => isIdle (statusOf pool w) && noneOf killed w)).
    2:{ intros w _. destruct (noneOf killed w) eqn:E; cbn.
        - rewrite Hstatus. apply noneOf_spec in E.
          rewrite decide_False by done. by rewrite andb_true_r.
        - by rewrite andb_false_r. }
    rewrite <- filter_filter_and. fold (idleWorkers pool).
    rewrite Hkilled at 1. unfold Js.sliceLast at 1.
    rewrite filter_noneOf_drop by done.
    rewrite Hkilled. unfold Js.sliceLast. by rewrite take_drop.
Qed.

Lemma limit_terminates_newest_idle_witness :
  NoDup (workers mixedPool)
  /\ toTerminate mixedPool = [3; 4]
  /\ idleWorkers mixedPool = idleWorkers (limit mixedPool) ++ [3; 4].
Proof.
  assert (Hnd : NoDup (workers mixedPool)).
  { apply (bool_decide_unpack _). vm_compute. exact I. }
  split; [exact Hnd|]. split; [reflexivity|].
  exact (proj1 (proj2 (proj2 (proj2
           (limit_terminates_newest_idle mixedPool Hnd))))).
Defined.

(** C4, as stated, fails: with two busy workers and a cap of one the pool
    exceeds its cap by one, and [limit] terminates no worker. *)
Lemma limit_keeps_excess_busy_workers :
  excessCount busyPool = 1
  /\ toTerminate busyPool = []
  /\ workers (limit busyPool) = [1; 2].
Proof. repeat split; reflexivity. Qed.

End PostprocessFacts.

(** ** The error report of [compile] *)

Section SetFacts.
Context `{EqDecision A}.

Lemma fold_setAdd (xs acc : list A) :
  NoDup acc ->
  NoDup (fold_left Js.setAdd xs acc)
  /\ (forall x, x ∈ fold_left Js.setAdd xs acc <-> x ∈ acc \/ x ∈ xs).
Proof.
  revert acc. induction xs as [|y xs IH]; intros acc Hnd; cbn.
  - split; [done|]. intros x. rewrite elem_of_nil. tauto.
  - unfold Js.setAdd at 2 4. destruct (decide (y ∈ acc)) as [Hy|Hy].
    + destruct (IH acc Hnd) as [Hnd' Hin]. split; [done|].
      intros x. rewrite Hin, elem_of_cons. split; [tauto|].
      intros [?|[->|?]]; tauto.
    + assert (Hnd1 : NoDup (acc ++ [y])).
      { apply NoDup_app. split; [done|]. split; [|apply NoDup_singleton].
        intros x Hx ->%list_elem_of_singleton. done. }
      destruct (IH _ Hnd1) as [Hnd' Hin]. split; [done|].
      intros x. rewrite Hin, elem_of_app, list_elem_of_singleton, elem_of_cons.
      tauto.
Qed.

Lemma arrayFromSet_NoDup (xs : list A) : NoDup (Js.arrayFromSet xs).
Proof. apply fold_setAdd. constructor. Qed.

Lemma elem_of_arrayFromSet (xs : list A) (x : A) :
  x ∈ Js.arrayFromSet xs <-> x ∈ xs.
Proof.
  unfold Js.arrayFromSet.
  rewrite (proj2 (fold_setAdd xs [] (NoDup_nil_2))), elem_of_nil. tauto.
Qed.

End SetFacts.

Section ReportFacts.
Import Types Compile.

Context {Payload Problem ElmJsonsError : Type}.
Context `{!ErrorsModule Payload Problem ElmJsonsError}.

Implicit Types (st : State Payload Problem ElmJsonsError).

(** The report after the loop, with its last line written out. *)
Lemma report_cases (fancy : bool) (stderrColumns : Z) st :
  let errors := extractErrors st in
  let texts := errorStrings stderrColumns errors in
  (fullRestartRequested st = false -> errors <> [] ->
   report fancy stderrColumns st =
   ([""; Js.join texts (String "010" (String "010" "")); "";
     ((if fancy then "🚨 " else "") ++ bold (Js.natToString (length texts))
     ++ " error" ++ (if Nat.eqb (length texts) 1 then "" else "s")
     ++ " found")%string], 1%Z))
  /\ (~ (fullRestartRequested st = false /\ errors <> []) ->
      report fancy stderrColumns st = ([], 0%Z)).
Proof.
  intros errors texts. unfold report. fold errors.
  destruct (fullRestartRequested st).
  - split; [done|]. done.
  - destruct errors as [|e errors'] eqn:E.
    + split; [done|]. done.
    + subst texts. split; [done|]. intros Hno. destruct Hno. done.
Qed.

(** The three ways in which [compile] returns. *)
Lemma compile_cases (fancy isInteractive : bool) (stderrColumns : Z)
  (answer : nat -> bool * InstallResult)
  (rounds : list (list (Event Payload Problem))) st
  (result : CompileResult Payload Problem ElmJsonsError) :
  compile fancy isInteractive stderrColumns answer rounds st = Some result ->
  (installFailed fancy isInteractive answer st = true
   /\ finalState result = st
   /\ errorLines result = [] /\ exitCode result = 1%Z)
  \/ (installFailed fancy isInteractive answer st = false
      /\ fullRestartRequested (finalState result) = true
      /\ errorLines result = [] /\ exitCode result = 0%Z)
  \/ (installFailed fancy isInteractive answer st = false
      /\ (errorLines result, exitCode result)
         = report fancy stderrColumns (finalState result)).
Proof.
  unfold compile, installAll, installFailed.
  destruct (hasRunInstall st); cbn [negb andb].
  - destruct (loopRounds _ _) as [l|]; [|done].
    destruct (report fancy stderrColumns (state l)) as [lines code] eqn:R.
    intros [= <-]. cbn. right. right. by split.
  - destruct (installLoop _ _ _ _ _ _) as [effects failed].
    cbn [snd]. destruct failed.
    + intros [= <-]. cbn. left. by repeat split.
    + destruct (fullRestartRequested st) eqn:F.
      * intros [= <-]. cbn. right. left. by repeat split.
      * destruct (loopRounds _ _) as [l|]; [|done].
        destruct (report fancy stderrColumns (state l)) as [lines code] eqn:R.
        intros [= <-]. cbn. right. right. by split.
Qed.

(** C7. When [compile] returns, the error templates extracted from the
    state it leaves, rendered at the terminal width and put in a set, give
    texts that hold every rendering exactly once, as many as there are
    distinct renderings. What the report writes, if it writes, is an empty
    line, these texts joined by blank lines, an empty line and the line
    "N error(s) found" (after "🚨 " when fancy), where N is the number of
    these texts in bold and "error" stands for N = 1; it writes exactly when
    the installation of the dependencies did not fail, no full restart is
    requested and at least one error was extracted. The exit code is 1
    exactly when the installation of the dependencies failed, or no full
    restart is requested and at least one error was extracted; otherwise
    it is 0 and the report writes nothing. *)
Theorem report_counts_distinct_renderings
  (fancy isInteractive : bool) (stderrColumns : Z)
  (answer : nat -> bool * InstallResult)
  (rounds : list (list (Event Payload Problem))) st
  (result : CompileResult Payload Problem ElmJsonsError) :
  compile fancy isInteractive stderrColumns answer rounds st = Some result ->
  let errors := extractErrors (finalState result) in
  let renderings := List.map (fun template => template stderrColumns) errors in
  let texts := errorStrings stderrColumns errors in
  let failed := installFailed fancy isInteractive answer st = true in
  NoDup texts
  /\ (forall text, text ∈ texts <-> text ∈ renderings)
  /\ length texts = size (list_to_set renderings : gset string)
  /\ (errorLines result <> [] ->
      errorLines result =
      [""; Js.join texts (String "010" (String "010" "")); "";
       ((if fancy then "🚨 " else "") ++ bold (Js.natToString (length texts))
       ++ " error" ++ (if Nat.eqb (length texts) 1 then "" else "s")
       ++ " found")%string])
  /\ (errorLines result <> []
      <-> ~ failed /\ fullRestartRequested (finalState result) = false
          /\ errors <> [])
  /\ (exitCode result = 1%Z
      <-> failed
          \/ (fullRestartRequested (finalState result) = false
              /\ errors <> []))
  /\ (exitCode result <> 1%Z ->
      exitCode result = 0%Z /\ errorLines result = []).
Proof.
  intros Hrun errors renderings texts failed.
  assert (Hnd : NoDup texts) by apply arrayFromSet_NoDup.
  assert (Hin : forall text, text ∈ texts <-> text ∈ renderings)
    by (intros; apply elem_of_arrayFromSet).
  split; [done|]. split; [done|]. split.
  { rewrite <- (size_list_to_set (C := gset string) texts) by done.
    f_equal. apply set_eq. intros text.
    rewrite !elem_of_list_to_set. apply Hin. }
  subst failed.
  destruct (compile_cases _ _ _ _ _ _ _ Hrun)
    as [(Hf & _ & Hl & Hc)|[(Hf & Hr & Hl & Hc)|(Hf & Hrep)]].
  - rewrite Hl, Hc, Hf. repeat split; try done.
    + by intros (Hno & _).
    + by left.
  - rewrite Hl, Hc, Hf, Hr. repeat split; try done.
    + by intros (_ & ? & _).
    + by intros [?|[? _]].
  - rewrite Hf.
    destruct (report_cases fancy stderrColumns (finalState result))
      as [Hyes Hno].
    fold errors in Hyes, Hno. fold texts in Hyes.
    destruct (fullRestartRequested (finalState result)) eqn:F.
    + rewrite Hno in Hrep by (by intros [? _]).
      injection Hrep as -> ->. repeat split; try done.
      * by intros (_ & ? & _).
      * by intros [?|[? _]].
    + destruct (decide (errors = [])) as [E|E].
      * rewrite Hno in Hrep by (by intros [_ ?]).
        injection Hrep as -> ->. repeat split; try done.
        -- by intros (_ & _ & ?).
        -- by intros [?|[_ ?]].
      * rewrite Hyes in Hrep by done.
        injection Hrep as -> ->. repeat split; try done.
        by right.
Qed.

End ReportFacts.

(** Two outputs fail with the same problem of the same module: both
    renderings are the same text, which is written once, and one error is
    counted. *)
Lemma report_counts_distinct_renderings_witness :
  let sameProblem :=
    Compile.ElmMakeError_CompileErrors
      [Compile.mkCompileError "src/Main.elm" ["naming error"]] in
  let rounds :=
    [[Compile.ElmMakeDone 0 sameProblem; Compile.ElmMakeDone 1 sameProblem]] in
  let answer := fun _ : nat => (false, Compile.ElmJsonError) in
  exists result,
    Compile.compile false false 80 answer rounds Compile.twoOutputs
    = Some result
    /\ length (Compile.extractErrors (Compile.finalState result)) = 2
    /\ length (Compile.errorStrings
                 80 (Compile.extractErrors (Compile.finalState result)))
       = size (list_to_set
                 (List.map (fun template => template 80%Z)
                    (Compile.extractErrors (Compile.finalState result)))
               : gset string)
    /\ Compile.errorLines result
       = [""; "src/Main.elm: naming error"; ""; "1 error found"]
    /\ Compile.exitCode result = 1%Z.
Proof.
  intros sameProblem rounds answer.
  destruct (Compile.compile false false 80 answer rounds Compile.twoOutputs)
    as [result|] eqn:Hrun; [|by vm_compute in Hrun].
  exists result. split; [done|].
  destruct (report_counts_distinct_renderings
              false false 80 answer rounds Compile.twoOutputs result Hrun)
    as (_ & _ & Hsize & Hlines & _ & Hcode & _).
  split; [|split; [exact Hsize|]].
  - vm_compute in Hrun. injection Hrun as <-. reflexivity.
  - assert (Hwritten : Compile.errorLines result <> []).
    { vm_compute in Hrun. injection Hrun as <-. done. }
    split.
    + rewrite (Hlines Hwritten).
      vm_compute in Hrun. injection Hrun as <-. reflexivity.
    + apply Hcode. right.
      vm_compute in Hrun. injection Hrun as <-. split; done.
Defined.

(** The installation of the dependencies fails: [compile] returns 1 although
    no error is extracted from the state and the report writes nothing. *)
Lemma exit_code_1_without_extracted_error :
  let answer :=
    fun _ : nat =>
      (false, Compile.InstallFailed (fun _ : Z => "elm was not found")) in
  exists result,
    Compile.compile false false 80 answer [] Compile.notInstalled
    = Some result
    /\ Compile.exitCode result = 1%Z
    /\ Compile.extractErrors (Compile.finalState result) = []
    /\ Compile.errorLines result = []
    /\ Compile.installEffects result
       = [Compile.spawnElmInstall "/project/elm.json";
          Compile.loggerError "Dependencies: error";
          Compile.loggerError "";
          Compile.loggerErrorTemplate (fun _ : Z => "elm was not found")].
Proof.
  intros answer. eexists. split; [reflexivity|]. cbn.
  split; [reflexivity|]. split; [reflexivity|]. split; reflexivity.
Defined.
(** ** The compile loop *)

Section LoopFacts.
Import Types Compile.

Context {Payload Problem ElmJsonsError : Type}.

Implicit Types (st : State Payload Problem ElmJsonsError)
  (l : Loop Payload Problem ElmJsonsError)
  (o : OutputState Payload Problem)
  (entry : string * OutputPath * Ref).

Lemma toCompile_elem st (elmJsonPath : string) (outputPath : OutputPath)
  (r : Ref) :
  (elmJsonPath, outputPath, r) ∈ toCompile st ->
  exists outputs,
    (elmJsonPath, outputs) ∈ elmJsons st /\ (outputPath, r) ∈ outputs.
Proof.
  unfold toCompile. rewrite list_elem_of_In, in_flat_map.
  intros ([ej outputs] & Hin & Hmap). apply in_map_iff in Hmap.
  destruct Hmap as ([op r'] & [= -> -> ->] & Hout).
  exists outputs. by rewrite !list_elem_of_In.
Qed.

Lemma someOutputIsDirty_intro st (elmJsonPath : string)
  (outputs : list (OutputPath * Ref)) (outputPath : OutputPath) (r : Ref) :
  (elmJsonPath, outputs) ∈ elmJsons st ->
  (outputPath, r) ∈ outputs ->
  isDirty st r = true ->
  someOutputIsDirty st = true.
Proof.
  intros Hej Hout Hd. unfold someOutputIsDirty.
  apply existsb_exists. exists (elmJsonPath, outputs).
  split; [by apply list_elem_of_In|].
  apply existsb_exists. exists (outputPath, r).
  split; [by apply list_elem_of_In | done].
Qed.

Lemma someOutputIsDirty_toCompile st (index : nat) (elmJsonPath : string)
  (outputPath : OutputPath) (r : Ref) :
  toCompile st !! index = Some (elmJsonPath, outputPath, r) ->
  isDirty st r = true ->
  someOutputIsDirty st = true.
Proof.
  intros Hlook Hd.
  destruct (toCompile_elem st elmJsonPath outputPath r) as (outs & ? & ?).
  { by eapply list_elem_of_lookup_2. }
  by eapply someOutputIsDirty_intro.
Qed.

Lemma someOutputIsDirty_ext st st' :
  elmJsons st' = elmJsons st ->
  (forall r, isDirty st' r = isDirty st r) ->
  someOutputIsDirty st' = someOutputIsDirty st.
Proof.
  intros Hj Hd. unfold someOutputIsDirty. rewrite Hj. clear Hj.
  assert (Hinner : forall outputs : list (OutputPath * Ref),
             existsb (fun '(_, r) => isDirty st' r) outputs
             = existsb (fun '(_, r) => isDirty st r) outputs).
  { induction outputs as [|[op r] outputs IHo]; [done|].
    cbn. by rewrite IHo, Hd. }
  induction (elmJsons st) as [|[ej outputs] rest IH]; [done|].
  cbn. by rewrite IH, Hinner.
Qed.

(** Writing a status leaves every dirty flag as it is. *)
Lemma setStatus_keeps_dirty st (s : OutputStatus Payload Problem) (r0 : Ref) o
  (r : Ref) :
  outputStates st !! r0 = Some o ->
  isDirty (setOutputStates st (<[r0 := setStatus s o]> (outputStates st))) r
  = isDirty st r.
Proof.
  intros Ho. unfold isDirty. cbn.
  destruct (decide (r = r0)) as [->|Hne].
  - by rewrite lookup_insert_eq, Ho.
  - by rewrite lookup_insert_ne.
Qed.

Lemma completion_keeps_dirty l (index : nat) entry
  (result : OutputStatus Payload Problem) :
  (elmJsons (state (afterElmMake index entry result l)) = elmJsons (state l)
   /\ forall r, isDirty (state (afterElmMake index entry result l)) r
                = isDirty (state l) r)
  /\ (elmJsons (state (afterPostprocess index entry result l))
      = elmJsons (state l)
      /\ forall r, isDirty (state (afterPostprocess index entry result l)) r
                   = isDirty (state l) r).
Proof.
  destruct entry as [[elmJsonPath outputPath] r0].
  unfold afterElmMake, afterPostprocess.
  destruct (outputStates (state l) !! r0) as [o|] eqn:Ho; [|done].
  split.
  - destruct (fullRestartRequested (state l) || dirty o); [done|].
    destruct result, (postprocess o); cbn [state]; (split; [done|]);
      intros r; by apply setStatus_keeps_dirty.
  - destruct (fullRestartRequested (state l) || dirty o); cbn [state];
      (split; [done|]); intros r; by apply setStatus_keeps_dirty.
Qed.

(** C3 (as the code has it). Take an entry of [toCompile] and its output
    state [o].
    - If [o] is dirty when the callback is entered, the callback sets the
      status to [ElmMake] and the dirty flag to [false] and only then calls
      the compiler: in the state in which [SpawnElm.make] is called the flag
      is already [false], and the call changes no output state; at the
      first [await], with the compiler started and no result back, the
      status is [ElmMake] and the flag [false].
    - If at completion of the compiler the output is dirty again or a full
      restart was requested, the callback returns with the state exactly as
      it was: the status is not updated from the result, and no status line
      is written.
    - If the same holds at completion of the postprocess, the callback
      returns without writing a status line and without touching the dirty
      flag.
    - If the output is dirty at either completion, some output is dirty
      afterwards, so the [while] test starts another round.
    - Neither completion changes the dirty flag of any output.
    - A request for a full restart alone does not make the loop run again:
      if no output is dirty at the completion, none is afterwards, and the
      [while] test ends the loop. *)
Theorem dirty_cleared_on_entry_and_result_discarded
  l (index : nat) (elmJsonPath : string) (outputPath : OutputPath) (r : Ref) o :
  toCompile (state l) !! index = Some (elmJsonPath, outputPath, r) ->
  outputStates (state l) !! r = Some o ->
  index < length (tasks l) ->
  let entry := (elmJsonPath, outputPath, r) in
  (dirty o = true ->
     let picked := pickUp entry l in
     let l' := enter index entry l in
     (outputStates (state picked) !! r =
      Some (mkOutputState (inputs o) (mode o) (postprocess o) false ElmMake)
      /\ calls picked = calls l
      /\ tasks picked = tasks l)
     /\ (l' = startElmMake index entry picked
         /\ state l' = state picked
         /\ calls l'
            = calls l ++ [callElmMake elmJsonPath (mode o) (inputs o)
                                      outputPath])
     /\ tasks l' !! index = Some AwaitElmMake
     /\ outputStates (state l') !! r =
        Some (mkOutputState (inputs o) (mode o) (postprocess o) false ElmMake))
  /\ (fullRestartRequested (state l) || dirty o = true ->
      forall result,
        let l' := afterElmMake index entry result l in
        state l' = state l
        /\ statusLines l' = statusLines l
        /\ calls l' = calls l
        /\ tasks l' !! index = Some Returned)
  /\ (fullRestartRequested (state l) || dirty o = true ->
      forall result,
        let l' := afterPostprocess index entry result l in
        statusLines l' = statusLines l
        /\ calls l' = calls l
        /\ isDirty (state l') r = dirty o
        /\ tasks l' !! index = Some Returned)
  /\ (dirty o = true ->
      forall result,
        let l1 := afterElmMake index entry result l in
        let l2 := afterPostprocess index entry result l in
        whileTest l1 = NextRound (enterAll l1)
        /\ whileTest l2 = NextRound (enterAll l2))
  /\ (forall result r',
        isDirty (state (afterElmMake index entry result l)) r'
        = isDirty (state l) r'
        /\ isDirty (state (afterPostprocess index entry result l)) r'
           = isDirty (state l) r')
  /\ (someOutputIsDirty (state l) = false ->
      forall result,
        let l1 := afterElmMake index entry result l in
        let l2 := afterPostprocess index entry result l in
        whileTest l1 = LoopDone l1 /\ whileTest l2 = LoopDone l2).
Proof.
  intros Hentry Ho Hlen entry.
  assert (Honly : isDirty (state l) r = dirty o)
    by (unfold isDirty; by rewrite Ho).
  split; [|split; [|split; [|split; [|split]]]].
  - intros Hd picked l'.
    assert (Hpicked : picked
                      = mkLoop
                          (setOutputStates (state l)
                             (<[r := setDirty false (setStatus ElmMake o)]>
                                (outputStates (state l))))
                          (tasks l)
                          (statusLines l
                           ++ [mkStatusLine outputPath ElmMake None])
                          (calls l)).
    { subst picked entry. unfold pickUp. by rewrite Ho. }
    assert (Hl' : l' = startElmMake index entry picked).
    { subst l' entry. unfold enter. by rewrite Ho, Hd. }
    assert (Hstart : startElmMake index entry picked
                     = mkLoop (state picked)
                         (<[index := AwaitElmMake]> (tasks picked))
                         (statusLines picked)
                         (calls picked
                          ++ [callElmMake elmJsonPath (mode o) (inputs o)
                                          outputPath])).
    { subst entry. unfold startElmMake. rewrite Hpicked. cbn.
      by rewrite lookup_insert_eq. }
    rewrite Hl', Hstart, Hpicked. cbn.
    rewrite lookup_insert_eq, list_lookup_insert_eq by done. done.
  - intros Hskip result l'. subst l' entry. unfold afterElmMake.
    rewrite Ho, Hskip. cbn. by rewrite list_lookup_insert_eq.
  - intros Hskip result l'. subst l' entry. unfold afterPostprocess.
    rewrite Ho, Hskip. cbn. unfold isDirty. cbn.
    rewrite lookup_insert_eq. cbn. by rewrite list_lookup_insert_eq.
  - intros Hd result l1 l2.
    destruct (completion_keeps_dirty l index entry result)
      as [[Hj1 Hd1] [Hj2 Hd2]].
    assert (Hsome : someOutputIsDirty (state l) = true).
    { eapply someOutputIsDirty_toCompile; [exact Hentry|]. by rewrite Honly. }
    unfold whileTest. subst l1 l2.
    rewrite (someOutputIsDirty_ext _ _ Hj1 Hd1).
    rewrite (someOutputIsDirty_ext _ _ Hj2 Hd2).
    by rewrite Hsome.
  - intros result r'.
    destruct (completion_keeps_dirty l index entry result)
      as [[_ Hd1] [_ Hd2]].
    split; [apply Hd1 | apply Hd2].
  - intros Hclean result l1 l2.
    destruct (completion_keeps_dirty l index entry result)
      as [[Hj1 Hd1] [Hj2 Hd2]].
    unfold whileTest. subst l1 l2.
    rewrite (someOutputIsDirty_ext _ _ Hj1 Hd1).
    rewrite (someOutputIsDirty_ext _ _ Hj2 Hd2).
    by rewrite Hclean.
Qed.

End LoopFacts.

Lemma dirty_cleared_on_entry_and_result_discarded_witness :
  let entry := ("/project/elm.json", Compile.mainJs, 1) in
  let picked := Compile.pickUp entry Compile.beforeLoop in
  let entered := Compile.enter 0 entry Compile.beforeLoop in
  (Compile.outputStates (Compile.state picked) !! 1 =
   Some (Compile.mkOutputState ["src/Main.elm"] Types.standard
           (Some ["elm-watch-node"; "postprocess.js"]) false Compile.ElmMake)
   /\ Compile.calls picked = [])
  /\ Compile.calls entered
     = [Compile.callElmMake "/project/elm.json" Types.standard
          ["src/Main.elm"] Compile.mainJs]
  /\ Compile.tasks entered !! 0 = Some Compile.AwaitElmMake.
Proof.
  intros entry picked entered.
  destruct (dirty_cleared_on_entry_and_result_discarded
              Compile.beforeLoop 0 "/project/elm.json" Compile.mainJs 1
              (Compile.mkOutputState ["src/Main.elm"] Types.standard
                 (Some ["elm-watch-node"; "postprocess.js"]) true
                 Compile.NotWrittenToDisk)
              eq_refl eq_refl ltac:(cbn; lia))
    as [Henter _].
  destruct (Henter eq_refl) as ((H1 & H2 & _) & (_ & _ & H3) & H4 & _).
  split; [split; [exact H1 | exact H2]|]. split; [exact H3 | exact H4].
Defined.

(** A file change while the compiler runs: the result is dropped and the
    loop goes on with another round. *)
Example changed_during_elm_make :
  exists l,
    Compile.whileTest Compile.beforeLoop
    = Compile.NextRound (Compile.enterAll Compile.beforeLoop)
    /\ Compile.afterRound (Compile.enterAll Compile.beforeLoop) = None
    /\ Compile.run (Compile.enterAll Compile.beforeLoop)
         [Compile.MarkedDirty 1; Compile.ElmMakeDone 0 Compile.Success]
       = Some l
    /\ Compile.status <$> Compile.outputStates (Compile.state l) !! 1 =
       Some Compile.ElmMake
    /\ Compile.afterRound l = Some (Compile.NextRound (Compile.enterAll l))
    /\ Compile.tasks (Compile.enterAll l) = [Compile.AwaitElmMake]
    /\ Compile.isDirty (Compile.state (Compile.enterAll l)) 1 = false.
Proof.
  eexists. split; [reflexivity|]. split; [reflexivity|].
  split; [reflexivity|]. repeat split; reflexivity.
Qed.

(** C3, as stated, fails where it says that the loop runs again after a
    request for a full restart: when the restart is requested while no
    output is dirty, the compiler's result is dropped (the status stays
    [ElmMake]), no output is dirty, and the loop ends instead of running
    again. *)
Lemma restart_request_alone_ends_the_loop :
  exists l,
    Compile.run (Compile.enterAll Compile.beforeLoop)
      [Compile.FullRestartRequested;
       Compile.ElmMakeDone 0 Compile.Success] = Some l
    /\ Compile.fullRestartRequested (Compile.state l) = true
    /\ Compile.status <$> Compile.outputStates (Compile.state l) !! 1 =
       Some Compile.ElmMake
    /\ Compile.someOutputIsDirty (Compile.state l) = false
    /\ Compile.afterRound l = Some (Compile.LoopDone l)
    /\ Compile.afterRound l
       <> Some (Compile.NextRound (Compile.enterAll l)).
Proof.
  eexists. split; [reflexivity|]. repeat split; try reflexivity.
  discriminate.
Qed.
(** ** Watcher events in the orchestrator *)

Lemma startsWithList_split (l p : list ascii) :
  Js.startsWithList l p = true -> exists rest, l = p ++ rest.
Proof.
  revert l. induction p as [|c p IH]; intros l; cbn.
  - intros _. by exists l.
  - destruct l as [|d l]; [done|].
    intros [Hc Hp]%andb_prop. apply Ascii.eqb_eq in Hc as ->.
    destruct (IH l Hp) as [rest ->]. by exists rest.
Qed.

(** A path that ends in [.elm] has a basename that ends in [.elm]. *)
Lemma basename_of_elm_file (p : string) :
  Js.endsWith p ".elm" = true ->
  exists stem, Js.chars (Js.basename p) = stem ++ Js.chars ".elm".
Proof.
  unfold Js.endsWith. intros [rest Hrest]%startsWithList_split.
  unfold Js.basename. rewrite Hrest. cbn.
  exists (List.rev (Js.takeWhile (fun c => negb (Js.isSlash c)) rest)).
  unfold Js.chars. rewrite list_ascii_of_string_of_list_ascii.
  by rewrite <- !app_assoc.
Qed.

(** On a POSIX platform the [.elm] test never catches a path whose basename
    is [elm-tooling.json]. *)
Lemma tooling_json_is_no_elm_file (p : string) :
  Js.basename p = "elm-tooling.json" -> Js.endsWith p ".elm" = false.
Proof.
  intros Hb. destruct (Js.endsWith p ".elm") eqn:E; [|done].
  destruct (basename_of_elm_file p E) as [stem Hstem].
  rewrite Hb in Hstem. apply (f_equal (@List.rev ascii)) in Hstem.
  rewrite rev_app_distr in Hstem. cbn in Hstem. discriminate.
Qed.

Section WatcherFacts.
Import Types Hot.

Context {InputPath OutputError OutputAction DecoderError : Type}.
Context `{!Imports InputPath OutputError OutputAction DecoderError}.

Local Abbreviation Project := (Project InputPath OutputError).
Local Abbreviation Mutable := (Mutable InputPath OutputError).

Implicit Types (project : Project) (model : Model) (mutable : Mutable).

(** C8. A watcher event for a path that does not end in [.elm] and whose
    basename is neither [elm.json] nor [elm-tooling.json] leaves the model as
    it is and gives no command: the next action is kept, no [MarkAsDirty] and
    no [SleepBeforeNextAction] is emitted, and so running the commands
    changes nothing and does nothing. *)
Theorem other_files_are_ignored project model (date : Date)
  (eventName : WatcherEventName) (absolutePathString : string) :
  Js.endsWith absolutePathString ".elm" = false ->
  path_basename absolutePathString <> "elm.json" ->
  path_basename absolutePathString <> "elm-tooling.json" ->
  onWatcherEvent date project eventName absolutePathString (nextAction model)
  = None
  /\ update project (GotWatcherEvent date eventName absolutePathString) model
     = (model, [])
  /\ forall world mutable,
       runCmds world
         (update project (GotWatcherEvent date eventName absolutePathString)
                 model).2
         mutable
       = (mutable, []).
Proof.
  intros Helm Hjson Htooling.
  assert (Hnone : onWatcherEvent date project eventName absolutePathString
                    (nextAction model) = None).
  { unfold onWatcherEvent. rewrite Helm.
    destruct (String.eqb_spec (path_basename absolutePathString)
                "elm-tooling.json"); [done|].
    destruct (String.eqb_spec (path_basename absolutePathString) "elm.json");
      done. }
  split; [done|]. unfold update. rewrite Hnone. done.
Qed.

(** *** Restart after a change of the configuration file *)

Lemma markAsDirty_fold (outs : list FlatOutput) mutable
  (effects : list (Effect OutputAction)) :
  let mutable' := (fold_left markOneAsDirty outs (mutable, effects)).1 in
  webSocketServer mutable' = webSocketServer mutable
  /\ webSocketConnections mutable' = webSocketConnections mutable
  /\ elmJsons (Hot.project mutable') = elmJsons (Hot.project mutable)
  /\ forall r,
       outputStates (Hot.project mutable') !! r =
       if decide (r ∈ List.map fo_outputState outs)
       then makeDirty <$> outputStates (Hot.project mutable) !! r
       else outputStates (Hot.project mutable) !! r.
Proof.
  revert mutable effects.
  induction outs as [|fo outs IH]; intros mutable effects; cbn zeta.
  - cbn [fold_left fst List.map]. split; [done|]. split; [done|].
    split; [done|]. intros r. rewrite decide_False; [done|].
    apply not_elem_of_nil.
  - cbn [fold_left].
    change (markOneAsDirty (mutable, effects) fo)
      with (setProject mutable
              (setOutputStates (Hot.project mutable)
                 (alter makeDirty (fo_outputState fo)
                    (outputStates (Hot.project mutable)))),
            effects ++
            webSocketSendToOutput (fo_outputPath fo) (StatusChanged Busy)
              (webSocketConnections mutable)).
    match goal with
    | |- context [fold_left markOneAsDirty outs (?m, ?e)] =>
        destruct (IH m e) as (Hs & Hc & Hj & Ho)
    end.
    rewrite Hs, Hc, Hj. split; [done|]. split; [done|]. split; [done|].
    intros r. rewrite Ho. cbn [Hot.project outputStates setProject
      setOutputStates List.map].
    destruct (decide (r = fo_outputState fo)) as [->|Hne].
    + rewrite lookup_alter_eq.
      rewrite (decide_True (P := _ ∈ _ :: _)) by apply list_elem_of_here.
      destruct (decide _); [|done].
      by destruct (outputStates (Hot.project mutable) !! fo_outputState fo).
    + rewrite lookup_alter_ne by done.
      destruct (decide (r ∈ List.map fo_outputState outs)) as [Hin|Hin].
      * rewrite decide_True; [done | by apply list_elem_of_further].
      * rewrite decide_False; [done|].
        intros [?|?]%elem_of_cons; done.
Qed.

Lemma elmToolingJsonChanged_intro (reasons : list AnyEvent)
  (event : WatcherEvent) :
  ofWatcher event ∈ reasons ->
  path_basename (absolutePath (we_file event)) = "elm-tooling.json" ->
  elmToolingJsonChanged reasons = true.
Proof.
  intros Hin Hb. unfold elmToolingJsonChanged. apply existsb_exists.
  exists (ofWatcher event). split; [by apply list_elem_of_In|].
  rewrite Hb. done.
Qed.

(** C2 (as the code has it). While the hot state is [Compiling], a
    [changed] event for the project's [elm-tooling.json] (a path with that
    basename, which then does not end in [.elm])
    - sets the next action to [Restart] and emits [MarkAsDirty] for every
      output of the project, after which every output is dirty, and the
      debounce command;
    - at the debounce tick the hot state becomes [Restarting];
    - when a compilation part is done and nothing is executing any more, the
      [Restart] command is emitted;
    - which resolves the run with [Restart] and no WebSocket state, after
      closing the server;
    - and a run that is started without WebSocket state uses a new
      server and no connections. *)
Theorem tooling_json_change_while_compiling_restarts
  project (previous : NextAction) (start : Date) (events : list AnyEvent)
  (date : Date) (absolutePathString : string) :
  absolutePathString = absolutePath (elmToolingJsonPath project) ->
  path_basename absolutePathString = "elm-tooling.json" ->
  Js.endsWith absolutePathString ".elm" = false ->
  let event := makeWatcherEvent changed absolutePathString date in
  let message :=
    restartBecauseJsonFileChangedMessage "elm-tooling.json" changed in
  let eventsWithMessages :=
    match previous with
    | Restart earlier => earlier ++ [(event, message)]
    | _ => [(event, message)]
    end in
  let reasons := List.map (fun em => ofWatcher em.1) eventsWithMessages in
  let restartPending :=
    mkModel (Restart eventsWithMessages) (Compiling start events) in
  let restarting := mkModel NoAction (Restarting reasons) in
  update project (GotWatcherEvent date changed absolutePathString)
         (mkModel previous (Compiling start events))
  = (restartPending,
     [cmdMarkAsDirty (getFlatOutputs project); cmdSleepBeforeNextAction])
  /\ (forall world mutable,
        Hot.project mutable = project ->
        let mutable' :=
          (runCmd world (cmdMarkAsDirty (getFlatOutputs project)) mutable).1 in
        forall fo o,
          fo ∈ getFlatOutputs project ->
          outputStates project !! fo_outputState fo = Some o ->
          outputStates (Hot.project mutable') !! fo_outputState fo
          = Some (makeDirty o))
  /\ (forall project' date',
        update project' (SleepBeforeNextActionDone date') restartPending
        = (restarting,
           [cmdClearScreen;
            cmdLogInfoMessageWithTimeline
              (restartingMessage eventsWithMessages) reasons]))
  /\ (forall project' date' prioritizedOutputs,
        numExecuting (getOutputActions project' true prioritizedOutputs) = 0 ->
        update project' (CompilationPartDone date' prioritizedOutputs)
               restarting
        = (restarting, [cmdRestart reasons]))
  /\ (forall world mutable,
        (runCmd world (cmdRestart reasons) mutable).2
        = [resolveWhenClosed true true (RestartRun reasons None)])
  /\ (forall world freshServer project',
        let mutable' := (initMutable world freshServer None project').1 in
        webSocketServer mutable' = freshServer
        /\ webSocketConnections mutable' = []).
Proof.
  intros Hpath Hbase Hnoelm event message eventsWithMessages reasons
    restartPending restarting.
  split; [|split; [|split; [|split; [|split]]]].
  - unfold update, onWatcherEvent. cbn [nextAction hotState].
    rewrite Hnoelm, Hbase. cbn [String.eqb Ascii.eqb Bool.eqb].
    rewrite <- Hpath, String.eqb_refl. done.
  - intros world mutable Hp mutable' fo o Hfo Ho. subst mutable'. cbn [runCmd].
    destruct (markAsDirty_fold (getFlatOutputs project) mutable [])
      as (_ & _ & _ & Hstore).
    rewrite Hstore, Hp, Ho. rewrite decide_True; [done|].
    apply list_elem_of_In, in_map, list_elem_of_In. done.
  - intros project' date'. unfold update, runNextAction. cbn. done.
  - intros project' date' prioritizedOutputs Hexec.
    unfold update. cbn [nextAction hotState restarting].
    rewrite Hexec. done.
  - intros world mutable. cbn [runCmd snd].
    assert (Hchanged : elmToolingJsonChanged reasons = true).
    { apply (elmToolingJsonChanged_intro _ event); [|done].
      subst reasons eventsWithMessages.
      destruct previous; cbn; rewrite ?map_app; cbn;
        rewrite ?elem_of_app, ?list_elem_of_singleton; auto using list_elem_of_here. }
    rewrite Hchanged. done.
  - intros world freshServer project'. cbn. done.
Qed.

End WatcherFacts.

Lemma other_files_are_ignored_witness :
  Js.endsWith "/project/README.md" ".elm" = false
  /\ Hot.path_basename "/project/README.md" <> "elm.json"
  /\ Hot.path_basename "/project/README.md" <> "elm-tooling.json"
  /\ Hot.update HotExample.project
       (Hot.GotWatcherEvent 5 Hot.changed "/project/README.md")
       HotExample.compiling
     = (HotExample.compiling, []).
Proof.
  assert (H1 : Js.endsWith "/project/README.md" ".elm" = false)
    by reflexivity.
  assert (H2 : Hot.path_basename "/project/README.md" <> "elm.json")
    by (vm_compute; discriminate).
  assert (H3 : Hot.path_basename "/project/README.md" <> "elm-tooling.json")
    by (vm_compute; discriminate).
  split; [exact H1|]. split; [exact H2|]. split; [exact H3|].
  exact (proj1 (proj2 (other_files_are_ignored HotExample.project
                         HotExample.compiling 5%Z Hot.changed
                         "/project/README.md" H1 H2 H3))).
Defined.


Lemma tooling_json_change_while_compiling_restarts_witness :
  "/project/elm-tooling.json"
  = Types.absolutePath (Hot.elmToolingJsonPath HotExample.project)
  /\ Hot.path_basename "/project/elm-tooling.json" = "elm-tooling.json"
  /\ Js.endsWith "/project/elm-tooling.json" ".elm" = false
  /\ (Hot.update HotExample.project
        (Hot.GotWatcherEvent 5 Hot.changed "/project/elm-tooling.json")
        HotExample.compiling).2
     = [Hot.cmdMarkAsDirty (Hot.getFlatOutputs HotExample.project);
        Hot.cmdSleepBeforeNextAction].
Proof.
  assert (H1 : "/project/elm-tooling.json"
               = Types.absolutePath
                   (Hot.elmToolingJsonPath HotExample.project))
    by reflexivity.
  assert (H2 : Hot.path_basename "/project/elm-tooling.json"
               = "elm-tooling.json")
    by reflexivity.
  assert (H3 : Js.endsWith "/project/elm-tooling.json" ".elm" = false)
    by reflexivity.
  split; [exact H1|]. split; [exact H2|]. split; [exact H3|].
  exact (f_equal snd
           (proj1 (tooling_json_change_while_compiling_restarts
                     HotExample.project Hot.NoAction 0%Z [] 5%Z
                     "/project/elm-tooling.json" H1 H2 H3))).
Defined.

(** C2, as stated, fails: a [changed] event for [elm-watch.json] (or for the
    state file of the project) while compiling is ignored; nothing is marked
    dirty and no restart is scheduled. *)
Lemma elm_watch_json_change_is_ignored :
  Hot.update HotExample.project
    (Hot.GotWatcherEvent 5 Hot.changed "/project/elm-watch.json")
    HotExample.compiling
  = (HotExample.compiling, [])
  /\ Hot.update HotExample.project
       (Hot.GotWatcherEvent 5 Hot.changed "/project/elm-stuff/elm-watch.json")
       HotExample.compiling
     = (HotExample.compiling, []).
Proof. split; reflexivity. Qed.

(** The scenario "restart on config change" on the example project: the
    event, the debounce tick and the end of the compilation, with the
    commands run in between. *)
Example restart_on_config_change :
  let watcherEvent :=
    Hot.GotWatcherEvent 5 Hot.changed "/project/elm-tooling.json" in
  let '(model1, cmds1) :=
    Hot.update HotExample.project watcherEvent HotExample.compiling in
  let '(mutable1, effects1) :=
    Hot.runCmds HotExample.world cmds1 HotExample.mutable in
  let '(model2, cmds2) :=
    Hot.update (Hot.project mutable1) (Hot.SleepBeforeNextActionDone 15)
               model1 in
  let '(mutable2, _) := Hot.runCmds HotExample.world cmds2 mutable1 in
  let '(model3, cmds3) :=
    Hot.update (Hot.project mutable2) (Hot.CompilationPartDone 30 []) model2 in
  let '(_, effects3) := Hot.runCmds HotExample.world cmds3 mutable2 in
  let reasons :=
    [Hot.ofWatcher
       (Hot.mkWatcherEvent 5 Hot.changed
          (Types.mkAbsolutePath "/project/elm-tooling.json"))] in
  Hot.dirty <$> Hot.outputStates (Hot.project mutable1) !! 1 = Some true
  /\ Hot.dirty <$> Hot.outputStates (Hot.project mutable1) !! 2 = Some true
  /\ effects1 = [Hot.webSocketSend 9 (Hot.StatusChanged Hot.Busy);
                 Hot.setTimeout 1 10]
  /\ model2 = Hot.mkModel Hot.NoAction (Hot.Restarting reasons)
  /\ cmds3 = [Hot.cmdRestart reasons]
  /\ effects3 = [Hot.resolveWhenClosed true true (Hot.RestartRun reasons None)].
Proof. vm_compute. repeat split; reflexivity. Qed.
(** ** Connect URLs *)

Section ConnectFacts.
Import Types Hot.

Context {InputPath OutputError OutputAction DecoderError : Type}.
Context `{!Imports InputPath OutputError OutputAction DecoderError}.

Local Abbreviation Project := (Project InputPath OutputError).

Implicit Types (project : Project) (model : Model).

Lemma find_named_none (name : string) (paths : list OutputPath) :
  List.find
    (fun outputPath => String.eqb (outputPathToOriginalString outputPath) name)
    paths = None
  <-> ~ exists p, p ∈ paths /\ named name p.
Proof.
  split.
  - intros Hnone (p & Hp & Hname).
    apply list_elem_of_In in Hp.
    pose proof (find_none _ _ Hnone p Hp) as Hf. cbn in Hf.
    unfold named in Hname. rewrite Hname, String.eqb_refl in Hf. done.
  - intros Hno. destruct (List.find _ paths) as [p|] eqn:E; [|done].
    apply find_some in E as [Hin Hp]. exfalso. apply Hno. exists p.
    split; [by apply list_elem_of_In | by apply String.eqb_eq].
Qed.

Lemma find_flat_named (name : string) (flat : list FlatOutput) :
  List.find
    (fun fo => String.eqb (outputPathToOriginalString (fo_outputPath fo)) name)
    flat
  = None
  <-> ~ exists p, p ∈ List.map fo_outputPath flat /\ named name p.
Proof.
  split.
  - intros Hnone (p & Hp & Hname).
    apply list_elem_of_In, in_map_iff in Hp as (fo & <- & Hfo).
    pose proof (find_none _ _ Hnone fo Hfo) as Hf. cbn in Hf.
    unfold named in Hname. rewrite Hname, String.eqb_refl in Hf. done.
  - intros Hno. destruct (List.find _ flat) as [fo|] eqn:E; [|done].
    apply find_some in E as [Hin Hp]. exfalso. apply Hno.
    exists (fo_outputPath fo). split; [|by apply String.eqb_eq].
    apply list_elem_of_In, in_map. done.
Qed.

(** C1. [parseWebSocketConnectRequestUrl] checks in this order and
    answers with the first check that fails: the URL starts with [/?] (else
    [BadUrl]); the query decodes (else [ParamsDecodeError]); the version is
    the engine's version token (else [WrongVersion]); the output is the name
    of an enabled output (else [OutputDisabled] when it is the name of a
    disabled output and [OutputNotFound] when it is not, both with the
    enabled and the disabled outputs); otherwise it answers [Success] with
    the first enabled output of that name. And [update] turns every answer
    but [Success] into adding a connection with the [OutputPathError]
    sentinel and sending a [ClientError] status with the text of that
    error. *)
Theorem connect_url_is_validated_in_order project (urlString : string) :
  let result := parseWebSocketConnectRequestUrl project urlString in
  let flatOutputs := getFlatOutputs project in
  let enabledOutputs := List.map fo_outputPath flatOutputs in
  (Js.startsWith urlString "/?" = false -> result = BadUrl "/?" urlString)
  /\ (Js.startsWith urlString "/?" = true ->
      match decodeWebSocketConnectedParams (Js.sliceFrom 2 urlString) with
      | inl error => result = ParamsDecodeError error urlString
      | inr params =>
          (elmWatchVersion params <> VERSION ->
           result = WrongVersion VERSION (elmWatchVersion params))
          /\ (elmWatchVersion params = VERSION ->
              ((~ exists p, p ∈ enabledOutputs /\ named (output params) p) ->
               ((exists p, p ∈ disabledOutputs project
                           /\ named (output params) p) ->
                result = OutputDisabled (output params) enabledOutputs
                                        (disabledOutputs project))
               /\ ((~ exists p, p ∈ disabledOutputs project
                               /\ named (output params) p) ->
                   result = OutputNotFound (output params) enabledOutputs
                                           (disabledOutputs project)))
              /\ ((exists p, p ∈ enabledOutputs /\ named (output params) p) ->
                  exists fo,
                    List.find
                      (fun fo =>
                         String.eqb
                           (outputPathToOriginalString (fo_outputPath fo))
                           (output params))
                      flatOutputs = Some fo
                    /\ fo ∈ flatOutputs
                    /\ named (output params) (fo_outputPath fo)
                    /\ result = ParseSuccess (fo_outputPath fo)
                                  (fo_outputState fo)
                                  (compiledTimestamp params)))
      end)
  /\ (forall model date webSocket errorMessage,
        connectErrorMessage result = Some errorMessage ->
        update project (WebSocketConnected date webSocket urlString) model
        = (model,
           [cmdWebSocketAdd (mkConnection webSocket OutputPathError date);
            cmdWebSocketSend webSocket
              (StatusChanged (ClientError errorMessage))]))
  /\ (connectErrorMessage result = None
      <-> exists outputPath outputState compiled,
            result = ParseSuccess outputPath outputState compiled).
Proof.
  intros result flatOutputs enabledOutputs.
  split; [|split; [|split]].
  - intros Hs. subst result. unfold parseWebSocketConnectRequestUrl.
    by rewrite Hs.
  - intros Hs. subst result. unfold parseWebSocketConnectRequestUrl.
    rewrite Hs. cbn [negb].
    destruct (decodeWebSocketConnectedParams _) as [error|params]; [done|].
    destruct (String.eqb_spec (elmWatchVersion params) VERSION) as [Hv|Hv];
      cbn [negb].
    2:{ split; [done|]. intros ?. done. }
    split; [done|]. intros _. fold flatOutputs. split.
    + intros Hnone%find_flat_named. rewrite Hnone. fold enabledOutputs.
      split.
      * intros Hdis.
        destruct (List.find _ (disabledOutputs project)) eqn:E; [done|].
        apply find_named_none in E. done.
      * intros Hdis%find_named_none. by rewrite Hdis.
    + intros Hsome.
      destruct (List.find _ flatOutputs) as [fo|] eqn:E.
      * exists fo. split; [done|].
        apply find_some in E as [Hin Hname].
        split; [by apply list_elem_of_In|]. split; [|done].
        by apply String.eqb_eq.
      * apply find_flat_named in E. done.
  - intros model date webSocket errorMessage Hmsg. unfold update.
    fold result. destruct result; cbn in Hmsg; try done;
      injection Hmsg as <-; reflexivity.
  - destruct result; cbn; split; try done; try (intros (? & ? & ? & ?); done).
    intros _. eauto.
Qed.

End ConnectFacts.

(** On the example project no query is decoded, whatever version and
    output it names: the connection is kept with the sentinel, the client is
    told, and nothing is scheduled. *)
Example connect_query_is_not_decoded :
  Hot.update HotExample.project
    (Hot.WebSocketConnected 5 9
       "/?elmWatchVersion=%VERSION%&output=build/main.js&compiledTimestamp=0")
    HotExample.compiling
  = (HotExample.compiling,
     [Hot.cmdWebSocketAdd (Hot.mkConnection 9 Hot.OutputPathError 5);
      Hot.cmdWebSocketSend 9
        (Hot.StatusChanged
           (Hot.ClientError
              "bad parameters in /?elmWatchVersion=%VERSION%&output=build/main.js&compiledTimestamp=0"))]).
Proof. reflexivity. Qed.

Example connect_url_without_query :
  Hot.parseWebSocketConnectRequestUrl HotExample.project "/index.html"
  = Hot.BadUrl "/?" "/index.html".
Proof. reflexivity. Qed.
(** ** The persisted state file *)

Lemma fromEntries_list_to_map {V} (entries : list (string * V)) :
  Js.fromEntries entries = list_to_map (reverse entries).
Proof.
  unfold reverse. rewrite <- rev_alt.
  unfold Js.fromEntries, list_to_map.
  rewrite <- (rev_involutive entries) at 1.
  generalize (List.rev entries). intros l.
  rewrite <- fold_left_rev_right, rev_involutive.
  induction l as [|[k v] l IH]; cbn; [done|]. by rewrite IH.
Qed.

Lemma fromEntries_Some {V} (entries : list (string * V)) (k : string) (v : V) :
  Js.fromEntries entries !! k = Some v -> (k, v) ∈ entries.
Proof.
  rewrite fromEntries_list_to_map. intros H%elem_of_list_to_map_2.
  by apply elem_of_reverse.
Qed.

Lemma fromEntries_is_Some {V} (entries : list (string * V)) (k : string)
  (v : V) :
  (k, v) ∈ entries -> is_Some (Js.fromEntries entries !! k).
Proof.
  rewrite fromEntries_list_to_map. intros H.
  apply not_eq_None_Some. intros Hnone%not_elem_of_list_to_map.
  apply Hnone. apply list_elem_of_fmap. exists (k, v). split; [done|].
  by apply elem_of_reverse.
Qed.

Lemma fromEntries_NoDup {V} (entries : list (string * V)) (k : string)
  (v : V) :
  NoDup (entries.*1) -> (k, v) ∈ entries ->
  Js.fromEntries entries !! k = Some v.
Proof.
  intros Hnd Hin. rewrite fromEntries_list_to_map.
  apply elem_of_list_to_map_1.
  - by rewrite fmap_reverse, reverse_Permutation.
  - by apply elem_of_reverse.
Qed.

(** [Object.fromEntries] keeps, for every key, the value of its last entry. *)
Lemma fromEntries_fold_lookup {V} (entries : list (string * V))
  (o : gmap string V) (k : string) :
  fold_left (fun o kv => <[kv.1 := kv.2]> o) entries o !! k
  = match last (filter (fun kv => kv.1 = k) entries) with
    | Some kv => Some kv.2
    | None => o !! k
    end.
Proof.
  revert o. induction entries as [|[k' v] entries IH]; intros o; [done|].
  cbn [fold_left]. rewrite IH. rewrite filter_cons. cbn [fst snd].
  destruct (decide (k' = k)) as [->|Hne].
  - rewrite last_cons.
    destruct (last (filter (fun kv => kv.1 = k) entries)); [done|].
    by rewrite lookup_insert_eq.
  - destruct (last (filter (fun kv => kv.1 = k) entries)); [done|].
    by rewrite lookup_insert_ne.
Qed.

Lemma fromEntries_lookup {V} (entries : list (string * V)) (k : string) :
  Js.fromEntries entries !! k
  = snd <$> last (filter (fun kv => kv.1 = k) entries).
Proof.
  unfold Js.fromEntries. rewrite fromEntries_fold_lookup.
  by destruct (last _).
Qed.

Section JsonFacts.
Import Types Hot.

Context {InputPath OutputError OutputAction DecoderError : Type}.
Context `{!Imports InputPath OutputError OutputAction DecoderError}.

Local Abbreviation Project := (Project InputPath OutputError).
Local Abbreviation Mutable := (Mutable InputPath OutputError).
Local Abbreviation Effect := (Effect OutputAction).

Implicit Types (p : Project) (mutable : Mutable) (fo : FlatOutput).

Lemma elem_of_outputEntries p (name : string) (mode : CompilationMode) :
  (name, mode) ∈ outputEntries p
  <-> exists fo o,
        fo ∈ getFlatOutputs p
        /\ outputStates p !! fo_outputState fo = Some o
        /\ outputPathToOriginalString (fo_outputPath fo) = name
        /\ compilationMode o = mode
        /\ mode <> standard.
Proof.
  unfold outputEntries. rewrite list_elem_of_In, in_flat_map. split.
  - intros (fo & Hfo & Hin). exists fo.
    destruct (outputStates p !! fo_outputState fo) as [o|]; [|done].
    exists o. apply list_elem_of_In in Hfo. split; [done|]. split; [done|].
    destruct (compilationMode o); cbn in Hin; [done| |];
      destruct Hin as [[= <- <-]|[]]; done.
  - intros (fo & o & Hfo & Ho & Hname & Hmode & Hstd). exists fo.
    split; [by apply list_elem_of_In|]. rewrite Ho, Hname, Hmode.
    destruct mode; [done| |]; by left.
Qed.

Lemma outputEntries_keys p :
  sublist ((outputEntries p).*1)
          (List.map (fun fo => outputPathToOriginalString (fo_outputPath fo))
                    (getFlatOutputs p)).
Proof.
  unfold outputEntries. induction (getFlatOutputs p) as [|fo flat IH]; cbn.
  - constructor.
  - rewrite fmap_app.
    destruct (outputStates p !! fo_outputState fo) as [o|]; cbn;
      [|by constructor].
    destruct (compilationMode o); cbn; by constructor.
Qed.

Lemma writesOf_app (a b : list Effect) :
  writesOf (a ++ b) = writesOf a ++ writesOf b.
Proof. unfold writesOf. by rewrite flat_map_app. Qed.

Lemma writesOf_sends (message : WebSocketToClientMessage)
  (cs : list WebSocketConnection) :
  writesOf (List.map (fun c => webSocketSend (OutputAction := OutputAction)
                                 (webSocket c) message) cs) = [].
Proof. induction cs; cbn; done. Qed.

Lemma writesOf_markAsDirty (outs : list FlatOutput) mutable
  (effects : list Effect) :
  writesOf (fold_left markOneAsDirty outs (mutable, effects)).2
  = writesOf effects.
Proof.
  revert mutable effects. induction outs as [|fo outs IH];
    intros mutable effects; [done|].
  cbn [fold_left]. unfold markOneAsDirty at 2. rewrite IH, writesOf_app.
  unfold webSocketSendToOutput. by rewrite writesOf_sends, app_nil_r.
Qed.

Lemma writesOf_changeOne (mode : CompilationMode) (c : WebSocketConnection)
  (flat : list FlatOutput) (acc : Mutable * list Effect) :
  writesOf (fold_left (changeOne mode c) flat acc).2 = writesOf acc.2.
Proof.
  revert acc. induction flat as [|fo flat IH]; intros [mutable effects];
    [done|].
  cbn [fold_left]. rewrite IH. unfold changeOne.
  destruct (webSocketConnectionIsForOutputPath c (fo_outputPath fo)); [|done].
  cbn [snd]. by rewrite writesOf_app, app_nil_r.
Qed.

Lemma writesOf_changeCompilationMode (socket : WebSocket)
  (mode : CompilationMode) (flat : list FlatOutput)
  (cs : list WebSocketConnection) (acc : Mutable * list Effect) :
  writesOf
    (fold_left
       (fun acc c =>
          if Nat.eqb (webSocket c) socket
          then fold_left (changeOne mode c) flat acc
          else acc)
       cs acc).2
  = writesOf acc.2.
Proof.
  revert acc. induction cs as [|c cs IH]; intros acc; [done|].
  cbn [fold_left]. rewrite IH.
  destruct (Nat.eqb (webSocket c) socket); [|done].
  apply writesOf_changeOne.
Qed.

(** C6. The value written to the state file is [{port, outputs}] where
    [port] is the port of the WebSocket server and [outputs] has an entry
    exactly for the original output strings of the outputs whose mode is not
    [standard]; no entry holds [standard], every entry holds the mode of an
    output of that name (the last one in project order, should two outputs
    be written the same), and, the original strings of the outputs being
    distinct, every output whose mode is not [standard] is mapped from its
    original string to its mode. Every write made by [writeElmWatchJson], by
    a command or by [initMutable] writes that value to the path of the state
    file. *)
Theorem persisted_outputs_are_the_non_standard_ones mutable :
  let json := elmWatchJson mutable in
  let p := Hot.project mutable in
  let original fo := outputPathToOriginalString (fo_outputPath fo) in
  json_port json = thePort (webSocketServer mutable)
  /\ (forall name,
        is_Some (json_outputs json !! name)
        <-> exists fo o,
              fo ∈ getFlatOutputs p
              /\ outputStates p !! fo_outputState fo = Some o
              /\ original fo = name
              /\ compilationMode o <> standard)
  /\ (forall name mode,
        json_outputs json !! name = Some mode ->
        mode <> standard
        /\ exists fo o,
             fo ∈ getFlatOutputs p
             /\ outputStates p !! fo_outputState fo = Some o
             /\ original fo = name
             /\ compilationMode o = mode)
  /\ (forall name,
        json_outputs json !! name
        = snd <$> last (filter (fun kv => kv.1 = name) (outputEntries p)))
  /\ (NoDup (List.map original (getFlatOutputs p)) ->
      forall fo o,
        fo ∈ getFlatOutputs p ->
        outputStates p !! fo_outputState fo = Some o ->
        compilationMode o <> standard ->
        json_outputs json !! original fo = Some (compilationMode o))
  /\ (forall world,
        writesOf (writeElmWatchJson world mutable).2
        = [(elmWatchJsonPath p, json)])
  /\ (forall world cmd,
        writesOf (runCmd world cmd mutable).2 = []
        \/ writesOf (runCmd world cmd mutable).2
           = [(elmWatchJsonPath p, json)])
  /\ (forall world freshServer webSocketState project',
        let started :=
          initMutable world freshServer webSocketState project' in
        writesOf started.2
        = [(elmWatchJsonPath project', elmWatchJson started.1)]).
Proof.
  intros json p original.
  split; [done|]. split; [|split; [|split; [|split; [|split; [|split]]]]].
  - intros name. subst json. cbn [json_outputs elmWatchJson]. split.
    + intros [mode Hmode]. apply fromEntries_Some in Hmode.
      apply elem_of_outputEntries in Hmode
        as (fo & o & Hfo & Ho & Hname & Hmode & Hstd).
      exists fo, o. subst mode. done.
    + intros (fo & o & Hfo & Ho & Hname & Hstd).
      apply (fromEntries_is_Some _ _ (compilationMode o)).
      apply elem_of_outputEntries. exists fo, o. done.
  - intros name mode Hmode. subst json. cbn [json_outputs elmWatchJson] in Hmode.
    apply fromEntries_Some in Hmode.
    apply elem_of_outputEntries in Hmode
      as (fo & o & Hfo & Ho & Hname & Hmode & Hstd).
    split; [done|]. exists fo, o. done.
  - intros name. apply fromEntries_lookup.
  - intros Hnd fo o Hfo Ho Hstd. subst json. cbn [json_outputs elmWatchJson].
    apply fromEntries_NoDup.
    + eapply sublist_NoDup; [exact Hnd | apply outputEntries_keys].
    + apply elem_of_outputEntries. exists fo, o. done.
  - intros world. done.
  - intros world cmd. destruct cmd; cbn [runCmd]; try (left; reflexivity).
    + left. by rewrite writesOf_changeCompilationMode.
    + left. destruct mode; cbn [snd];
        rewrite writesOf_app;
        (destruct (actions _) as [|a l];
         [ destruct (Nat.eqb _ 0); reflexivity
         | set (acts := a :: l); clearbody acts; cbn;
           induction acts; cbn; done ]).
    + destruct (m_elmWatchJsonWriteError mutable) as [e|]; [|by left].
      right. unfold writeElmWatchJson. cbn.
      destruct (fsError world); cbn; done.
    + left. destruct (lastInfoMessage mutable); cbn; [|done].
      destruct (isTTY world); done.
    + left. by rewrite writesOf_markAsDirty.
    + left. destruct (onIdle world) as [[]|]; done.
    + left. destruct (watcherTimeoutId mutable); done.
    + left. cbn [snd]. unfold webSocketSendToOutput.
      by rewrite writesOf_sends.
  - intros world freshServer webSocketState project' started.
    subst started. unfold initMutable. destruct webSocketState; cbn; done.
Qed.

End JsonFacts.

(** Of the two outputs of the example project only the one in debug mode is
    written. *)
Example debug_output_is_persisted :
  let json := Hot.elmWatchJson HotExample.mutable in
  Hot.json_port json = 50000%Z
  /\ Hot.json_outputs json = {["build/debug.js" := Types.debug]}.
Proof. split; reflexivity. Qed.

(** * Further properties *)

(** ** The worker pool: invariant, [terminate], [limit] again *)

Lemma flat_map_ext_In {A B} (f g : A -> list B) (l : list A) :
  (forall x, In x l -> f x = g x) -> flat_map f l = flat_map g l.
Proof.
  induction l as [|x l IH]; intros H; [done|]. cbn.
  rewrite (H x) by (by left). rewrite IH; [done|].
  intros y Hy. apply H. by right.
Qed.

Section PoolFacts.
Import Postprocess.

Implicit Types (pool : PostprocessWorkerPool) (w : WorkerRef).

Lemma terminateWorker_live pool w (s : PostprocessWorkerStatus) :
  objects pool !! w = Some s ->
  s <> Terminated ->
  terminateWorker pool w =
  mkPool (<[w := Terminated]> (objects pool)) (deleteWorker w (workers pool))
         (calculateMax pool)
         (outside pool ++
          (w, threadTerminate) ::
          match s with
          | Busy promise => [(w, reject promise WORKER_TERMINATED)]
          | _ => []
          end).
Proof.
  intros Ho Hs. destruct s as [p| |]; [| |done].
  - by apply terminateWorker_Busy.
  - by apply terminateWorker_Idle.
Qed.

Lemma statusOf_live pool w :
  statusOf pool w <> Terminated ->
  exists s, objects pool !! w = Some s /\ s <> Terminated.
Proof.
  unfold statusOf. destruct (objects pool !! w) as [s|]; cbn; [eauto|done].
Qed.

Lemma beginTerminate_live pool w (s : PostprocessWorkerStatus) :
  objects pool !! w = Some s ->
  s <> Terminated ->
  beginTerminate pool w =
  mkPool (<[w := Terminated]> (objects pool)) (deleteWorker w (workers pool))
         (calculateMax pool) (outside pool ++ [(w, threadTerminate)]).
Proof.
  intros Ho Hs. unfold beginTerminate. rewrite Ho.
  by destruct s as [p| |].
Qed.

(** The calls of [terminate] on distinct workers that are not terminated,
    each up to its [await], one after the other. *)
Lemma begin_live_workers (ks : list WorkerRef) pool :
  NoDup ks ->
  Forall (fun w => statusOf pool w <> Terminated) ks ->
  let pool' := fold_left beginTerminate ks pool in
  workers pool' = List.filter (noneOf ks) (workers pool)
  /\ (forall w, objects pool' !! w =
                if decide (w ∈ ks) then Some Terminated else objects pool !! w)
  /\ calculateMax pool' = calculateMax pool
  /\ outside pool'
     = outside pool ++ List.map (fun w => (w, threadTerminate)) ks.
Proof.
  revert pool. induction ks as [|k ks IH]; intros pool Hnd Hlive; cbn zeta.
  - cbn [fold_left List.map]. split; [|split; [|split]].
    + symmetry. apply forallb_filter_id. by apply forallb_forall.
    + intros w. rewrite decide_False; [done | apply not_elem_of_nil].
    + done.
    + by rewrite app_nil_r.
  - apply NoDup_cons in Hnd as [Hk Hnd].
    apply Forall_cons in Hlive as [Hklive Hlive].
    destruct (statusOf_live pool k Hklive) as (s & Hs & Hsl).
    cbn [fold_left]. rewrite (beginTerminate_live pool k s Hs Hsl).
    set (pool1 := mkPool _ _ _ _).
    assert (Hsame : forall w, w <> k -> statusOf pool1 w = statusOf pool w).
    { intros w Hne. unfold statusOf. subst pool1. cbn.
      by rewrite lookup_insert_ne. }
    destruct (IH pool1 Hnd) as (Hw & Ho & Hc & Hout).
    { rewrite Forall_forall in Hlive |- *. intros w Hw.
      rewrite Hsame; [by apply Hlive | by intros ->]. }
    rewrite Hw, Hc, Hout. split; [|split; [|split]].
    + subst pool1. cbn [workers]. unfold deleteWorker.
      rewrite filter_filter_and. apply filter_ext_elem. intros w _. done.
    + intros w. rewrite Ho. subst pool1. cbn [objects].
      destruct (decide (w ∈ ks)) as [Hin|Hin].
      * rewrite decide_True; [done | by apply list_elem_of_further].
      * destruct (decide (w = k)) as [->|Hne].
        -- rewrite lookup_insert_eq, decide_True;
             [done | apply list_elem_of_here].
        -- rewrite lookup_insert_ne by done.
           rewrite decide_False; [done|].
           intros [?|?]%elem_of_cons; done.
    + done.
    + subst pool1. cbn [outside List.map]. by rewrite <- app_assoc.
Qed.

(** What follows the [await]s only adds rejections to the record. *)
Lemma end_workers (before : PostprocessWorkerPool) (ks : list WorkerRef)
  pool :
  let pool' := fold_left (endTerminate before) ks pool in
  workers pool' = workers pool
  /\ objects pool' = objects pool
  /\ calculateMax pool' = calculateMax pool
  /\ outside pool'
     = outside pool
       ++ flat_map (fun w => match statusOf before w with
                             | Busy promise =>
                                 [(w, reject promise WORKER_TERMINATED)]
                             | _ => []
                             end) ks.
Proof.
  revert pool. induction ks as [|k ks IH]; intros pool; cbn zeta.
  - cbn. by rewrite app_nil_r.
  - cbn [fold_left flat_map].
    destruct (IH (endTerminate before pool k)) as (Hw & Ho & Hc & Hout).
    rewrite Hw, Ho, Hc, Hout. clear.
    unfold endTerminate, statusOf.
    destruct (objects before !! k) as [[p| |]|]; cbn;
      rewrite <- ?app_assoc; done.
Qed.

Lemma filter_noneOf_self (l : list WorkerRef) :
  List.filter (noneOf l) l = [].
Proof. apply filter_nothing. intros y Hy. by apply noneOf_false. Qed.

Lemma terminate_empties_the_pool_aux (settled : list WorkerRef) pool :
  wellFormed pool ->
  workers (terminateAll settled pool) = []
  /\ (forall w, objects (terminateAll settled pool) !! w =
                if decide (w ∈ workers pool) then Some Terminated
                else objects pool !! w)
  /\ outside (terminateAll settled pool)
     = outside pool
       ++ List.map (fun w => (w, threadTerminate)) (workers pool)
       ++ flat_map (fun w => match statusOf pool w with
                             | Busy promise =>
                                 [(w, reject promise WORKER_TERMINATED)]
                             | _ => []
                             end) settled.
Proof.
  intros [Hnd Hlive]. unfold terminateAll.
  destruct (begin_live_workers (workers pool) pool Hnd)
    as (Hw & Ho & _ & Hout).
  { by apply Forall_forall. }
  destruct (end_workers pool settled
              (fold_left beginTerminate (workers pool) pool))
    as (Hw' & Ho' & _ & Hout').
  rewrite Hw', Ho', Hout', Hw, Hout, <- app_assoc.
  split; [apply filter_noneOf_self|]. split; done.
Qed.

(** [PostprocessWorkerPool#terminate] on a pool that holds distinct workers,
    none of them terminated. Every worker is set to terminated, leaves the
    set, and has its thread told to terminate, in set order, before anything
    is rejected; the rejections follow as the threads' terminations resolve
    (in the order [settled], which holds every worker once). So afterwards
    the set is empty, every worker of the set is terminated, no other worker
    object has changed, and the promises rejected are exactly those the
    busy workers were working for, each once, in the order in which their
    threads ended. *)
Theorem terminate_empties_the_pool (settled : list WorkerRef) pool :
  wellFormed pool ->
  settled ≡ₚ workers pool ->
  let pool' := terminateAll settled pool in
  let promiseOf := fun w => match statusOf pool w with
                            | Busy promise => [promise]
                            | _ => []
                            end in
  workers pool' = []
  /\ (forall w, w ∈ workers pool -> statusOf pool' w = Terminated)
  /\ (forall w, w ∉ workers pool -> statusOf pool' w = statusOf pool w)
  /\ outside pool'
     = outside pool
       ++ List.map (fun w => (w, threadTerminate)) (workers pool)
       ++ flat_map (fun w => List.map (fun promise =>
                                         (w, reject promise WORKER_TERMINATED))
                               (promiseOf w)) settled
  /\ rejections pool' = rejections pool ++ flat_map promiseOf settled
  /\ rejections pool' ≡ₚ rejections pool ++ pendingPromises pool.
Proof.
  intros Hwf Hperm pool' promiseOf. subst pool'.
  destruct (terminate_empties_the_pool_aux settled pool Hwf)
    as (Hw & Ho & Hout).
  assert (Hrecord : flat_map
                      (fun w => match statusOf pool w with
                                | Busy promise =>
                                    [(w, reject promise WORKER_TERMINATED)]
                                | _ => []
                                end) settled
                    = flat_map
                        (fun w => List.map
                                    (fun promise =>
                                       (w, reject promise WORKER_TERMINATED))
                                    (promiseOf w)) settled).
  { apply flat_map_ext_In. intros w _. subst promiseOf. cbn.
    by destruct (statusOf pool w). }
  assert (Hrej : rejections (terminateAll settled pool)
                 = rejections pool ++ flat_map promiseOf settled).
  { unfold rejections at 1. rewrite Hout, !flat_map_app.
    fold (rejections pool). f_equal.
    assert (Hnone : flat_map
                      (fun we : WorkerRef * Effect =>
                         match we.2 with
                         | reject promise _ => [promise]
                         | _ => []
                         end)
                      (List.map (fun w => (w, threadTerminate)) (workers pool))
                    = []).
    { clear. induction (workers pool) as [|w ws IH]; [done|]. apply IH. }
    rewrite Hnone, Hrecord. cbn [app]. clear.
    induction settled as [|w settled IH]; [done|].
    cbn [flat_map]. rewrite flat_map_app, IH. f_equal.
    induction (promiseOf w) as [|p ps IHp]; [done|]. cbn. by rewrite IHp. }
  split; [done|]. split; [|split; [|split; [|split; [done|]]]].
  - intros w Hin. unfold statusOf. rewrite Ho. by rewrite decide_True.
  - intros w Hin. unfold statusOf. rewrite Ho. by rewrite decide_False.
  - by rewrite Hout, Hrecord.
  - rewrite Hrej. apply Permutation_app_head. unfold pendingPromises.
    by apply Permutation_flat_map.
Qed.

Lemma terminate_empties_the_pool_witness :
  wellFormed busyPool
  /\ [2; 1] ≡ₚ workers busyPool
  /\ workers (terminateAll [2; 1] busyPool) = []
  /\ rejections (terminateAll [2; 1] busyPool) = [8; 7]
  /\ rejections (terminateAll [1; 2] busyPool) = [7; 8].
Proof.
  assert (Hwf : wellFormed busyPool).
  { split.
    - apply (bool_decide_unpack _). vm_compute. exact I.
    - intros w Hw. cbn in Hw.
      repeat (apply elem_of_cons in Hw as [->|Hw]); try done.
      by apply elem_of_nil in Hw. }
  assert (Hperm : [2; 1] ≡ₚ workers busyPool) by apply perm_swap.
  split; [exact Hwf|]. split; [exact Hperm|].
  pose proof (terminate_empties_the_pool [2; 1] busyPool Hwf Hperm)
    as (H1 & _ & _ & _ & H5 & _).
  split; [exact H1|]. split; [exact H5|].
  pose proof (terminate_empties_the_pool [1; 2] busyPool Hwf
                (Permutation_refl _)) as (_ & _ & _ & _ & H5' & _).
  exact H5'.
Defined.

Lemma length_filter_split {A} (p : A -> bool) (l : list A) :
  length (List.filter p l) + length (List.filter (fun x => negb (p x)) l)
  = length l.
Proof.
  induction l as [|x l IH]; [done|]. cbn. destruct (p x); cbn; lia.
Qed.

Lemma length_filter_le {A} (p : A -> bool) (l : list A) :
  length (List.filter p l) <= length l.
Proof.
  induction l as [|x l IH]; [done|]. cbn. destruct (p x); cbn; lia.
Qed.

Lemma length_filter_noneOf (ks l : list WorkerRef) :
  NoDup l -> NoDup ks -> (forall k, k ∈ ks -> k ∈ l) ->
  length (List.filter (noneOf ks) l) = length l - length ks.
Proof.
  intros Hl Hks Hsub.
  pose proof (length_filter_split (noneOf ks) l) as Hsplit.
  assert (Hperm : List.filter (fun x => negb (noneOf ks x)) l ≡ₚ ks).
  { apply NoDup_Permutation; [by apply NoDup_filter_bool | done |].
    intros x. rewrite list_elem_of_In, filter_In, <- list_elem_of_In.
    rewrite negb_true_iff. split.
    - intros [_ Hx]. destruct (decide (x ∈ ks)) as [|Hn]; [done|].
      apply noneOf_spec in Hn. congruence.
    - intros Hx. split; [by apply Hsub | by apply noneOf_false]. }
  rewrite <- (Permutation_length Hperm). lia.
Qed.

(** What [limit] leaves, on a pool with distinct workers. *)
Lemma limit_shape pool :
  NoDup (workers pool) ->
  workers (limit pool) = List.filter (noneOf (toTerminate pool)) (workers pool)
  /\ (forall w, statusOf (limit pool) w =
                if decide (w ∈ toTerminate pool) then Terminated
                else statusOf pool w)
  /\ calculateMax (limit pool) = calculateMax pool
  /\ idleWorkers (limit pool)
     = take (length (idleWorkers pool) - excessCount pool) (idleWorkers pool)
  /\ length (workers (limit pool))
     = length (workers pool)
       - Nat.min (excessCount pool) (length (idleWorkers pool)).
Proof.
  intros Hnd. set (killed := toTerminate pool).
  assert (Hidle_nd : NoDup (idleWorkers pool))
    by (by apply NoDup_filter_bool).
  assert (Hkilled : killed = Js.sliceLast (excessCount pool) (idleWorkers pool))
    by apply toTerminate_sliceLast.
  assert (Hsub : forall w, w ∈ killed -> w ∈ idleWorkers pool).
  { intros w. rewrite Hkilled. unfold Js.sliceLast. apply subseteq_drop. }
  assert (Hidle_in : forall w, w ∈ idleWorkers pool ->
                       w ∈ workers pool /\ objects pool !! w = Some Idle).
  { intros w Hw. unfold idleWorkers in Hw.
    apply list_elem_of_In, filter_In in Hw as [Hin Hw].
    split; [by apply list_elem_of_In|].
    unfold statusOf in Hw. destruct (objects pool !! w) as [[]|]; done. }
  assert (Hobj : Forall (fun w => objects pool !! w = Some Idle) killed).
  { apply Forall_forall. intros w Hw. by apply Hidle_in, Hsub. }
  assert (Hk_nd : NoDup killed).
  { rewrite Hkilled. unfold Js.sliceLast.
    rewrite <- (take_drop (length (idleWorkers pool) - excessCount pool)
                  (idleWorkers pool)) in Hidle_nd.
    by apply NoDup_app in Hidle_nd as (_ & _ & ?). }
  assert (Hlim : fold_left terminateWorker killed pool = limit pool) by done.
  pose proof (terminate_idle_workers killed pool Hk_nd Hobj) as Hfold.
  cbn zeta in Hfold. rewrite Hlim in Hfold.
  destruct Hfold as (Hw & Ho & Hc & _).
  assert (Hstatus : forall w, statusOf (limit pool) w =
                     if decide (w ∈ killed) then Terminated else statusOf pool w).
  { intros w. unfold statusOf. rewrite Ho. by destruct (decide (w ∈ killed)). }
  split; [done|]. split; [done|]. split; [done|]. split.
  - unfold idleWorkers at 1. rewrite Hw, filter_filter_and.
    rewrite (filter_ext_elem _
               (fun w => isIdle (statusOf pool w) && noneOf killed w)).
    2:{ intros w _. destruct (noneOf killed w) eqn:E; cbn.
        - rewrite Hstatus. apply noneOf_spec in E.
          rewrite decide_False by done. by rewrite andb_true_r.
        - by rewrite andb_false_r. }
    rewrite <- filter_filter_and. fold (idleWorkers pool).
    rewrite Hkilled. unfold Js.sliceLast. by apply filter_noneOf_drop.
  - rewrite Hw, length_filter_noneOf; [| done | done |].
    + rewrite Hkilled, sliceLast_length. done.
    + intros k Hk. by apply Hidle_in, Hsub.
Qed.

Lemma sliceLast_nothing {A} (k : nat) (l : list A) :
  k = 0 \/ l = [] -> Js.sliceLast k l = [].
Proof.
  unfold Js.sliceLast. intros [->| ->]; [|done].
  rewrite Nat.sub_0_r. apply drop_all.
Qed.

(** After [limit], on a pool with distinct workers, the pool is within its
    cap or has no idle worker left; so a second [limit] right after the
    first does nothing. *)
Theorem limit_reaches_cap_or_runs_out_of_idle pool :
  NoDup (workers pool) ->
  (excessCount (limit pool) = 0 \/ idleWorkers (limit pool) = [])
  /\ toTerminate (limit pool) = []
  /\ limit (limit pool) = limit pool.
Proof.
  intros Hnd.
  destruct (limit_shape pool Hnd) as (_ & _ & Hc & Hidle & Hlen).
  assert (Hcases : excessCount (limit pool) = 0
                   \/ idleWorkers (limit pool) = []).
  { destruct (decide (excessCount pool <= length (idleWorkers pool)))
      as [Hle|Hgt].
    - left.
      assert (Hin : length (idleWorkers pool) <= length (workers pool)).
      { unfold idleWorkers. apply length_filter_le. }
      set (n := length (workers pool)) in *.
      set (i := length (idleWorkers pool)) in *.
      set (k := excessCount pool) in *.
      assert (Hk : k = match calculateMax pool tt with
                       | Js.Finite c =>
                           if (0 <? Z.of_nat n - c)%Z
                           then Z.to_nat (Z.of_nat n - c) else 0
                       | Js.Infinity => 0
                       end).
      { subst k. unfold excessCount, Js.excess. fold n.
        destruct (calculateMax pool tt) as [c|]; [|done].
        by destruct (0 <? Z.of_nat n - c)%Z. }
      unfold excessCount. rewrite Hc, Hlen. unfold Js.excess. revert Hk.
      destruct (calculateMax pool tt) as [c|]; [|done]. intros Hk.
      rewrite Nat.min_l by lia.
      assert (E' : (0 <? Z.of_nat (n - k) - c)%Z = false).
      { apply Z.ltb_ge. revert Hk.
        destruct (0 <? Z.of_nat n - c)%Z eqn:E; intros Hk.
        - apply Z.ltb_lt in E.
          lia.
        - apply Z.ltb_ge in E. lia. }
      by rewrite E'.
    - right. rewrite Hidle.
      replace (length (idleWorkers pool) - excessCount pool) with 0 by lia.
      done. }
  split; [done|].
  assert (Hnone : toTerminate (limit pool) = []).
  { rewrite toTerminate_sliceLast. apply sliceLast_nothing. tauto. }
  split; [done|]. unfold limit at 1. by rewrite Hnone.
Qed.

Lemma limit_reaches_cap_or_runs_out_of_idle_witness :
  NoDup (workers mixedPool)
  /\ excessCount (limit mixedPool) = 0
  /\ limit (limit mixedPool) = limit mixedPool.
Proof.
  assert (Hnd : NoDup (workers mixedPool)).
  { apply (bool_decide_unpack _). vm_compute. exact I. }
  split; [exact Hnd|]. split; [reflexivity|].
  exact (proj2 (proj2 (limit_reaches_cap_or_runs_out_of_idle mixedPool Hnd))).
Defined.

(** The pool keeps its invariant: after [limit], after [terminate] (in
    whatever order the threads end), after terminating any one worker and
    after [getOrCreateAvailableWorker] (which creates a new object if at
    all) the set still holds distinct workers, none of them terminated. *)
Theorem pool_invariant_is_kept pool :
  wellFormed pool ->
  wellFormed (limit pool)
  /\ (forall settled, wellFormed (terminateAll settled pool))
  /\ (forall w, wellFormed (terminateWorker pool w))
  /\ (forall fresh,
        objects pool !! fresh = None ->
        wellFormed (getOrCreateAvailableWorker fresh pool).2).
Proof.
  intros [Hnd Hlive]. split; [|split; [|split]].
  - destruct (limit_shape pool Hnd) as (Hw & Hs & _). split.
    + rewrite Hw. by apply NoDup_filter_bool.
    + intros w. rewrite Hw, list_elem_of_In, filter_In, <- list_elem_of_In.
      intros [Hin Hnone]. apply noneOf_spec in Hnone.
      rewrite Hs, decide_False by done. by apply Hlive.
  - intros settled.
    destruct (terminate_empties_the_pool_aux settled pool (conj Hnd Hlive))
      as [Hw _].
    split; rewrite Hw; [constructor | by intros w ?%elem_of_nil].
  - intros w. destruct (objects pool !! w) as [s|] eqn:Ho.
    2:{ unfold terminateWorker. rewrite Ho. done. }
    destruct (decide (s = Terminated)) as [->|Hs].
    { rewrite terminateWorker_Terminated; [done|].
      unfold statusOf. by rewrite Ho. }
    rewrite (terminateWorker_live pool w s Ho Hs). split; cbn [workers].
    + by apply NoDup_filter_bool.
    + intros w' [Hin Hne]%elem_of_deleteWorker. unfold statusOf. cbn.
      rewrite lookup_insert_ne by done. by apply Hlive.
  - intros fresh Hfresh. unfold getOrCreateAvailableWorker.
    destruct (idleWorkers pool); [|done]. cbn [snd].
    assert (Hnotin : fresh ∉ workers pool).
    { intros Hin. apply (Hlive _ Hin). unfold statusOf. by rewrite Hfresh. }
    split; cbn [workers].
    + apply NoDup_app. split; [done|]. split; [|apply NoDup_singleton].
      intros x Hx ->%list_elem_of_singleton. done.
    + intros w [Hin| ->%list_elem_of_singleton]%elem_of_app;
        unfold statusOf; cbn [objects].
      * rewrite lookup_insert_ne by (by intros ->). by apply Hlive.
      * by rewrite lookup_insert_eq.
Qed.

End PoolFacts.

Lemma pool_invariant_is_kept_witness :
  Postprocess.wellFormed Postprocess.mixedPool
  /\ Postprocess.wellFormed (Postprocess.limit Postprocess.mixedPool).
Proof.
  assert (Hwf : Postprocess.wellFormed Postprocess.mixedPool).
  { split.
    - apply (bool_decide_unpack _). vm_compute. exact I.
    - intros w Hw. cbn in Hw.
      repeat (apply elem_of_cons in Hw as [->|Hw]); try done.
      by apply elem_of_nil in Hw. }
  split; [exact Hwf|].
  exact (proj1 (pool_invariant_is_kept Postprocess.mixedPool Hwf)).
Defined.
(** ** One postprocess worker *)

Section WorkerFacts.
Import Postprocess.

Context {Tag : Type}.
Variable unexpectedMessage : string.

Implicit Types (w : PostprocessWorker) (calls : list (WorkerCall Tag))
  (events : list (WorkerEvent (Tag := Tag))) (p q : PromiseId).

Local Abbreviation step := (workerStep (Tag := Tag) unexpectedMessage).

Lemma unexpectedErrors_app calls (more : list (WorkerCall Tag)) :
  unexpectedErrors (calls ++ more)
  = unexpectedErrors calls + unexpectedErrors more.
Proof. unfold unexpectedErrors. by rewrite List.filter_app, length_app. Qed.

Lemma settlements_app p calls (more : list (WorkerCall Tag)) :
  settlements p (calls ++ more) = settlements p calls + settlements p more.
Proof. unfold settlements. by rewrite List.filter_app, length_app. Qed.

(** One step adds its calls to the record. *)
Lemma step_adds w calls e :
  step (w, calls) e = ((step (w, []) e).1, calls ++ (step (w, []) e).2).
Proof.
  unfold workerStep.
  destruct e as [q|c|c|a|er|]; try done.
  - by destruct (postprocess q w) as [[w' more]|].
  - by destruct (onPostprocessDone unexpectedMessage a w).
  - by destruct (onUnexpectedEnd er w).
Qed.

(** What one step does about unexpected errors. *)
Lemma step_unexpected w e :
  let r := step (w, []) e in
  unexpectedErrors r.2 <= 1
  /\ (unexpectedErrors r.2 = 1 ->
      status w <> Terminated /\ status r.1 = Terminated)
  /\ (status w = Terminated -> status r.1 = Terminated /\ r.2 = []).
Proof.
  destruct w as [[p| |] out err]; destruct e as [q|c|c|[v|er]|er|]; cbn;
    repeat split; try done; lia.
Qed.

(** What one step does about the promise [p]. *)
Lemma step_settles p w e :
  let r := step (w, []) e in
  settlements p r.2 <= 1
  /\ (settlements p r.2 = 1 -> status w = Busy p)
  /\ (status r.1 = Busy p ->
      settlements p r.2 = 0 /\ (status w = Busy p \/ e = requested p)).
Proof.
  destruct w as [[p'| |] out err]; destruct e as [q|c|c|[v|er]|er|]; cbn;
    try destruct (Nat.eqb_spec p' p) as [->|Hne]; cbn;
    repeat split; try done; try lia; naive_solver.
Qed.

(** A terminated worker stays terminated and calls nothing. *)
Lemma terminated_is_silent events w calls :
  status w = Terminated ->
  status (fold_left step events (w, calls)).1 = Terminated
  /\ (fold_left step events (w, calls)).2 = calls.
Proof.
  revert w calls. induction events as [|e events IH]; intros w calls Hw;
    [done|].
  cbn [fold_left]. rewrite step_adds.
  destruct (step_unexpected w e) as (_ & _ & Hsilent).
  destruct (Hsilent Hw) as [Hw' ->]. rewrite app_nil_r. by apply IH.
Qed.

(** The worker reports an unexpected error at most once, and only on its
    way to [Terminated]. *)
Lemma unexpected_error_invariant events w calls :
  unexpectedErrors calls <= 1 ->
  (unexpectedErrors calls = 1 -> status w = Terminated) ->
  let r := fold_left step events (w, calls) in
  unexpectedErrors r.2 <= 1
  /\ (unexpectedErrors r.2 = 1 -> status r.1 = Terminated).
Proof.
  revert w calls. induction events as [|e events IH]; intros w calls H1 H2;
    [done|].
  cbn [fold_left]. rewrite step_adds.
  destruct (step_unexpected w e) as (Hle & Hone & Hsilent).
  apply IH; rewrite unexpectedErrors_app.
  - destruct (decide (unexpectedErrors calls = 1)) as [Hc|Hc]; [|lia].
    destruct (Hsilent (H2 Hc)) as [_ ->]. cbn. lia.
  - intros Hsum.
    destruct (decide (unexpectedErrors calls = 1)) as [Hc|Hc].
    + by destruct (Hsilent (H2 Hc)).
    + apply Hone. lia.
Qed.

(** Whatever happens to a worker, it reports an unexpected error at most
    once, and is terminated once it has; a terminated worker stays
    terminated and calls nothing at all (it settles no promise, reports no
    error, and is not idle again); and the unexpected end of a busy worker
    terminates it without settling the promise it was working for. *)
Theorem worker_reports_at_most_one_unexpected_error events w :
  (let r := workerRun unexpectedMessage events w in
   unexpectedErrors r.2 <= 1
   /\ (unexpectedErrors r.2 = 1 -> status r.1 = Terminated))
  /\ (status w = Terminated ->
      status (workerRun unexpectedMessage events w).1 = Terminated
      /\ (workerRun unexpectedMessage events w).2 = [])
  /\ (forall p error,
        status w = Busy p ->
        let r := onUnexpectedEnd (Tag := Tag) error w in
        status r.1 = Terminated
        /\ settlements p r.2 = 0
        /\ unexpectedErrors r.2 = 1).
Proof.
  split; [|split].
  - apply unexpected_error_invariant; cbn; [lia | done].
  - intros Hw. by apply terminated_is_silent.
  - intros p error Hw. unfold onUnexpectedEnd. rewrite Hw. done.
Qed.

(** The state of one promise along a run: settled at most once; while the
    worker is busy with it, not settled yet; and once busy or settled, not
    requested again. *)
Lemma settled_once_invariant p events w calls :
  NoDup (requests events) ->
  settlements p calls <= 1 ->
  (status w = Busy p -> settlements p calls = 0 /\ p ∉ requests events) ->
  (settlements p calls = 1 -> p ∉ requests events) ->
  settlements p (fold_left step events (w, calls)).2 <= 1.
Proof.
  revert w calls. induction events as [|e events IH];
    intros w calls Hnd H1 Hbusy Hset; [done|].
  cbn [fold_left]. rewrite step_adds.
  destruct (step_settles p w e) as (Hle & Hone & Hnew).
  assert (Hnd' : NoDup (requests events)).
  { destruct e; cbn in Hnd; try done. by apply NoDup_cons in Hnd as [_ ?]. }
  assert (Hfut : p ∉ requests (e :: events) -> p ∉ requests events).
  { intros Hx Hin. apply Hx. destruct e; cbn; try done.
    by apply list_elem_of_further. }
  apply IH; rewrite ?settlements_app; try done.
  - destruct (decide (settlements p (step (w, []) e).2 = 1)) as [Hm|Hm];
      [|lia].
    destruct (Hbusy (Hone Hm)) as [-> _]. lia.
  - intros Hb. destruct (Hnew Hb) as [Hz [Hw | ->]].
    + destruct (Hbusy Hw) as [-> Hp]. split; [lia | by apply Hfut].
    + cbn in Hnd. apply NoDup_cons in Hnd as [Hp _]. split; [|done].
      destruct (decide (settlements p calls = 1)) as [Hc|Hc]; [|lia].
      exfalso. apply (Hset Hc). apply list_elem_of_here.
  - intros Hsum. apply Hfut.
    destruct (decide (settlements p (step (w, []) e).2 = 1)) as [Hm|Hm].
    + by destruct (Hbusy (Hone Hm)).
    + apply Hset. lia.
Qed.

(** When every request names a new promise, no promise is settled more than
    once, whatever the order of requests, answers, unexpected ends and
    terminations. *)
Theorem promise_settled_at_most_once events w p :
  NoDup (requests events) ->
  (forall q, status w = Busy q -> q ∉ requests events) ->
  settlements p (workerRun unexpectedMessage events w).2 <= 1.
Proof.
  intros Hnd Hpending. apply settled_once_invariant; cbn; try done; try lia.
  intros Hb. split; [done | by apply Hpending].
Qed.

(** The worker after some events does not depend on the calls recorded
    before them. *)
Lemma fold_step_worker events w calls :
  (fold_left step events (w, calls)).1 = (workerRun unexpectedMessage events w).1.
Proof.
  unfold workerRun. revert w calls.
  induction events as [|e events IH]; intros w calls; [done|].
  cbn [fold_left]. rewrite (step_adds w calls), (step_adds w []).
  by rewrite !IH.
Qed.

Lemma workerRun_app (before : list (WorkerEvent (Tag := Tag))) events w :
  (workerRun unexpectedMessage (before ++ events) w).1
  = (workerRun unexpectedMessage events
       (workerRun unexpectedMessage before w).1).1.
Proof.
  unfold workerRun at 1. rewrite fold_left_app.
  destruct (fold_left step before (w, [])) as [w1 calls1] eqn:E.
  rewrite fold_step_worker. unfold workerRun at 3. by rewrite E.
Qed.

(** Between two answers the buffers only grow, by what is written. *)
Lemma buffers_between_answers events w :
  forallb (fun e => negb (isAnswer e)) events = true ->
  let w' := (workerRun unexpectedMessage events w).1 in
  stdout w' = stdout w ++ stdoutChunks events
  /\ stderr w' = stderr w ++ stderrChunks events.
Proof.
  revert w. induction events as [|e events IH]; intros w Hno; cbv zeta.
  - cbn. by rewrite !app_nil_r.
  - cbn in Hno. apply andb_prop in Hno as [He Hno].
    change (e :: events) with ([e] ++ events). rewrite workerRun_app.
    destruct (IH (workerRun unexpectedMessage [e] w).1 Hno) as [H1 H2].
    cbv zeta in H1, H2. rewrite H1, H2. clear H1 H2 IH.
    destruct w as [[p| |] out err]; destruct e as [q|c|c|a|er|]; try done;
      cbn; by rewrite <- ?app_assoc.
Qed.

(** An answer empties both buffers, in every status; so the stdout and
    stderr texts handed over with a failed job are exactly the chunks
    written since the previous answer, in order: nothing of an earlier job
    and nothing missing. *)
Theorem stdio_belongs_to_the_job
  (before : list (WorkerEvent (Tag := Tag))) (previous : WorkerAnswer Tag)
  events w :
  forallb (fun e => negb (isAnswer e)) events = true ->
  let w1 :=
    (workerRun unexpectedMessage (before ++ [answered previous]) w).1 in
  let w2 := (workerRun unexpectedMessage events w1).1 in
  stdout w1 = [] /\ stderr w1 = []
  /\ forall p (tag : Tag) out err,
       status w2 = Busy p ->
       (onPostprocessDone unexpectedMessage
          (Resolve (errorWithStdio tag out err)) w2).2
       = [resolveWith p
            (errorWithStdio tag (concatChunks (stdoutChunks events))
               (concatChunks (stderrChunks events)));
          callOnIdle].
Proof.
  intros Hno w1 w2.
  assert (H1 : stdout w1 = [] /\ stderr w1 = []).
  { subst w1. rewrite workerRun_app.
    by destruct (workerRun unexpectedMessage before w).1 as [[p| |] out err]. }
  destruct H1 as [Hout Herr]. split; [done|]. split; [done|].
  intros p tag out err Hb.
  destruct (buffers_between_answers events w1 Hno) as [Hout2 Herr2].
  fold w2 in Hout2, Herr2. rewrite Hout, Herr in *. cbn in Hout2, Herr2.
  unfold onPostprocessDone. rewrite Hb. cbn. by rewrite Hout2, Herr2.
Qed.

End WorkerFacts.

Lemma promise_settled_at_most_once_witness :
  let events :=
    [Postprocess.requested (Tag := unit) 1;
     Postprocess.answered
       (Postprocess.Resolve (Postprocess.workerSuccess (Tag := unit) "code"));
     Postprocess.terminated; Postprocess.requested 2] in
  NoDup (Postprocess.requests events)
  /\ Postprocess.settlements 1
       (Postprocess.workerRun "unexpected" events Postprocess.newWorker).2
     <= 1.
Proof.
  assert (Hnd : NoDup [1; 2]).
  { apply (bool_decide_unpack _). vm_compute. exact I. }
  split; [exact Hnd|].
  apply promise_settled_at_most_once; [exact Hnd | intros q Hq; discriminate Hq].
Defined.

Lemma stdio_belongs_to_the_job_witness :
  let events :=
    [Postprocess.requested (Tag := unit) 2; Postprocess.wroteStdout "a";
     Postprocess.wroteStderr "b"; Postprocess.wroteStdout "c"] in
  let w1 :=
    (Postprocess.workerRun (Tag := unit) "unexpected"
       ([Postprocess.requested 1; Postprocess.wroteStdout "old"]
        ++ [Postprocess.answered
              (Postprocess.Resolve (Postprocess.workerSuccess "code"))])
       Postprocess.newWorker).1 in
  let w2 := (Postprocess.workerRun "unexpected" events w1).1 in
  Postprocess.stdout w1 = [] /\ Postprocess.stderr w1 = []
  /\ (Postprocess.onPostprocessDone "unexpected"
        (Postprocess.Resolve (Postprocess.errorWithStdio tt "" "")) w2).2
     = [Postprocess.resolveWith 2 (Postprocess.errorWithStdio tt "ac" "b");
        Postprocess.callOnIdle].
Proof.
  intros events w1 w2.
  pose proof (stdio_belongs_to_the_job (Tag := unit) "unexpected"
                [Postprocess.requested 1; Postprocess.wroteStdout "old"]
                (Postprocess.Resolve (Postprocess.workerSuccess "code"))
                events Postprocess.newWorker eq_refl) as (H1 & H2 & H3).
  split; [exact H1|]. split; [exact H2|].
  exact (H3 2 tt "" "" eq_refl).
Defined.

(** ** Spawned commands and the worker script *)

Section PostprocessFacts.
Import Postprocess.

(** A spawned postprocess command succeeds exactly when it exited with exit
    code 0, and then its stdout is the new code; killed by a signal, an
    unknown exit reason and every other exit code are failures. *)
Theorem spawned_success_is_exit_code_zero {Command Err : Type}
  (command : Command) (spawnResult : SpawnResult Command Err) code :
  handleSpawnResult command spawnResult = spawnedSuccess code
  <-> exists err c, spawnResult = Exit (ExitCode 0) code err c.
Proof.
  split.
  - destruct spawnResult as [c|e c|e c|[[|z|z]|s|] out err c]; cbn;
      intros [= <-] || intros [=]. eauto.
  - by intros (err & c & ->).
Qed.

(** For a postprocess array that starts with ["elm-watch-node"], the result
    is a success exactly when the array names a script whose default export
    is a function that returns a string for the compiled code, the other
    user arguments and then target name, compilation mode and run mode; the
    script path itself is never among the arguments. *)
Theorem script_gets_code_then_user_args_then_extra_args
  (resolve : string -> string) (import_ : string -> Imported)
  targetName compilationMode runMode postprocessArray code
  userArgs extraArgs code' result :
  runPostprocess targetName compilationMode runMode postprocessArray code
  = Some (inWorker userArgs extraArgs code') ->
  elmWatchNode resolve import_ userArgs extraArgs code' = nodeSuccess result
  <-> exists script rest f,
        postprocessArray = ELM_WATCH_NODE :: script :: rest
        /\ import_ (resolve script) = defaultIsFunction f
        /\ f (code :: rest ++ [targetName; compilationMode; runMode])
           = returnedString result.
Proof.
  unfold runPostprocess.
  destruct postprocessArray as [|commandName args]; [done|].
  destruct (String.eqb_spec commandName ELM_WATCH_NODE) as [->|Hne];
    [|done].
  intros [= <- <- <-]. unfold elmWatchNode. split.
  - destruct args as [|script rest]; [done|].
    destruct (import_ (resolve script)) as [e|f|t r] eqn:Ei; try done.
    destruct (f _) as [e|s|r] eqn:Ef; try done.
    intros [= <-]. exists script, rest, f. done.
  - intros (script & rest & f & [= ->] & Hi & Hf). rewrite Hi.
    cbn [app] in *. by rewrite Hf.
Qed.

(** The worker that the pool hands out is one of the pool's workers and is
    idle, so [postprocess] takes the job instead of throwing. An idle worker
    is reused (the oldest one) and then the pool does not change; only when
    none is idle is a new worker created, and it is added as the newest. *)
Theorem available_worker_takes_the_job {Tag : Type} (fresh : WorkerRef)
  (pool : PostprocessWorkerPool) :
  let r := getOrCreateAvailableWorker fresh pool in
  r.1 ∈ workers r.2
  /\ statusOf r.2 r.1 = Idle
  /\ (forall promise out err,
        postprocess (Tag := Tag) promise (mkWorker (statusOf r.2 r.1) out err)
        = Some (mkWorker (Busy promise) out err,
                [postMessageStartPostprocess]))
  /\ match idleWorkers pool with
     | oldest :: _ => r = (oldest, pool)
     | [] => r.1 = fresh /\ workers r.2 = workers pool ++ [fresh]
             /\ forall w, w <> fresh -> statusOf r.2 w = statusOf pool w
     end.
Proof.
  cbn zeta. unfold getOrCreateAvailableWorker.
  destruct (idleWorkers pool) as [|oldest idle] eqn:Hidle; cbn [fst snd].
  - assert (Hstatus : statusOf
                        (mkPool (<[fresh := Idle]> (objects pool))
                                (workers pool ++ [fresh]) (calculateMax pool)
                                (outside pool)) fresh = Idle).
    { unfold statusOf. cbn. by rewrite lookup_insert_eq. }
    split; [apply elem_of_app; right; apply list_elem_of_here|].
    split; [done|]. split; [intros; by rewrite Hstatus|].
    split; [done|]. split; [done|].
    intros w Hne. unfold statusOf. cbn. by rewrite lookup_insert_ne.
  - assert (Hin : oldest ∈ idleWorkers pool)
      by (rewrite Hidle; apply list_elem_of_here).
    unfold idleWorkers in Hin.
    apply list_elem_of_In, filter_In in Hin as [Hin Hstatus].
    rewrite <- list_elem_of_In in Hin.
    assert (Hs : statusOf pool oldest = Idle)
      by (by destruct (statusOf pool oldest)).
    split; [done|]. split; [done|]. split; [intros; by rewrite Hs | done].
Qed.

End PostprocessFacts.

Lemma script_gets_code_then_user_args_then_extra_args_witness :
  let import_ := fun _ : string =>
    Postprocess.defaultIsFunction
      (fun args => Postprocess.returnedString (String.concat "," args)) in
  Postprocess.elmWatchNode (fun s => s) import_ ["post.js"; "--fast"]
    ["main"; "optimize"; "make"] "code"
  = Postprocess.nodeSuccess "code,--fast,main,optimize,make".
Proof.
  intros import_.
  apply (script_gets_code_then_user_args_then_extra_args (fun s => s) import_
           "main" "optimize" "make"
           ["elm-watch-node"; "post.js"; "--fast"] "code"
           ["post.js"; "--fast"] ["main"; "optimize"; "make"] "code"
           "code,--fast,main,optimize,make" eq_refl).
  exists "post.js", ["--fast"], (fun args =>
    Postprocess.returnedString (String.concat "," args)).
  repeat split.
Defined.
(** ** The orchestrator's state machine *)

Section UpdateFacts.
Import Types Hot.

Context {InputPath OutputError OutputAction DecoderError : Type}.
Context `{!Imports InputPath OutputError OutputAction DecoderError}.

Local Abbreviation Project := (Project InputPath OutputError).
Local Abbreviation Mutable := (Mutable InputPath OutputError).

Implicit Types (project : Project) (model : Model) (mutable : Mutable)
  (nextAction : NextAction) (cmds : list Cmd).

(** What [onWatcherEvent] answers when it answers: a restart that marks
    every output as dirty, or what its loop over the outputs found. *)
Lemma onWatcherEvent_cases (now : Date) project (eventName : WatcherEventName)
  (absolutePathString : string) nextAction nextAction' cmds :
  onWatcherEvent now project eventName absolutePathString nextAction
  = Some (nextAction', cmds) ->
  let event := makeWatcherEvent eventName absolutePathString now in
  (exists message,
      nextAction' =
      Restart match nextAction with
              | Restart eventsWithMessages =>
                  eventsWithMessages ++ [(event, message)]
              | _ => [(event, message)]
              end
      /\ cmds = [cmdMarkAsDirty (getFlatOutputs project)])
  \/ (exists dirtyOutputs,
         collectDirtyOutputs project event (getFlatOutputs project) []
         = Some dirtyOutputs
         /\ match dirtyOutputs with
            | _ :: _ =>
                cmds = [cmdMarkAsDirty dirtyOutputs]
                /\ nextAction' =
                   match nextAction with
                   | Restart _ => nextAction
                   | Compile events => Compile (events ++ [ofWatcher event])
                   | _ => Compile [ofWatcher event]
                   end
            | [] =>
                cmds = []
                /\ nextAction' =
                   match nextAction with
                   | Restart _ | Compile _ => nextAction
                   | NoAction => PrintNonInterestingEvents [event]
                   | PrintNonInterestingEvents events =>
                       PrintNonInterestingEvents (events ++ [event])
                   end
            end).
Proof.
  intros Hsome event. unfold onWatcherEvent in Hsome. fold event in Hsome.
  assert (Hrestart : forall message,
             Some (makeRestartNextAction message event nextAction project)
             = Some (nextAction', cmds) ->
             exists message0,
               nextAction' =
               Restart match nextAction with
                       | Restart eventsWithMessages =>
                           eventsWithMessages ++ [(event, message0)]
                       | _ => [(event, message0)]
                       end
               /\ cmds = [cmdMarkAsDirty (getFlatOutputs project)]).
  { intros message [= <- <-]. by exists message. }
  destruct (Js.endsWith absolutePathString ".elm").
  - unfold onElmFileWatcherEvent in Hsome.
    destruct (isRelatedToElmJsonsErrors _ _); [left; eauto|].
    destruct (collectDirtyOutputs project event (getFlatOutputs project) [])
      as [[|fo dirtyOutputs]|] eqn:Hloop; [| |left; eauto].
    + right. exists []. split; [done|].
      destruct nextAction; injection Hsome as <- <-; split; reflexivity.
    + right. exists (fo :: dirtyOutputs). split; [done|].
      destruct nextAction; injection Hsome as <- <-; split; reflexivity.
  - left.
    destruct (String.eqb (path_basename absolutePathString)
                "elm-tooling.json").
    { destruct eventName; eauto;
        destruct (String.eqb absolutePathString _); eauto; done. }
    destruct (String.eqb (path_basename absolutePathString) "elm.json");
      [|done].
    destruct eventName; eauto; destruct (existsb _ _); eauto; done.
Qed.

(** The loop of [onElmFileWatcherEvent] collects outputs of the project. *)
Lemma collectDirtyOutputs_subset project (event : WatcherEvent)
  (flat acc dirtyOutputs : list FlatOutput) :
  collectDirtyOutputs project event flat acc = Some dirtyOutputs ->
  forall fo, fo ∈ dirtyOutputs -> fo ∈ acc \/ fo ∈ flat.
Proof.
  revert acc. induction flat as [|fo' flat IH]; intros acc Hsome fo Hin.
  - cbn in Hsome. injection Hsome as <-. by left.
  - cbn in Hsome.
    destruct (match outputStates project !! fo_outputState fo' with
              | Some o => (inputs o, allRelatedElmFilePaths o)
              | None => ([], ∅)
              end) as [ins related].
    destruct (match we_eventName event with
              | removed => existsb (equalsInputPath (we_file event)) ins
              | _ => false
              end); [done|].
    destruct (IH _ Hsome fo Hin) as [Hacc|Hflat].
    + destruct (bool_decide _); [|by left].
      apply elem_of_app in Hacc as [?|Hone]; [by left|].
      apply list_elem_of_singleton in Hone as ->. right. apply list_elem_of_here.
    + right. by apply list_elem_of_further.
Qed.

(** What [onWebSocketConnected] answers: a status for the client and the
    next action as it was, or a new compilation of the output. *)
Lemma onWebSocketConnected_cases (now : Date) model (outputPath : OutputPath)
  (outputState : OutputRef) (status : OutputStatus OutputError)
  (compiledTimestamp : Z) :
  let r := onWebSocketConnected now model outputPath outputState status
             compiledTimestamp in
  hotStateTag (hotState r.1) = hotStateTag (hotState model)
  /\ ((nextAction r.1 = nextAction model
       /\ exists clientStatus, r.2 = [sendToOutput outputPath clientStatus])
      \/ (hotState r.1 = hotState model
          /\ urgency (nextAction model) <= 2
          /\ r.2 = [cmdMarkAsDirty [mkFlatOutput outputPath outputState]]
          /\ exists event,
               nextAction r.1 =
               match nextAction model with
               | Compile events => Compile (events ++ [event])
               | _ => Compile [event]
               end)).
Proof.
  unfold onWebSocketConnected, onWebSocketConnectedRecompileNeeded.
  destruct model as [na hs].
  destruct hs, status; cbn; try destruct (Z.eqb _ _); cbn;
    try (split; [done|]); destruct na; cbn; eauto 10.
Qed.

(** Once the orchestrator is restarting it stays so, whatever message
    comes: it starts no compilation and no installation, prints nothing,
    does not run the idle hook and does not throw; the only restart it asks
    for is the one it is waiting for. *)
Theorem restarting_is_absorbing project (msg : Msg) model
  (events : list AnyEvent) :
  hotState model = Restarting events ->
  let r := update project msg model in
  hotState r.1 = Restarting events
  /\ forall cmd,
       cmd ∈ r.2 ->
       match cmd with
       | cmdCompileAllOutputsAsNeeded _ _ | cmdInstallDependencies
       | cmdRunOnIdle | cmdThrow _ | cmdPrintCompileErrors _
       | cmdClearScreen | cmdLogInfoMessageWithTimeline _ _
       | cmdHandleElmWatchJsonWriteError => False
       | cmdRestart restartReasons => restartReasons = events
       | _ => True
       end.
Proof.
  intros Hhot. destruct model as [na hs]. cbn in Hhot. subst hs.
  destruct msg as [socket|date socket url|socket data|date prioritized
                  |date eventName path|installResult|date]; cbn.
  - split; [done|]. intros cmd Hin.
    apply list_elem_of_singleton in Hin as ->. done.
  - destruct (parseWebSocketConnectRequestUrl project url) eqn:Hparse;
      cbn; try (split; [done|]; intros cmd Hin;
                repeat (apply elem_of_cons in Hin as [->|Hin]; [done|]);
                by apply elem_of_nil in Hin).
    destruct (outputStates project !! outputState) as [o|]; cbn;
      (split; [done|]); intros cmd Hin;
      repeat (apply elem_of_cons in Hin as [->|Hin]; [done|]);
      by apply elem_of_nil in Hin.
  - destruct (parseWebSocketToServerMessage data) as [e| |[mode]]; cbn;
      (split; [done|]); intros cmd Hin;
      repeat (apply elem_of_cons in Hin as [->|Hin]; [done|]);
      by apply elem_of_nil in Hin.
  - destruct (Nat.eqb _ 0); cbn; (split; [done|]); intros cmd Hin;
      repeat (apply elem_of_cons in Hin as [->|Hin]; [done|]);
      by apply elem_of_nil in Hin.
  - destruct (onWatcherEvent date project eventName path na)
      as [[na' cmds]|] eqn:Hw; cbn.
    + split; [done|]. intros cmd Hin.
      apply elem_of_app in Hin as [Hin|Hin].
      * destruct (onWatcherEvent_cases _ _ _ _ _ _ _ Hw)
          as [(message & _ & ->)|(dirtyOutputs & _ & Hcase)].
        -- apply list_elem_of_singleton in Hin as ->. done.
        -- destruct dirtyOutputs; destruct Hcase as [-> _].
           ++ by apply elem_of_nil in Hin.
           ++ apply list_elem_of_singleton in Hin as ->. done.
      * apply list_elem_of_singleton in Hin as ->. done.
    + split; [done|]. intros cmd Hin. by apply elem_of_nil in Hin.
  - split; [done|]. intros cmd Hin.
    apply list_elem_of_singleton in Hin as ->. done.
  - unfold runNextAction, runCompile. cbn.
    destruct na; cbn; (split; [done|]); intros cmd Hin;
      by apply elem_of_nil in Hin.
Qed.

(** The output named in a successfully parsed connect URL is one of the
    project's outputs. *)
Lemma parse_success_is_a_flat_output project (urlString : string)
  (outputPath : OutputPath) (outputState : OutputRef) (compiledTimestamp : Z) :
  parseWebSocketConnectRequestUrl project urlString
  = ParseSuccess outputPath outputState compiledTimestamp ->
  mkFlatOutput outputPath outputState ∈ getFlatOutputs project.
Proof.
  unfold parseWebSocketConnectRequestUrl.
  destruct (negb (Js.startsWith urlString "/?")); [done|].
  destruct (decodeWebSocketConnectedParams _) as [e|params]; [done|].
  destruct (negb (String.eqb _ _)); [done|].
  destruct (List.find _ (getFlatOutputs project)) as [[op os]|] eqn:Hfind.
  - intros [= <- <- <-]. apply find_some in Hfind as [Hin _].
    by apply list_elem_of_In.
  - by destruct (List.find _ (disabledOutputs project)).
Qed.

(** What the [WebSocketConnected] case of [update] answers. *)
Lemma update_WebSocketConnected_cases project (date : Date)
  (socket : WebSocket) (urlString : string) model :
  let r := update project (WebSocketConnected date socket urlString) model in
  hotStateTag (hotState r.1) = hotStateTag (hotState model)
  /\ ((nextAction r.1 = nextAction model
       /\ forall cmd,
            cmd ∈ r.2 ->
            match cmd with
            | cmdWebSocketAdd _ | cmdWebSocketSend _ _
            | cmdWebSocketSendToOutput _ _ | cmdSleepBeforeNextAction => True
            | _ => False
            end)
      \/ (exists outputPath outputState event,
             mkFlatOutput outputPath outputState ∈ getFlatOutputs project
             /\ hotState r.1 = hotState model
             /\ urgency (nextAction model) <= 2
             /\ r.2 = [cmdWebSocketAdd
                         (mkConnection socket (aPath outputPath) date);
                       cmdMarkAsDirty [mkFlatOutput outputPath outputState];
                       cmdSleepBeforeNextAction]
             /\ nextAction r.1 =
                match nextAction model with
                | Compile events => Compile (events ++ [event])
                | _ => Compile [event]
                end)).
Proof.
  cbn zeta. unfold update.
  assert (Honly : forall cmds,
             (forall cmd, cmd ∈ cmds ->
                match cmd with
                | cmdWebSocketAdd _ | cmdWebSocketSend _ _
                | cmdWebSocketSendToOutput _ _ | cmdSleepBeforeNextAction =>
                    True
                | _ => False
                end) ->
             forall c cmd,
               cmd ∈ [cmdWebSocketAdd c] ++ cmds ++ [cmdSleepBeforeNextAction]
               -> match cmd with
                  | cmdWebSocketAdd _ | cmdWebSocketSend _ _
                  | cmdWebSocketSendToOutput _ _ | cmdSleepBeforeNextAction =>
                      True
                  | _ => False
                  end).
  { intros cmds Hcmds c cmd Hin.
    apply elem_of_app in Hin as [Hin|Hin];
      [by apply list_elem_of_singleton in Hin as ->|].
    apply elem_of_app in Hin as [Hin|Hin]; [by apply Hcmds|].
    by apply list_elem_of_singleton in Hin as ->. }
  destruct (parseWebSocketConnectRequestUrl project urlString)
    as [a b|a b c|a b c|a b|a b|outputPath outputState ts] eqn:Hparse;
    try (cbn; split; [done|]; left; split; [done|]; intros cmd Hin;
         repeat (apply elem_of_cons in Hin as [->|Hin]; [done|]);
         by apply elem_of_nil in Hin).
  destruct (outputStates project !! outputState) as [o|].
  - pose proof (onWebSocketConnected_cases date model outputPath outputState
                  (status o) ts) as Hcases.
    destruct (onWebSocketConnected date model outputPath outputState
                (status o) ts) as [nextModel cmds].
    cbn in Hcases. destruct Hcases as [Htag Hcases]. split; [done|].
    destruct Hcases as [[Hna [clientStatus ->]]|(Hhs & Hu & -> & event & Hna)].
    + left. split; [done|]. cbn [fst snd]. apply Honly.
      intros cmd Hin. by apply list_elem_of_singleton in Hin as ->.
    + right. exists outputPath, outputState, event.
      split; [by eapply parse_success_is_a_flat_output|]. done.
  - split; [done|]. left. split; [done|]. cbn [fst snd]. apply Honly.
    intros cmd Hin. by apply elem_of_nil in Hin.
Qed.

(** Only watcher events, new connections and the debounce timer touch the
    next action. *)
Lemma update_keeps_nextAction project (msg : Msg) model :
  match msg with
  | GotWatcherEvent _ _ _ | WebSocketConnected _ _ _
  | SleepBeforeNextActionDone _ => True
  | _ => nextAction (update project msg model).1 = nextAction model
  end.
Proof.
  destruct model as [na hs].
  destruct msg as [socket|date socket url|socket data|date prioritized
                  |date eventName path|installResult|date]; try done;
    unfold update; cbn [hotState nextAction]; repeat case_match.
  all: try done. by destruct message.
Qed.


(** Running commands one after the other. *)
Lemma runCmds_snoc (world : World) cmds (cmd : Cmd) mutable :
  runCmds world (cmds ++ [cmd]) mutable
  = ((runCmd world cmd (runCmds world cmds mutable).1).1,
     (runCmds world cmds mutable).2
     ++ (runCmd world cmd (runCmds world cmds mutable).1).2).
Proof.
  unfold runCmds. rewrite fold_left_app. cbn [fold_left].
  by destruct (runCmd world cmd _).
Qed.

(** Whenever a message other than the debounce timer's own changes the next
    action, the last command is [SleepBeforeNextAction]; running the
    commands then ends with setting a timer of 10 ms, which is the pending
    one. So no next action is left without a timer that will carry it
    out. *)
Theorem next_action_change_is_debounced project (msg : Msg) model :
  (forall date, msg <> SleepBeforeNextActionDone date) ->
  nextAction (update project msg model).1 <> nextAction model ->
  exists cmds,
    (update project msg model).2 = cmds ++ [cmdSleepBeforeNextAction]
    /\ forall (world : World) mutable,
         let r := runCmds world (update project msg model).2 mutable in
         watcherTimeoutId r.1 = Some (nextTimeoutId world)
         /\ List.last r.2 loggerClearScreen
            = setTimeout (nextTimeoutId world) 10.
Proof.
  intros Hmsg Hchanged.
  assert (Hcmds : exists cmds,
             (update project msg model).2
             = cmds ++ [cmdSleepBeforeNextAction]).
  { destruct msg as [socket|date socket url|socket data|date prioritized
                    |date eventName path|installResult|date].
    - by destruct Hchanged.
    - destruct (update_WebSocketConnected_cases project date socket url model)
        as [_ [[Hna _]|(op & os & event & _ & _ & _ & Hcmds & _)]];
        [by destruct Hchanged|].
      rewrite Hcmds. by exists [cmdWebSocketAdd (mkConnection socket (aPath op) date);
                                cmdMarkAsDirty [mkFlatOutput op os]].
    - destruct Hchanged.
      apply (update_keeps_nextAction project (WebSocketMessageReceived _ _)).
    - destruct Hchanged.
      apply (update_keeps_nextAction project (CompilationPartDone _ _)).
    - revert Hchanged. cbn.
      destruct (onWatcherEvent date project eventName path (nextAction model))
        as [[na' cmds]|]; [|done].
      intros _. by exists cmds.
    - destruct Hchanged.
      apply (update_keeps_nextAction project (InstallDependenciesDone _)).
    - by destruct (Hmsg date). }
  destruct Hcmds as [cmds Hcmds]. exists cmds. split; [done|].
  intros world mutable. rewrite Hcmds. cbn zeta. rewrite runCmds_snoc.
  cbn. split; [done|].
  rewrite app_assoc. by rewrite last_last.
Qed.

(** The orchestrator throws only when told that a compilation step or the
    installation of dependencies is done while it is in a state in which
    none was running; watcher events, WebSocket messages and the debounce
    timer never make it throw. *)
Theorem throw_only_in_impossible_states project (msg : Msg) model
  (error : Error) :
  cmdThrow error ∈ (update project msg model).2 ->
  (exists date prioritizedOutputs,
      msg = CompilationPartDone date prioritizedOutputs
      /\ (hotState model = Idle
          \/ exists start events, hotState model = Dependencies start events))
  \/ (exists installResult,
         msg = InstallDependenciesDone installResult
         /\ (hotState model = Idle
             \/ exists start events, hotState model = Compiling start events)).
Proof.
  destruct msg as [socket|date socket url|socket data|date prioritized
                  |date eventName path|installResult|date].
  - cbn. intros Hin. by apply list_elem_of_singleton in Hin.
  - destruct (update_WebSocketConnected_cases project date socket url model)
      as [_ [[_ Honly]|(op & os & event & _ & _ & _ & -> & _)]].
    + intros Hin. by destruct (Honly _ Hin).
    + intros Hin.
      repeat (apply elem_of_cons in Hin as [Hin|Hin]; [done|]).
      by apply elem_of_nil in Hin.
  - cbn. destruct (parseWebSocketToServerMessage data) as [e| |[mode]]; cbn;
      intros Hin; by apply list_elem_of_singleton in Hin.
  - intros Hin. left. exists date, prioritized. split; [done|].
    revert Hin. cbn. destruct (hotState model) as [start events|start events
                                                  | |events]; eauto.
    + repeat case_match; intros Hin;
        repeat (apply elem_of_cons in Hin as [Hin|Hin]; [done|]);
        by apply elem_of_nil in Hin.
    + case_match; intros Hin;
        repeat (apply elem_of_cons in Hin as [Hin|Hin]; [done|]);
        by apply elem_of_nil in Hin.
  - cbn.
    destruct (onWatcherEvent date project eventName path (nextAction model))
      as [[na' cmds]|] eqn:Hw; cbn; [|intros Hin; by apply elem_of_nil in Hin].
    intros Hin. apply elem_of_app in Hin as [Hin|Hin];
      [|by apply list_elem_of_singleton in Hin].
    destruct (onWatcherEvent_cases _ _ _ _ _ _ _ Hw)
      as [(message & _ & ->)|(dirtyOutputs & _ & Hcase)].
    + by apply list_elem_of_singleton in Hin.
    + destruct dirtyOutputs; destruct Hcase as [-> _].
      * by apply elem_of_nil in Hin.
      * by apply list_elem_of_singleton in Hin.
  - intros Hin. right. exists installResult. split; [done|].
    revert Hin. cbn. destruct (hotState model) as [start events|start events
                                                  | |events]; eauto.
    + destruct installResult; intros Hin;
        by apply list_elem_of_singleton in Hin.
    + intros Hin. by apply list_elem_of_singleton in Hin.
  - cbn. unfold runNextAction, runCompile.
    destruct model as [na hs]. cbn.
    destruct na, hs; cbn; intros Hin;
      repeat (apply elem_of_cons in Hin as [Hin|Hin]; [done|]);
      by apply elem_of_nil in Hin.
Qed.

(** Every output that [update] asks to mark as dirty is one of the
    project's outputs: the outputs related to a changed file, all outputs
    for a restart, or the output a client connected for. *)
Theorem only_project_outputs_are_marked_dirty project (msg : Msg) model
  (outputs : list FlatOutput) (fo : FlatOutput) :
  cmdMarkAsDirty outputs ∈ (update project msg model).2 ->
  fo ∈ outputs ->
  fo ∈ getFlatOutputs project.
Proof.
  destruct msg as [socket|date socket url|socket data|date prioritized
                  |date eventName path|installResult|date].
  - cbn. intros Hin. by apply list_elem_of_singleton in Hin.
  - destruct (update_WebSocketConnected_cases project date socket url model)
      as [_ [[_ Honly]|(op & os & event & Hflat & _ & _ & -> & _)]].
    + intros Hin. by destruct (Honly _ Hin).
    + intros Hin Hfo.
      apply elem_of_cons in Hin as [Hin|Hin]; [done|].
      apply elem_of_cons in Hin as [[= ->]|Hin].
      * by apply list_elem_of_singleton in Hfo as ->.
      * by apply list_elem_of_singleton in Hin.
  - cbn. destruct (parseWebSocketToServerMessage data) as [e| |[mode]]; cbn;
      intros Hin; by apply list_elem_of_singleton in Hin.
  - cbn. destruct (hotState model) as [start events|start events| |events].
    + repeat case_match; intros Hin;
        repeat (apply elem_of_cons in Hin as [Hin|Hin]; [done|]);
        by apply elem_of_nil in Hin.
    + intros Hin. by apply list_elem_of_singleton in Hin.
    + intros Hin. by apply list_elem_of_singleton in Hin.
    + case_match; intros Hin;
        repeat (apply elem_of_cons in Hin as [Hin|Hin]; [done|]);
        by apply elem_of_nil in Hin.
  - cbn.
    destruct (onWatcherEvent date project eventName path (nextAction model))
      as [[na' cmds]|] eqn:Hw; cbn; [|intros Hin; by apply elem_of_nil in Hin].
    intros Hin Hfo. apply elem_of_app in Hin as [Hin|Hin];
      [|by apply list_elem_of_singleton in Hin].
    destruct (onWatcherEvent_cases _ _ _ _ _ _ _ Hw)
      as [(message & _ & ->)|(dirtyOutputs & Hloop & Hcase)].
    + apply list_elem_of_singleton in Hin as [= ->]. done.
    + destruct dirtyOutputs as [|fo' dirtyOutputs]; destruct Hcase as [-> _].
      * by apply elem_of_nil in Hin.
      * apply list_elem_of_singleton in Hin as [= ->].
        destruct (collectDirtyOutputs_subset _ _ _ _ _ Hloop fo Hfo)
          as [Hnil|Hflat]; [by apply elem_of_nil in Hnil | done].
  - cbn. destruct (hotState model) as [start events|start events| |events].
    + intros Hin. by apply list_elem_of_singleton in Hin.
    + destruct installResult; intros Hin;
        by apply list_elem_of_singleton in Hin.
    + intros Hin. by apply list_elem_of_singleton in Hin.
    + intros Hin. by apply list_elem_of_singleton in Hin.
  - cbn. unfold runNextAction, runCompile.
    destruct model as [na hs]. cbn.
    destruct na, hs; cbn; intros Hin;
      repeat (apply elem_of_cons in Hin as [Hin|Hin]; [done|]);
      by apply elem_of_nil in Hin.
Qed.

(** The orchestrator becomes idle only when it is told that a compilation
    step is done and nothing is left to do, to wait for or to redo, or that
    the installation of dependencies failed; and each time it does, its
    last command runs the idle hook. *)
Theorem idle_is_reached_only_when_work_is_done project (msg : Msg) model :
  hotState model <> Idle ->
  hotState (update project msg model).1 = Idle ->
  List.last (update project msg model).2 cmdNoCmd = cmdRunOnIdle
  /\ ((exists date prioritizedOutputs start events,
          msg = CompilationPartDone date prioritizedOutputs
          /\ hotState model = Compiling start events
          /\ let outputActions :=
               getOutputActions project
                 match nextAction model with
                 | Compile _ => false
                 | _ => true
                 end prioritizedOutputs in
             actions outputActions = []
             /\ numExecuting outputActions = 0
             /\ numInterrupted outputActions = 0)
      \/ (msg = InstallDependenciesDone InstallError
          /\ exists start events, hotState model = Dependencies start events)).
Proof.
  intros Hnot. destruct model as [na hs]. cbn [hotState nextAction] in *.
  destruct msg as [socket|date socket url|socket data|date prioritized
                  |date eventName path|installResult|date].
  - done.
  - destruct (update_WebSocketConnected_cases project date socket url
                (mkModel na hs)) as [Htag _].
    intros Hidle. rewrite Hidle in Htag. by destruct hs.
  - cbn. by destruct (parseWebSocketToServerMessage data) as [e| |[mode]].
  - cbn. destruct hs as [start events|start events| |events]; try done.
    + destruct (actions _) as [|action actions'] eqn:Hactions; [|done].
      cbn.
      destruct (numExecuting _) as [|n] eqn:Hexec; [|done].
      destruct (numInterrupted _) as [|n] eqn:Hint; [|done].
      cbn. intros _. split; [done|]. left.
      exists date, prioritized, start, events. done.
    + by destruct (Nat.eqb _ _).
  - cbn.
    by destruct (onWatcherEvent date project eventName path na)
      as [[na' cmds]|].
  - cbn. destruct hs as [start events|start events| |events]; try done.
    destruct installResult; [|done]. intros _. split; [done|]. right. eauto.
  - cbn. unfold runNextAction, runCompile. cbn. by destruct na, hs.
Qed.



End UpdateFacts.

Lemma restarting_is_absorbing_witness :
  Hot.hotState
    (Hot.update HotExample.project
       (Hot.GotWatcherEvent 5 Hot.changed "/project/src/Main.elm")
       (Hot.mkModel Hot.NoAction (Hot.Restarting []))).1
  = Hot.Restarting [].
Proof.
  exact (proj1 (restarting_is_absorbing HotExample.project
                  (Hot.GotWatcherEvent 5%Z Hot.changed "/project/src/Main.elm")
                  (Hot.mkModel Hot.NoAction (Hot.Restarting [])) []
                  eq_refl)).
Defined.

Lemma next_action_change_is_debounced_witness :
  let msg := Hot.GotWatcherEvent 5 Hot.changed "/project/src/Main.elm" in
  Hot.nextAction (Hot.update HotExample.project msg HotExample.compiling).1
  <> Hot.NoAction
  /\ exists cmds,
       (Hot.update HotExample.project msg HotExample.compiling).2
       = cmds ++ [Hot.cmdSleepBeforeNextAction].
Proof.
  intros msg.
  assert (H1 : forall date, msg <> Hot.SleepBeforeNextActionDone date)
    by (intros date; discriminate).
  assert (H2 : Hot.nextAction
                 (Hot.update HotExample.project msg HotExample.compiling).1
               <> Hot.NoAction)
    by (vm_compute; discriminate).
  split; [exact H2|].
  destruct (next_action_change_is_debounced HotExample.project msg
              HotExample.compiling H1 H2) as (cmds & Hcmds & _).
  exists cmds. exact Hcmds.
Defined.

Lemma throw_only_in_impossible_states_witness :
  let msg := Hot.CompilationPartDone 5 [] in
  let model := Hot.mkModel Hot.NoAction Hot.Idle in
  (exists date prioritizedOutputs,
      msg = Hot.CompilationPartDone date prioritizedOutputs
      /\ (Hot.hotState model = Hot.Idle
          \/ exists start events,
               Hot.hotState model = Hot.Dependencies start events))
  \/ (exists installResult,
         msg = Hot.InstallDependenciesDone installResult
         /\ (Hot.hotState model = Hot.Idle
             \/ exists start events,
                  Hot.hotState model = Hot.Compiling start events)).
Proof.
  intros msg model.
  apply (throw_only_in_impossible_states HotExample.project msg model
           "HotState became Idle while compiling!").
  apply list_elem_of_here.
Defined.

Lemma only_project_outputs_are_marked_dirty_witness :
  let msg := Hot.GotWatcherEvent 5 Hot.changed "/project/src/Main.elm" in
  Hot.cmdMarkAsDirty [Hot.mkFlatOutput HotExample.mainJs 1]
  ∈ (Hot.update HotExample.project msg HotExample.compiling).2
  /\ Hot.mkFlatOutput HotExample.mainJs 1
     ∈ Hot.getFlatOutputs HotExample.project.
Proof.
  intros msg.
  assert (H1 : Hot.cmdMarkAsDirty [Hot.mkFlatOutput HotExample.mainJs 1]
               ∈ (Hot.update HotExample.project msg HotExample.compiling).2).
  { assert (E : (Hot.update HotExample.project msg HotExample.compiling).2
                = [Hot.cmdMarkAsDirty [Hot.mkFlatOutput HotExample.mainJs 1];
                   Hot.cmdSleepBeforeNextAction])
      by (vm_compute; reflexivity).
    rewrite E. apply list_elem_of_here. }
  split; [exact H1|].
  apply (only_project_outputs_are_marked_dirty HotExample.project msg
           HotExample.compiling [Hot.mkFlatOutput HotExample.mainJs 1]
           (Hot.mkFlatOutput HotExample.mainJs 1) H1).
  apply list_elem_of_here.
Defined.

Lemma idle_is_reached_only_when_work_is_done_witness :
  let msg := Hot.CompilationPartDone 30 [] in
  Hot.hotState HotExample.compiling <> Hot.Idle
  /\ Hot.hotState (Hot.update HotExample.project msg HotExample.compiling).1
     = Hot.Idle
  /\ List.last (Hot.update HotExample.project msg HotExample.compiling).2
       Hot.cmdNoCmd
     = Hot.cmdRunOnIdle.
Proof.
  intros msg.
  assert (H1 : Hot.hotState HotExample.compiling <> Hot.Idle)
    by discriminate.
  assert (H2 : Hot.hotState
                 (Hot.update HotExample.project msg HotExample.compiling).1
               = Hot.Idle)
    by reflexivity.
  split; [exact H1|]. split; [exact H2|].
  exact (proj1 (idle_is_reached_only_when_work_is_done HotExample.project msg
                  HotExample.compiling H1 H2)).
Defined.
(** ** The orchestrator's commands *)

Section RunCmdFacts.
Import Types Hot.

Context {InputPath OutputError OutputAction DecoderError : Type}.
Context `{!Imports InputPath OutputError OutputAction DecoderError}.

Local Abbreviation Project := (Project InputPath OutputError).
Local Abbreviation Mutable := (Mutable InputPath OutputError).
Local Abbreviation Effect := (Effect OutputAction).

Implicit Types (project : Project) (model : Model) (mutable : Mutable)
  (effects : list Effect) (world : World).

(** *** The priorities of the outputs *)

Lemma hashMapGet_set_eq (key : OutputPath) (value : Z)
  (entries : list (OutputPath * Z)) :
  hashMapGet key (hashMapSet key value entries) = Some value.
Proof.
  unfold hashMapGet. induction entries as [|[k v] entries IH]; cbn.
  - by rewrite bool_decide_eq_true_2.
  - destruct (decide (k = key)) as [->|Hne]; cbn.
    + by rewrite bool_decide_eq_true_2.
    + by rewrite bool_decide_eq_false_2.
Qed.

Lemma hashMapGet_set_ne (key other : OutputPath) (value : Z)
  (entries : list (OutputPath * Z)) :
  other <> key ->
  hashMapGet other (hashMapSet key value entries) = hashMapGet other entries.
Proof.
  intros Hne. unfold hashMapGet.
  induction entries as [|[k v] entries IH]; cbn.
  - by rewrite bool_decide_eq_false_2.
  - destruct (decide (k = key)) as [->|Hk]; cbn.
    + by rewrite !bool_decide_eq_false_2.
    + destruct (bool_decide (k = other)); [done|]. apply IH.
Qed.

Lemma hashMapSet_keys (key : OutputPath) (value : Z)
  (entries : list (OutputPath * Z)) :
  List.map fst (hashMapSet key value entries)
  = if decide (key ∈ List.map fst entries)
    then List.map fst entries
    else List.map fst entries ++ [key].
Proof.
  induction entries as [|[k v] entries IH]; cbn.
  - rewrite decide_False; [done | apply not_elem_of_nil].
  - destruct (decide (k = key)) as [->|Hne]; cbn.
    + rewrite decide_True; [done | apply list_elem_of_here].
    + rewrite IH. destruct (decide (key ∈ List.map fst entries)) as [Hin|Hin].
      * rewrite decide_True; [done | by apply list_elem_of_further].
      * rewrite decide_False; [done|].
        intros [?|?]%elem_of_cons; done.
Qed.

Lemma makePrioritizedOutputs_fold (connections : list WebSocketConnection)
  (map : list (OutputPath * Z)) (outputPath : OutputPath) :
  let map' :=
    fold_left
      (fun map c =>
         match c_outputPath c with
         | OutputPathError => map
         | aPath outputPath =>
             let previous := default 0%Z (hashMapGet outputPath map) in
             hashMapSet outputPath (Z.max (priority c) previous) map
         end)
      connections map in
  (NoDup (List.map fst map) -> NoDup (List.map fst map'))
  /\ hashMapGet outputPath map'
     = match connectionsOf outputPath connections with
       | [] => hashMapGet outputPath map
       | theirs =>
           Some (fold_left (fun best c => Z.max (priority c) best) theirs
                   (default 0%Z (hashMapGet outputPath map)))
       end.
Proof.
  revert map. induction connections as [|c connections IH]; intros map;
    [done|].
  cbn [fold_left]. unfold connectionsOf. cbn [List.filter].
  destruct (c_outputPath c) as [theirs|] eqn:Hc; [|apply IH].
  cbv zeta in IH |- *.
  match goal with
  | |- context [fold_left _ connections ?m] =>
      destruct (IH m) as [Hnodup Hget]
  end.
  split.
  - intros Hmap. apply Hnodup. rewrite hashMapSet_keys.
    destruct (decide _) as [Hin|Hin]; [done|].
    apply NoDup_app. split; [done|]. split; [|apply NoDup_singleton].
    intros k Hk Hk'. apply list_elem_of_singleton in Hk' as ->. done.
  - rewrite Hget. fold (connectionsOf outputPath connections).
    destruct (decide (theirs = outputPath)) as [->|Hne].
    + rewrite bool_decide_eq_true_2 by done.
      rewrite hashMapGet_set_eq. cbn [default fold_left].
      by destruct (connectionsOf outputPath connections).
    + rewrite bool_decide_eq_false_2 by done.
      by rewrite hashMapGet_set_ne.
Qed.

Lemma fold_max_priority (theirs : list WebSocketConnection) (best : Z) :
  (0 <= best)%Z ->
  fold_left (fun best c => Z.max (priority c) best) theirs best
  = Z.max best (fold_right Z.max 0%Z (List.map priority theirs)).
Proof.
  revert best. induction theirs as [|c theirs IH]; intros best Hbest; cbn.
  - lia.
  - rewrite IH; lia.
Qed.

(** [makePrioritizedOutputs] has one entry for each output that some
    connection is for, and none for any other; the priority of an output is
    the highest priority among its connections, and not below 0; the
    connections that failed to parse their URL count for nothing. *)
Theorem priorities_are_the_highest_per_output
  (connections : list WebSocketConnection) (outputPath : OutputPath) :
  NoDup (List.map fst (makePrioritizedOutputs connections))
  /\ hashMapGet outputPath (makePrioritizedOutputs connections)
     = match connectionsOf outputPath connections with
       | [] => None
       | theirs => Some (fold_right Z.max 0%Z (List.map priority theirs))
       end.
Proof.
  pose proof (makePrioritizedOutputs_fold connections [] outputPath) as Hfold.
  change (fold_left _ connections []) with (makePrioritizedOutputs connections)
    in Hfold.
  cbv zeta in Hfold. destruct Hfold as [Hnodup Hget].
  split; [apply Hnodup; constructor|].
  rewrite Hget.
  destruct (connectionsOf outputPath connections) as [|c theirs]; [done|].
  f_equal. change (default 0%Z (hashMapGet outputPath [])) with 0%Z.
  rewrite fold_max_priority by done.
  assert (0 <= fold_right Z.max 0 (List.map priority (c :: theirs)))%Z; [|lia].
  generalize (c :: theirs). intros l. induction l; cbn; lia.
Qed.

(** *** The debounce timer *)

Lemma pendingTimers_app effects (more : list Effect) (pending : list nat) :
  pendingTimers (effects ++ more) pending
  = pendingTimers more (pendingTimers effects pending).
Proof. unfold pendingTimers. by rewrite fold_left_app. Qed.

Lemma pendingTimers_sendToOutput (outputPath : OutputPath)
  (message : WebSocketToClientMessage)
  (connections : list WebSocketConnection) (pending : list nat) :
  pendingTimers
    (webSocketSendToOutput (OutputAction := OutputAction) outputPath message
       connections) pending
  = pending.
Proof.
  unfold webSocketSendToOutput.
  induction (List.filter _ connections) as [|c cs IH]; [done|]. apply IH.
Qed.

Lemma pendingTimers_actions (actions : list OutputAction)
  (pending : list nat) :
  pendingTimers (List.map handleOutputAction actions) pending = pending.
Proof. induction actions as [|a actions IH]; [done|]. apply IH. Qed.

Lemma timers_markAsDirty (outs : list FlatOutput) mutable effects
  (pending : list nat) :
  let r := fold_left markOneAsDirty outs (mutable, effects) in
  pendingTimers r.2 pending = pendingTimers effects pending
  /\ watcherTimeoutId r.1 = watcherTimeoutId mutable.
Proof.
  revert mutable effects. induction outs as [|fo outs IH];
    intros mutable effects; [done|].
  cbn [fold_left]. unfold markOneAsDirty at 2 4.
  match goal with
  | |- context [fold_left markOneAsDirty outs (?m, ?e)] =>
      destruct (IH m e) as [-> ->]
  end.
  by rewrite pendingTimers_app, pendingTimers_sendToOutput.
Qed.

Lemma timers_changeOne (mode : CompilationMode) (c : WebSocketConnection)
  (flat : list FlatOutput) (acc : Mutable * list Effect) (pending : list nat) :
  let r := fold_left (changeOne mode c) flat acc in
  pendingTimers r.2 pending = pendingTimers acc.2 pending
  /\ watcherTimeoutId r.1 = watcherTimeoutId acc.1.
Proof.
  revert acc. induction flat as [|fo flat IH]; intros [mutable effects];
    [done|].
  cbn [fold_left]. destruct (IH (changeOne mode c (mutable, effects) fo))
    as [-> ->].
  unfold changeOne.
  destruct (webSocketConnectionIsForOutputPath c (fo_outputPath fo)); [|done].
  cbn [fst snd]. by rewrite pendingTimers_app.
Qed.

Lemma timers_changeCompilationMode (socket : WebSocket)
  (mode : CompilationMode) (flat : list FlatOutput)
  (cs : list WebSocketConnection) (acc : Mutable * list Effect)
  (pending : list nat) :
  let r :=
    fold_left
      (fun acc c =>
         if Nat.eqb (webSocket c) socket
         then fold_left (changeOne mode c) flat acc
         else acc)
      cs acc in
  pendingTimers r.2 pending = pendingTimers acc.2 pending
  /\ watcherTimeoutId r.1 = watcherTimeoutId acc.1.
Proof.
  revert acc. induction cs as [|c cs IH]; intros acc; [done|].
  cbn [fold_left].
  match goal with
  | |- context [fold_left _ cs ?a] => destruct (IH a) as [-> ->]
  end.
  destruct (Nat.eqb (webSocket c) socket); [|done].
  apply timers_changeOne.
Qed.

(** One command: the pending timer is the one the mutable part names. *)
Lemma runCmd_timers world (cmd : Cmd) mutable :
  pendingTimers (runCmd world cmd mutable).2
    (option_list (watcherTimeoutId mutable))
  = option_list (watcherTimeoutId (runCmd world cmd mutable).1).
Proof.
  destruct cmd; cbn [runCmd]; try done.
  - destruct (timers_changeCompilationMode webSocket0 compilationMode0
                (getFlatOutputs (Hot.project mutable))
                (webSocketConnections mutable) (mutable, [])
                (option_list (watcherTimeoutId mutable))) as [-> ->].
    done.
  - destruct mode; cbn [fst snd]; rewrite ?pendingTimers_app;
      destruct (actions _) as [|a l];
      rewrite ?pendingTimers_actions; try done;
      by destruct (Nat.eqb _ 0).
  - destruct (m_elmWatchJsonWriteError mutable); [|done].
    cbn. by destruct (fsError world).
  - cbn [fst snd]. rewrite pendingTimers_app.
    destruct (lastInfoMessage mutable); [|done]. by destruct (isTTY world).
  - destruct (timers_markAsDirty outputs mutable []
                (option_list (watcherTimeoutId mutable))) as [-> ->].
    done.
  - by destruct (onIdle world) as [[]|].
  - cbn [fst snd watcherTimeoutId].
    destruct (watcherTimeoutId mutable) as [id|]; cbn; [|done].
    by rewrite Nat.eqb_refl.
  - apply pendingTimers_sendToOutput.
Qed.

(** However commands are run and timers fire, at most one debounce timer is
    pending, and it is the one that [watcherTimeoutId] names:
    [SleepBeforeNextAction] clears the timer set before it, and no other
    command sets or clears one. *)
Theorem at_most_one_timer_is_pending (happenings : list Happening) mutable :
  let r :=
    fold_left happen happenings
      (mutable, option_list (watcherTimeoutId mutable)) in
  r.2 = option_list (watcherTimeoutId r.1) /\ length r.2 <= 1.
Proof.
  cbn zeta.
  assert (Hinv : forall acc : Mutable * list nat,
             acc.2 = option_list (watcherTimeoutId acc.1) ->
             (fold_left happen happenings acc).2
             = option_list
                 (watcherTimeoutId (fold_left happen happenings acc).1)).
  { induction happenings as [|h happenings IH]; intros [m pending] Hacc;
      [done|].
    cbn [fold_left]. apply IH. cbn [fst snd] in Hacc. subst pending.
    destruct h as [world cmd|world]; cbn [happen fst snd].
    - apply runCmd_timers.
    - destruct (watcherTimeoutId m) eqn:E; cbn; rewrite ?E; reflexivity. }
  rewrite Hinv by done. split; [done|].
  destruct (watcherTimeoutId _); cbn; lia.
Qed.

(** *** Closed sockets *)

Lemma filter_is_sublist {A} (p : A -> bool) (l : list A) :
  sublist (List.filter p l) l.
Proof.
  induction l as [|a l IH]; cbn; [constructor|].
  destruct (p a); by constructor.
Qed.

Lemma sends_of_markAsDirty (outs : list FlatOutput) mutable effects
  (e : Effect) :
  e ∈ (fold_left markOneAsDirty outs (mutable, effects)).2 ->
  e ∈ effects
  \/ exists c message,
       c ∈ webSocketConnections mutable
       /\ e = webSocketSend (webSocket c) message.
Proof.
  revert mutable effects. induction outs as [|fo outs IH];
    intros mutable effects Hin; [by left|].
  cbn [fold_left] in Hin. unfold markOneAsDirty at 2 in Hin.
  apply IH in Hin as [Hin|(c & message & Hc & ->)].
  - apply elem_of_app in Hin as [Hin|Hin]; [by left|]. right.
    unfold webSocketSendToOutput in Hin.
    apply list_elem_of_fmap in Hin as (c & -> & Hc).
    apply list_elem_of_In, filter_In in Hc as [Hc _].
    exists c, (StatusChanged Busy). by rewrite list_elem_of_In.
  - right. by exists c, message.
Qed.

(** After a socket has closed, none of its connections is left, the
    connections of the other sockets are kept in their order, and neither
    marking outputs as dirty nor a message to an output sends anything to
    the closed socket. *)
Theorem closed_socket_gets_no_more_messages world project model
  (socket : WebSocket) mutable :
  let r :=
    runCmds world (update project (WebSocketClosed socket) model).2 mutable in
  (forall c, c ∈ webSocketConnections r.1 ->
             webSocket c <> socket /\ c ∈ webSocketConnections mutable)
  /\ (forall c, c ∈ webSocketConnections mutable -> webSocket c <> socket ->
                c ∈ webSocketConnections r.1)
  /\ sublist (webSocketConnections r.1) (webSocketConnections mutable)
  /\ forall world' (message : WebSocketToClientMessage),
       (forall outputs,
           webSocketSend socket message
           ∉ (runCmd world' (cmdMarkAsDirty outputs) r.1).2)
       /\ (forall outputPath message',
             webSocketSend socket message
             ∉ (runCmd world' (cmdWebSocketSendToOutput outputPath message')
                  r.1).2).
Proof.
  cbn.
  assert (Hgone : forall c,
             c ∈ List.filter (fun c => negb (Nat.eqb (webSocket c) socket))
                   (webSocketConnections mutable) ->
             webSocket c <> socket /\ c ∈ webSocketConnections mutable).
  { intros c Hc. apply list_elem_of_In, filter_In in Hc as [Hc Hne].
    rewrite <- list_elem_of_In in Hc. split; [|done].
    intros Heq. rewrite Heq, Nat.eqb_refl in Hne. done. }
  split; [done|]. split; [|split].
  - intros c Hc Hne. apply list_elem_of_In, filter_In.
    rewrite <- list_elem_of_In. split; [done|].
    apply Nat.eqb_neq in Hne. by rewrite Hne.
  - apply filter_is_sublist.
  - intros world' message. split.
    + intros outputs Hin.
      apply sends_of_markAsDirty in Hin as [Hin|(c & message' & Hc & Heq)];
        [by apply elem_of_nil in Hin|].
      injection Heq as Hsocket _. cbn in Hc.
      destruct (Hgone c Hc) as [Hne _]. done.
    + intros outputPath message' Hin. unfold webSocketSendToOutput in Hin.
      apply list_elem_of_fmap in Hin as (c & Heq & Hc).
      injection Heq as Hsocket _.
      apply list_elem_of_In, filter_In in Hc as [Hc _].
      rewrite <- list_elem_of_In in Hc. cbn in Hc.
      destruct (Hgone c Hc) as [Hne _]. done.
Qed.

(** *** Restart *)

(** A restart for reasons that do not touch [elm-tooling.json] closes the
    watcher but not the WebSocket server, and hands the server and the
    connections over to the next run. The next run uses them as they are:
    the same port goes to the state file, and once its dispatch is set it
    is called with every message still in the server's queue and then with
    those that arrived during the restart, so nothing a client sent in
    between is lost. *)
Theorem restart_hands_over_the_websocket_server world
  (restartReasons : list AnyEvent) mutable :
  elmToolingJsonChanged restartReasons = false ->
  exists webSocketState,
    (runCmd world (cmdRestart restartReasons) mutable).2
    = [resolveWhenClosed true false
         (RestartRun restartReasons (Some webSocketState))]
    /\ ws_webSocketConnections webSocketState = webSocketConnections mutable
    /\ thePort (ws_webSocketServer webSocketState)
       = thePort (webSocketServer mutable)
    /\ forall (arrived : list Msg) world' (freshServer : Server) project'
         (callback : nat),
         let server :=
           mkServer (thePort (ws_webSocketServer webSocketState))
             (WebSocketServer.onMsgs
                (queue (ws_webSocketServer webSocketState)) arrived) in
         let next :=
           (initMutable world' freshServer
              (Some (mkWebSocketState server
                       (ws_webSocketConnections webSocketState)))
              project') in
         webSocketConnections next.1 = webSocketConnections mutable
         /\ List.map (fun w => json_port w.2) (writesOf next.2)
            = [thePort (webSocketServer mutable)]
         /\ WebSocketServer.calls
              (WebSocketServer.setDispatch callback
                 (queue (webSocketServer next.1)))
            = WebSocketServer.calls (queue (webSocketServer mutable))
              ++ List.map (fun msg => (callback, msg))
                   (WebSocketServer.msgQueue (queue (webSocketServer mutable))
                    ++ arrived).
Proof.
  intros Hchanged. cbn [runCmd]. rewrite Hchanged.
  eexists. split; [reflexivity|]. cbn. split; [done|]. split; [done|].
  intros arrived world' freshServer project' callback.
  split; [done|]. split; [done|].
  destruct (queue (webSocketServer mutable)) as [d q called].
  unfold WebSocketServer.unsetDispatch. cbn.
  rewrite onMsgs_queued. done.
Qed.

(** *** A compilation with nothing to do *)

(** When [CompileAllOutputsAsNeeded] finds no action to run and nothing
    executing, it starts nothing and dispatches [CompilationPartDone]
    itself, with the priorities it computed; if nothing is interrupted
    either and no compilation is pending as the next action (so that
    [update] looks at the interrupted outputs as the command did), that
    message takes a compiling orchestrator back to idle and runs the idle
    hook. So a compilation that has nothing to do does not wait for a
    completion that will never come. *)
Theorem nothing_to_compile_ends_at_once world (mode : CompileMode) mutable
  model (start : Date) (events : list AnyEvent) :
  hotState model = Compiling start events ->
  urgency (nextAction model) <> 2 ->
  let outputActions :=
    getOutputActions (Hot.project mutable) true
      (makePrioritizedOutputs (webSocketConnections mutable)) in
  actions outputActions = [] ->
  numExecuting outputActions = 0 ->
  numInterrupted outputActions = 0 ->
  let r := runCmd world (cmdCompileAllOutputsAsNeeded mode true) mutable in
  let msg :=
    CompilationPartDone (now world)
      (makePrioritizedOutputs (webSocketConnections mutable)) in
  List.last r.2 loggerClearScreen = dispatchMsg msg
  /\ (forall action, handleOutputAction action ∉ r.2)
  /\ Hot.project r.1 = Hot.project mutable
  /\ hotState (update (Hot.project r.1) msg model).1 = Idle
  /\ List.last (update (Hot.project r.1) msg model).2 cmdNoCmd
     = cmdRunOnIdle.
Proof.
  intros Hhot Hna outputActions Hactions Hexec Hint. cbn zeta.
  cbn [runCmd]. fold outputActions. rewrite Hactions, Hexec.
  cbn [Nat.eqb].
  assert (Hupdate :
            hotState
              (update (Hot.project mutable)
                 (CompilationPartDone (now world)
                    (makePrioritizedOutputs (webSocketConnections mutable)))
                 model).1 = Idle
            /\ List.last
                 (update (Hot.project mutable)
                    (CompilationPartDone (now world)
                       (makePrioritizedOutputs (webSocketConnections mutable)))
                    model).2 cmdNoCmd = cmdRunOnIdle).
  { cbn [update]. rewrite Hhot.
    assert (Hflag : match nextAction model with
                    | Compile _ => false
                    | _ => true
                    end = true)
      by (destruct (nextAction model); cbn in Hna; done).
    rewrite Hflag. fold outputActions. rewrite Hactions, Hexec, Hint. done. }
  destruct mode; cbn [fst snd Hot.project];
    (split; [by rewrite ?last_last|]);
    (split; [intros action Hin;
             repeat (apply elem_of_cons in Hin as [Hin|Hin]; [done|]);
             by apply elem_of_nil in Hin|]);
    (split; [done|]); exact Hupdate.
Qed.

End RunCmdFacts.

Lemma restart_hands_over_the_websocket_server_witness :
  let restartReasons :=
    [Hot.ofWatcher
       (Hot.mkWatcherEvent 5 Hot.changed
          (Types.mkAbsolutePath "/project/elm.json"))] in
  Hot.elmToolingJsonChanged restartReasons = false
  /\ exists webSocketState,
       (Hot.runCmd HotExample.world (Hot.cmdRestart restartReasons)
          HotExample.mutable).2
       = [Hot.resolveWhenClosed true false
            (Hot.RestartRun restartReasons (Some webSocketState))]
       /\ Hot.ws_webSocketConnections webSocketState
          = Hot.webSocketConnections HotExample.mutable.
Proof.
  intros restartReasons.
  assert (H1 : Hot.elmToolingJsonChanged restartReasons = false)
    by reflexivity.
  split; [exact H1|].
  destruct (restart_hands_over_the_websocket_server HotExample.world
              restartReasons HotExample.mutable H1)
    as (webSocketState & Heffects & Hconnections & _).
  exists webSocketState. split; [exact Heffects | exact Hconnections].
Defined.

Lemma nothing_to_compile_ends_at_once_witness :
  let msg :=
    Hot.CompilationPartDone (Hot.now HotExample.world)
      (Hot.makePrioritizedOutputs
         (Hot.webSocketConnections HotExample.mutable)) in
  Hot.hotState HotExample.compiling = Hot.Compiling 0 []
  /\ List.last
       (Hot.runCmd HotExample.world
          (Hot.cmdCompileAllOutputsAsNeeded Hot.ContinueCompilation true)
          HotExample.mutable).2
       Hot.loggerClearScreen
     = Hot.dispatchMsg msg.
Proof.
  intros msg. split; [reflexivity|].
  exact (proj1 (nothing_to_compile_ends_at_once HotExample.world
                  Hot.ContinueCompilation HotExample.mutable
                  HotExample.compiling 0%Z [] eq_refl
                  ltac:(discriminate) eq_refl eq_refl eq_refl)).
Defined.
(** ** Rounds of the compile loop *)

Section RoundFacts.
Import Types Compile.

Context {Payload Problem ElmJsonsError : Type}.

Implicit Types (st : State Payload Problem ElmJsonsError)
  (l : Loop Payload Problem ElmJsonsError)
  (o : OutputState Payload Problem)
  (entry : string * OutputPath * Ref).

(** Entering a callback leaves no dirty flag on its output and touches no
    other flag. *)
Lemma enter_dirty (index : nat) entry l :
  let l' := enter index entry l in
  elmJsons (state l') = elmJsons (state l)
  /\ length (tasks l') = length (tasks l)
  /\ forall r,
       isDirty (state l') r
       = if decide (r = entry.2) then false else isDirty (state l) r.
Proof.
  destruct entry as [[elmJsonPath outputPath] r0].
  unfold enter, startElmMake, pickUp. cbn [snd].
  destruct (outputStates (state l) !! r0) as [o|] eqn:Ho.
  - destruct (dirty o) eqn:Hd; cbn.
    + rewrite lookup_insert_eq. cbn.
      split; [done|]. split; [by rewrite length_insert|].
      intros r. unfold isDirty. cbn.
      destruct (decide (r = r0)) as [->|Hne].
      * by rewrite lookup_insert_eq.
      * by rewrite lookup_insert_ne.
    + split; [done|]. split; [done|]. intros r.
      destruct (decide (r = r0)) as [->|Hne]; [|done].
      unfold isDirty. by rewrite Ho.
  - split; [done|]. split; [done|]. intros r.
    destruct (decide (r = r0)) as [->|Hne]; [|done].
    unfold isDirty. by rewrite Ho.
Qed.

Lemma enter_fold_dirty (entries : list (nat * (string * OutputPath * Ref))) l :
  let l' :=
    fold_left (fun l' '(index, entry) => enter index entry l') entries l in
  elmJsons (state l') = elmJsons (state l)
  /\ length (tasks l') = length (tasks l)
  /\ forall r,
       isDirty (state l') r
       = if decide (r ∈ List.map (fun ie => ie.2.2) entries) then false
         else isDirty (state l) r.
Proof.
  revert l. induction entries as [|[index entry] entries IH]; intros l.
  - cbn. split; [done|]. split; [done|]. intros r.
    rewrite decide_False; [done | apply not_elem_of_nil].
  - cbn [fold_left List.map]. cbv zeta in IH |- *.
    destruct (IH (enter index entry l)) as (Hj & Hlen & Hd).
    destruct (enter_dirty index entry l) as (Hj1 & Hlen1 & Hd1).
    rewrite Hj, Hlen. split; [done|]. split; [done|].
    intros r. rewrite Hd, Hd1. cbn [snd].
    destruct (decide (r ∈ List.map (fun ie => ie.2.2) entries)) as [Hin|Hin].
    + rewrite decide_True; [done | by apply list_elem_of_further].
    + destruct (decide (r = entry.2)) as [->|Hne].
      * rewrite decide_True; [done | apply list_elem_of_here].
      * rewrite decide_False; [done|]. intros [?|?]%elem_of_cons; done.
Qed.

Lemma someOutputIsDirty_false st :
  (forall elmJsonPath outputs outputPath r,
      (elmJsonPath, outputs) ∈ elmJsons st -> (outputPath, r) ∈ outputs ->
      isDirty st r = false) ->
  someOutputIsDirty st = false.
Proof.
  intros Hclean. unfold someOutputIsDirty.
  apply not_true_is_false. intros Hsome.
  apply existsb_exists in Hsome as ([elmJsonPath outputs] & Hin & Hsome).
  apply existsb_exists in Hsome as ([outputPath r] & Hin' & Hd).
  rewrite <- list_elem_of_In in Hin. rewrite <- list_elem_of_In in Hin'.
  by rewrite (Hclean _ _ _ _ Hin Hin') in Hd.
Qed.

Lemma toCompile_intro st (elmJsonPath : string)
  (outputs : list (OutputPath * Ref)) (outputPath : OutputPath) (r : Ref) :
  (elmJsonPath, outputs) ∈ elmJsons st -> (outputPath, r) ∈ outputs ->
  (elmJsonPath, outputPath, r) ∈ toCompile st.
Proof.
  intros Hin Hin'. unfold toCompile. rewrite list_elem_of_In, in_flat_map.
  exists (elmJsonPath, outputs). split; [by apply list_elem_of_In|].
  apply in_map_iff. exists (outputPath, r). split; [done|].
  by apply list_elem_of_In.
Qed.

(** An event other than a mark leaves every dirty flag as it is. *)
Lemma step_keeps_dirty l (e : Event Payload Problem) l' :
  step l e = Some l' ->
  (forall r, e <> MarkedDirty r) ->
  elmJsons (state l') = elmJsons (state l)
  /\ forall r, isDirty (state l') r = isDirty (state l) r.
Proof.
  destruct e as [index result|index result|r0|]; cbn; intros Hstep Hnot.
  - destruct (tasks l !! index) as [[]|]; try done.
    destruct (toCompile (state l) !! index) as [entry|]; [|done].
    injection Hstep as <-.
    apply (completion_keeps_dirty l index entry result).
  - destruct (tasks l !! index) as [[]|]; try done.
    destruct (toCompile (state l) !! index) as [entry|]; [|done].
    injection Hstep as <-.
    apply (completion_keeps_dirty l index entry result).
  - by destruct (Hnot r0).
  - by injection Hstep as <-.
Qed.

Lemma run_keeps_dirty (events : list (Event Payload Problem)) l l' :
  run l events = Some l' ->
  (forall r, MarkedDirty r ∉ events) ->
  elmJsons (state l') = elmJsons (state l)
  /\ forall r, isDirty (state l') r = isDirty (state l) r.
Proof.
  revert l. induction events as [|e events IH]; intros l Hrun Hnot.
  - by injection Hrun as <-.
  - cbn in Hrun. destruct (step l e) as [l1|] eqn:Hstep; [|done].
    destruct (step_keeps_dirty l e l1 Hstep) as [Hj Hd].
    { intros r ->. apply (Hnot r), list_elem_of_here. }
    destruct (IH l1 Hrun) as [Hj' Hd'].
    { intros r Hin. by apply (Hnot r), list_elem_of_further. }
    rewrite Hj', Hj. split; [done|]. intros r. by rewrite Hd', Hd.
Qed.

(** Starting a round leaves no output dirty: every callback that finds its
    output dirty clears the flag before its first [await]. So after a round
    during which nothing was marked as dirty (whatever the compilers and
    postprocessors answered, and whether or not a restart was asked for),
    no output is dirty, and once every callback has returned the [while]
    test ends the loop. The round has one task for each entry of
    [toCompile]. *)
Theorem round_without_new_changes_ends_the_loop
  l (events : list (Event Payload Problem)) l' :
  run (enterAll l) events = Some l' ->
  (forall r, MarkedDirty r ∉ events) ->
  someOutputIsDirty (state (enterAll l)) = false
  /\ length (tasks (enterAll l)) = length (toCompile (state l))
  /\ someOutputIsDirty (state l') = false
  /\ (allReturned l' = true -> afterRound l' = Some (LoopDone l')).
Proof.
  intros Hrun Hnot.
  pose proof (enter_fold_dirty
                (imap (fun index entry => (index, entry))
                      (toCompile (state l)))
                (mkLoop (state l)
                        (List.map (fun _ => Returned) (toCompile (state l)))
                        (statusLines l) (calls l))) as Hfold.
  cbv zeta in Hfold. fold (enterAll l) in Hfold.
  destruct Hfold as (Hj & Hlen & Hd). cbn [state tasks] in Hj, Hlen, Hd.
  assert (Hclean : someOutputIsDirty (state (enterAll l)) = false).
  { apply someOutputIsDirty_false.
    intros elmJsonPath outputs outputPath r Hin Hin'.
    rewrite Hj in Hin. rewrite Hd. rewrite decide_True; [done|].
    pose proof (toCompile_intro _ _ _ _ _ Hin Hin') as Hentry.
    apply list_elem_of_lookup_1 in Hentry as [index Hindex].
    apply list_elem_of_fmap.
    exists (index, (elmJsonPath, outputPath, r)). split; [done|].
    apply elem_of_lookup_imap. eauto. }
  split; [done|]. split; [by rewrite Hlen, length_map|].
  destruct (run_keeps_dirty events _ _ Hrun Hnot) as [Hj' Hd'].
  assert (Hclean' : someOutputIsDirty (state l') = false).
  { by rewrite (someOutputIsDirty_ext _ _ Hj' Hd'). }
  split; [done|]. intros Hall. unfold afterRound, whileTest.
  by rewrite Hall, Hclean'.
Qed.

End RoundFacts.

Lemma round_without_new_changes_ends_the_loop_witness :
  let events :=
    [Compile.ElmMakeDone 0 Compile.Success;
     Compile.PostprocessDone 0 Compile.Success] in
  exists l',
    Compile.run (Compile.enterAll Compile.beforeLoop) events = Some l'
    /\ Compile.afterRound l' = Some (Compile.LoopDone l').
Proof.
  intros events.
  destruct (Compile.run (Compile.enterAll Compile.beforeLoop) events)
    as [l'|] eqn:Hrun; [|vm_compute in Hrun; discriminate Hrun].
  exists l'. split; [reflexivity|].
  assert (Hnot : forall r, Compile.MarkedDirty r ∉ events).
  { intros r Hin.
    repeat (apply elem_of_cons in Hin as [Hin|Hin]; [discriminate Hin|]).
    by apply elem_of_nil in Hin. }
  apply (round_without_new_changes_ends_the_loop Compile.beforeLoop events l'
           Hrun Hnot).
  vm_compute in Hrun. injection Hrun as <-. reflexivity.
Defined.

(** ** The status line *)

Section StatusLineFacts.
Import Compile.

Lemma slice0_length (end_ : Z) (s : Js.Utf16) :
  (0 <= end_ <= Z.of_nat (length s))%Z ->
  Z.of_nat (length (Js.slice0 end_ s)) = end_.
Proof.
  intros Hend. unfold Js.slice0.
  destruct (Z.ltb_spec end_ 0) as [?|_]; [lia|].
  rewrite length_take. lia.
Qed.

Lemma truncate_fits (maxWidth : Z) (fancy : bool) (line : Js.Utf16) :
  (3 <= maxWidth)%Z ->
  (columns fancy (truncate maxWidth fancy line) <= maxWidth)%Z
  /\ ((columns fancy line <= maxWidth)%Z ->
      truncate maxWidth fancy line = line)
  /\ ((maxWidth < columns fancy line)%Z ->
      exists kept,
        truncate maxWidth fancy line
        = take kept line ++ (if fancy then ellipsis else Js.utf16 "...")
        /\ columns fancy (truncate maxWidth fancy line) = maxWidth).
Proof.
  intros Hwidth. unfold truncate, columns.
  destruct fancy.
  - destruct (Z.leb_spec (Z.of_nat (length line) + 1) maxWidth) as [Hfits|Hnot].
    + split; [done|]. split; [done|]. lia.
    + assert (Hlen : Z.of_nat (length (Js.slice0 (maxWidth - 2) line))
                     = (maxWidth - 2)%Z) by (apply slice0_length; lia).
      rewrite length_app, Nat2Z.inj_add, Hlen. cbn [length ellipsis].
      split; [lia|]. split; [lia|]. intros _.
      exists (Z.to_nat (maxWidth - 2)). split; [|lia].
      unfold Js.slice0. by destruct (Z.ltb_spec (maxWidth - 2) 0); [lia|].
  - destruct (Z.leb_spec (Z.of_nat (length line)) maxWidth) as [Hfits|Hnot].
    + split; [done|]. split; [done|]. lia.
    + assert (Hlen : Z.of_nat (length (Js.slice0 (maxWidth - 3) line))
                     = (maxWidth - 3)%Z) by (apply slice0_length; lia).
      rewrite length_app, Nat2Z.inj_add, Hlen. cbn [length Js.utf16].
      split; [cbn; lia|]. split; [lia|]. intros _.
      exists (Z.to_nat (maxWidth - 3)). split; [|cbn; lia].
      unfold Js.slice0. by destruct (Z.ltb_spec (maxWidth - 3) 0); [lia|].
Qed.

(** On a terminal of at least three columns a status line never takes more
    columns than the terminal has, counting as the code does (one column
    for every UTF-16 code unit, one more for the emoji of a fancy line): a
    line that fits is printed whole, and a longer one is cut to exactly the
    width of the terminal, its end replaced by an ellipsis. *)
Theorem status_line_fits_the_terminal (output : Js.Utf16) (kind : StatusKind)
  (maxWidth : Z) (fancy : bool) :
  (3 <= maxWidth)%Z ->
  (columns fancy (statusLine output kind maxWidth fancy) <= maxWidth)%Z
  /\ exists full,
       (forall wide, (columns fancy full <= wide)%Z ->
                     statusLine output kind wide fancy = full)
       /\ ((maxWidth < columns fancy full)%Z ->
           exists kept,
             statusLine output kind maxWidth fancy
             = take kept full ++ (if fancy then ellipsis else Js.utf16 "...")
             /\ columns fancy (statusLine output kind maxWidth fancy)
                = maxWidth).
Proof.
  intros Hwidth.
  assert (Hline : forall line : Js.Utf16,
             (columns fancy (truncate maxWidth fancy line) <= maxWidth)%Z
             /\ exists full,
                  (forall wide, (columns fancy full <= wide)%Z ->
                                truncate wide fancy line = full)
                  /\ ((maxWidth < columns fancy full)%Z ->
                      exists kept,
                        truncate maxWidth fancy line
                        = take kept full
                          ++ (if fancy then ellipsis else Js.utf16 "...")
                        /\ columns fancy (truncate maxWidth fancy line)
                           = maxWidth)).
  { intros line.
    destruct (truncate_fits maxWidth fancy line Hwidth)
      as (Hfits & _ & Hcut).
    split; [done|]. exists line. split; [|done].
    intros wide Hwide. unfold truncate, columns in *.
    destruct fancy.
    - by destruct (Z.leb_spec (Z.of_nat (length line) + 1) wide); [|lia].
    - by destruct (Z.leb_spec (Z.of_nat (length line)) wide); [|lia]. }
  destruct kind; apply Hline.
Qed.

End StatusLineFacts.

Lemma status_line_fits_the_terminal_witness :
  (Compile.columns true
     (Compile.statusLine (Js.utf16 "build/main.js") Compile.kindElmMake 10
        true)
   <= 10)%Z.
Proof.
  exact (proj1 (status_line_fits_the_terminal
                  (Js.utf16 "build/main.js") Compile.kindElmMake 10 true
                  ltac:(lia))).
Defined.

(** ** Installing the dependencies *)

Section InstallFacts.
Import Types Compile.

Context {Payload Problem ElmJsonsError : Type}.
Variables (fancy isInteractive : bool).
Variable answer : nat -> bool * InstallResult.

Implicit Types (st : State Payload Problem ElmJsonsError).




(** When [elm] answers before the loading message is due and has nothing
    to say (an invalid [elm.json], which is left to the compilation proper,
    or a success without output), the installation prints nothing at all;
    and on a terminal that is not interactive the cursor is never moved,
    whatever the answers. *)
Theorem quiet_install_prints_nothing (total index : nat)
  (elmJsonPaths : list string) :
  let r := installLoop fancy isInteractive answer total index elmJsonPaths in
  ((forall i, i < length elmJsonPaths ->
              answer (index + i) = (false, ElmJsonError)
              \/ answer (index + i) = (false, InstallSuccess "")) ->
   r = (List.map spawnElmInstall elmJsonPaths, false))
  /\ (isInteractive = false -> moveCursorUpAndClearLine ∉ r.1).
Proof.
  cbn zeta. split.
  - revert index. induction elmJsonPaths as [|p rest IH]; intros index Hquiet;
      [done|].
    cbn [installLoop List.map].
    assert (Hrest : installLoop fancy isInteractive answer total (S index) rest
                    = (List.map spawnElmInstall rest, false)).
    { apply IH. intros i Hi.
      replace (S index + i) with (index + S i) by lia.
      apply Hquiet. cbn. lia. }
    destruct (Hquiet 0 ltac:(cbn; lia)) as [Ha|Ha];
      rewrite Nat.add_0_r in Ha; rewrite Ha, Hrest; done.
  - intros ->. revert index.
    induction elmJsonPaths as [|p rest IH]; intros index;
      [apply not_elem_of_nil|].
    cbn [installLoop]. destruct (answer index) as [didWrite result].
    rewrite andb_false_r.
    destruct result as [|out|error].
    + specialize (IH (S index)).
      destruct (installLoop fancy false answer total (S index) rest)
        as [later failed].
      cbn [fst] in *. intros Hin.
      repeat (apply elem_of_app in Hin as [Hin|Hin]);
        try (by destruct didWrite; repeat (apply elem_of_cons in Hin as [?|Hin]; [done|]); apply elem_of_nil in Hin).
      done.
    + specialize (IH (S index)).
      destruct (installLoop fancy false answer total (S index) rest)
        as [later failed].
      cbn [fst] in *. intros Hin.
      repeat (apply elem_of_app in Hin as [Hin|Hin]);
        try (by destruct didWrite, (negb (String.eqb out "")); repeat (apply elem_of_cons in Hin as [?|Hin]; [done|]); apply elem_of_nil in Hin).
      done.
    + cbn [fst]. intros Hin.
      repeat (apply elem_of_app in Hin as [Hin|Hin]);
        by destruct didWrite; repeat (apply elem_of_cons in Hin as [?|Hin]; [done|]); apply elem_of_nil in Hin.
Qed.

End InstallFacts.

(** ** The summary of the first compile engine *)

Section SummaryFacts.
Import Types CompileSummary.

Context {Problem : Type}.
Variable renderProblem : string -> Problem -> string.
Variable outputPathToString : OutputPath -> string.

Local Abbreviation State := (State (Problem := Problem)).
Local Abbreviation Summary := Summary.
Local Abbreviation OutputState := (OutputState (Problem := Problem)).

Implicit Types (state : State) (summary : Summary)
  (outputs : list (OutputPath * OutputState)).

Lemma setAdd_NoDup (set : list string) (x : string) :
  NoDup set -> NoDup (Js.setAdd set x).
Proof.
  intros Hset. unfold Js.setAdd. destruct (decide _) as [Hin|Hin]; [done|].
  apply NoDup_app. split; [done|]. split; [|apply NoDup_singleton].
  intros y Hy Hy'. apply list_elem_of_singleton in Hy' as ->. done.
Qed.

Lemma summarizeOutput_fold outputs summary :
  let summary' := fold_left (summarizeOutput renderProblem) outputs summary in
  succeeded summary'
  = succeeded summary ++ List.map fst (List.filter isSuccess outputs)
  /\ failed summary'
     = failed summary ++ List.map fst (List.filter isFailed outputs)
  /\ length (messages summary') + length (List.filter hasCompileErrors outputs)
     = length (messages summary) + length (List.filter isFailed outputs)
  /\ (NoDup (compileErrors summary) -> NoDup (compileErrors summary')).
Proof.
  revert summary. induction outputs as [|[outputPath outputState] outputs IH];
    intros summary.
  - cbn. by rewrite !app_nil_r.
  - cbn [fold_left]. cbv zeta in IH |- *.
    destruct (IH (summarizeOutput renderProblem summary
                    (outputPath, outputState))) as (Hs & Hf & Hm & Hc).
    rewrite Hs, Hf. clear Hs Hf IH.
    unfold isSuccess, isFailed, hasCompileErrors in *.
    cbn [List.filter snd] in *.
    unfold summarizeOutput in *.
    destruct (status outputState) as [| | | | | | | |errors];
      cbn [succeeded failed messages compileErrors fail List.map fst length]
        in *;
      rewrite <- ?app_assoc; cbn [app];
      (split; [done|]); (split; [done|]);
      rewrite ?length_app in Hm; cbn [length] in Hm; (split; [lia|]);
      try done.
    intros Hnodup. apply Hc. clear Hc Hm.
    revert Hnodup. generalize (compileErrors summary).
    induction errors as [|error errors IHe]; intros set Hset; [done|].
    cbn [fold_left]. apply IHe.
    revert Hset. generalize (path error). intros p. revert set.
    induction (problems error) as [|problem ps IHp]; intros set Hset; [done|].
    cbn [fold_left]. by apply IHp, setAdd_NoDup.
Qed.

Lemma summarize_spec state :
  let summary := summarize renderProblem state in
  succeeded summary = List.map fst (List.filter isSuccess (outputsOf state))
  /\ failed summary
     = elmJsonsErrors state
       ++ List.map fst (List.filter isFailed (outputsOf state))
  /\ length (messages summary)
     + length (List.filter hasCompileErrors (outputsOf state))
     = length (failed summary)
  /\ NoDup (compileErrors summary).
Proof.
  unfold summarize, outputsOf.
  assert (Herrors : forall (paths : list OutputPath) summary,
             let summary' :=
               fold_left (fun summary outputPath => fail outputPath summary)
                         paths summary in
             succeeded summary' = succeeded summary
             /\ failed summary' = failed summary ++ paths
             /\ length (messages summary')
                = length (messages summary) + length paths
             /\ compileErrors summary' = compileErrors summary).
  { induction paths as [|p paths IH]; intros summary.
    - cbn. by rewrite app_nil_r, Nat.add_0_r.
    - cbn [fold_left]. cbv zeta in IH |- *.
      destruct (IH (fail p summary)) as (-> & -> & -> & ->).
      cbn. rewrite <- app_assoc, length_app. cbn. split; [done|].
      split; [done|]. split; [lia | done]. }
  destruct (Herrors (elmJsonsErrors state) (mkSummary [] [] [] []))
    as (Hs0 & Hf0 & Hm0 & Hc0).
  cbv zeta in *. cbn [succeeded failed messages compileErrors app length]
    in Hs0, Hf0, Hm0, Hc0.
  revert Hs0 Hf0 Hm0 Hc0.
  generalize (fold_left (fun summary outputPath => fail outputPath summary)
                (elmJsonsErrors state) (mkSummary [] [] [] [])).
  intros summary0 Hs0 Hf0 Hm0 Hc0.
  assert (Hall : forall (ejs : list (string * list (OutputPath * OutputState)))
                        summary,
             let summary' :=
               fold_left
                 (fun summary '(_, outputs) =>
                    fold_left (summarizeOutput renderProblem) outputs summary)
                 ejs summary in
             let outputs := flat_map snd ejs in
             succeeded summary'
             = succeeded summary ++ List.map fst (List.filter isSuccess outputs)
             /\ failed summary'
                = failed summary ++ List.map fst (List.filter isFailed outputs)
             /\ length (messages summary')
                + length (List.filter hasCompileErrors outputs)
                = length (messages summary)
                  + length (List.filter isFailed outputs)
             /\ (NoDup (compileErrors summary) ->
                 NoDup (compileErrors summary'))).
  { induction ejs as [|[elmJsonPath outputs] rest IH]; intros summary.
    - cbn. by rewrite !app_nil_r.
    - cbn [fold_left flat_map snd]. cbv zeta in IH |- *.
      destruct (IH (fold_left (summarizeOutput renderProblem) outputs summary))
        as (Hs & Hf & Hm & Hc).
      destruct (summarizeOutput_fold outputs summary)
        as (Hs1 & Hf1 & Hm1 & Hc1).
      rewrite Hs, Hf, Hs1, Hf1, !List.filter_app, !map_app, <- !app_assoc.
      split; [done|]. split; [done|].
      rewrite !length_app. split; [lia | auto]. }
  destruct (Hall (elmJsons state) summary0) as (Hs & Hf & Hm & Hc).
  cbv zeta in *. rewrite Hs, Hf, Hs0, Hf0. cbn [app].
  split; [done|]. split; [done|].
  rewrite length_app, length_map. split; [lia|].
  apply Hc. rewrite Hc0. constructor.
Qed.

Lemma run_assigns_the_answers
  (make : string -> OutputPath -> OutputState -> OutputStatus) state :
  List.map (fun output => (output.1, status output.2))
    (outputsOf (run renderProblem outputPathToString make state).1.1)
  = answersOf make state.
Proof.
  unfold run, outputsOf, answersOf. cbn [fst elmJsons].
  induction (elmJsons state) as [|[elmJsonPath outputs] rest IH]; [done|].
  cbn [List.map flat_map snd]. rewrite map_app, IH. f_equal.
  clear IH. induction outputs as [|[outputPath outputState] outputs IHo];
    [done|].
  cbn [List.map fst snd status]. by rewrite IHo.
Qed.

Lemma run_keeps_the_outputs
  (make : string -> OutputPath -> OutputState -> OutputStatus) state :
  List.map (fun output => (output.1, mode output.2, inputs output.2))
    (outputsOf (run renderProblem outputPathToString make state).1.1)
  = List.map (fun output => (output.1, mode output.2, inputs output.2))
      (outputsOf state).
Proof.
  unfold run, outputsOf. cbn [fst elmJsons].
  induction (elmJsons state) as [|[elmJsonPath outputs] rest IH]; [done|].
  cbn [List.map flat_map snd]. rewrite !map_app, IH. f_equal.
  clear IH. induction outputs as [|[outputPath outputState] outputs IHo];
    [done|].
  cbn [List.map fst snd mode inputs]. by rewrite IHo.
Qed.

(** [run] replaces the status of every output by the answer of the compiler
    for it (for its [elm.json], its path and its state), leaves its mode
    and inputs as they were, and then sorts the outputs: those that succeeded, in order; those that
    failed, after the outputs of the errors found before compilation, in
    order; an output is in both lists never, and in neither only when it
    was not written to disk. Every failure but a list of compile errors
    adds one message, and no compile error is reported twice. The exit code
    is 1 when the list of failures is not empty, that is when there was an
    error before compilation or some compiler answer is a failure, and 0
    otherwise. *)
Theorem run_sorts_outputs_and_fails_on_any_failure
  (make : string -> OutputPath -> OutputState -> OutputStatus) state :
  let r := run renderProblem outputPathToString make state in
  let summary := summarize renderProblem r.1.1 in
  let outputs := outputsOf r.1.1 in
  List.map (fun output => (output.1, status output.2)) outputs
  = answersOf make state
  /\ List.map (fun output => (output.1, mode output.2, inputs output.2))
       outputs
     = List.map (fun output => (output.1, mode output.2, inputs output.2))
         (outputsOf state)
  /\ succeeded summary = List.map fst (List.filter isSuccess outputs)
  /\ failed summary
     = elmJsonsErrors state ++ List.map fst (List.filter isFailed outputs)
  /\ (forall output, output ∈ outputs ->
                     isSuccess output && isFailed output = false)
  /\ length (messages summary)
     + length (List.filter hasCompileErrors outputs)
     = length (failed summary)
  /\ NoDup (compileErrors summary)
  /\ r.2 = (if bool_decide (elmJsonsErrors state = [])
               && forallb (fun output => negb (isFailed output)) outputs
            then 0%Z else 1%Z).
Proof.
  cbn zeta. unfold run. cbn [fst snd].
  match goal with
  | |- context [summarize renderProblem ?s] => set (state' := s)
  end.
  destruct (summarize_spec state') as (Hs & Hf & Hm & Hc).
  cbv zeta in Hs, Hf, Hm, Hc.
  split; [|split; [|split; [exact Hs|]; split; [exact Hf|]; split;
           [|split; [exact Hm|]; split; [exact Hc|]]]].
  - apply run_assigns_the_answers.
  - apply run_keeps_the_outputs.
  - intros [outputPath outputState] _. unfold isSuccess, isFailed. cbn.
    by destruct (status outputState).
  - rewrite Hf. cbn [elmJsonsErrors state'].
    destruct (elmJsonsErrors state) as [|p paths]; cbn [app].
    + rewrite bool_decide_eq_true_2 by done. cbn [andb].
      clear. induction (outputsOf state') as [|output outputs IH]; [done|].
      cbn. destruct (isFailed output); [done|]. apply IH.
    + by rewrite bool_decide_eq_false_2.
Qed.

End SummaryFacts.
